(** * notmuch: the database interfaces (database.cc)

    A shallow embedding of the indexing and thread-reconstruction code of
    [database.cc]: the prefix schema, [add_term], the thread-id generator,
    the thread resolver [find_thread_ids], [notmuch_database_add_message]
    and the database life cycle ([notmuch_database_create] and
    [notmuch_database_open]).

    Conventions.  C strings are [string]; a [const char *] that may be
    [NULL] is an [option string].  A [Xapian::Document] is a record of its
    data, its term list (term to within-document frequency) and its value
    slots.  The Xapian database is the list of its documents, document id
    [n] being the [n]-th one.  Calls into the Xapian database may throw
    [Xapian::Error]; the code runs them in a state-and-exception monad.
    The GLib hash table, the C library's [rand], GMime's header decoding
    and Xapian's [sortable_serialise] are collaborators of the code and
    are taken as parameters; the properties need of the hash table only
    that its keys are the strings inserted, each once.  GLib's own table
    is modelled as well, shown to keep that promise, and used to run the
    code on concrete messages.  Of [notmuch-show.c] the file has
    [_get_tags_as_string]. *)

From Stdlib Require Import ZArith Zdivisibility String Ascii List Lia Bool.
From stdpp Require Import base option list gmap strings.

Local Open Scope Z_scope.
Local Open Scope nat_scope.

(** ** Schema: term prefixes and value slots *)

Module Schema.

Record prefix_t := { name : string; prefix : string }.

Definition NORMAL_PREFIX : list prefix_t :=
  [ {| name := "subject"; prefix := "S" |};
    {| name := "body"; prefix := "B" |};
    {| name := "from_name"; prefix := "FN" |};
    {| name := "to_name"; prefix := "TN" |};
    {| name := "name"; prefix := "N" |};
    {| name := "attachment"; prefix := "A" |} ].

Definition BOOLEAN_PREFIX : list prefix_t :=
  [ {| name := "type"; prefix := "K" |};
    {| name := "from_email"; prefix := "FE" |};
    {| name := "to_email"; prefix := "TE" |};
    {| name := "email"; prefix := "E" |};
    {| name := "date"; prefix := "D" |};
    {| name := "label"; prefix := "L" |};
    {| name := "source_id"; prefix := "I" |};
    {| name := "attachment_extension"; prefix := "O" |};
    {| name := "msgid"; prefix := "Q" |};
    {| name := "thread"; prefix := "H" |};
    {| name := "ref"; prefix := "R" |} ].

(** One of the two [for] loops of [find_prefix]: the first entry of the
    table whose name is [strcmp]-equal to [nm]. *)
Fixpoint scan_prefix (table : list prefix_t) (nm : string) : option string :=
  match table with
  | [] => None
  | p :: rest => if String.eqb nm (name p) then Some (prefix p)
                 else scan_prefix rest nm
  end.

Definition find_prefix (nm : string) : string :=
  match scan_prefix NORMAL_PREFIX nm with
  | Some p => p
  | None => match scan_prefix BOOLEAN_PREFIX nm with
            | Some p => p
            | None => ""
            end
  end.

(** [notmuch_value_t] *)
Definition NOTMUCH_VALUE_MESSAGE_ID : nat := 0.
Definition NOTMUCH_VALUE_THREAD : nat := 1.
Definition NOTMUCH_VALUE_DATE : nat := 2.

(** Xapian complains if we provide a term longer than this. *)
Definition NOTMUCH_MAX_TERM : nat := 245.

End Schema.
Import Schema.

(** ** Xapian documents *)

Record Document := mkDocument {
  doc_data : string;
  doc_terms : gmap string nat;
  doc_values : gmap nat string
}.

(** [Xapian::Document ()] *)
Definition empty_document : Document :=
  {| doc_data := ""; doc_terms := ∅; doc_values := ∅ |}.

Definition set_data (d : Document) (data : string) : Document :=
  {| doc_data := data; doc_terms := doc_terms d; doc_values := doc_values d |}.

(** [doc.add_term (term)]: the term joins the term list of the document,
    its within-document frequency going up by one. *)
Definition doc_add_term (d : Document) (term : string) : Document :=
  {| doc_data := doc_data d;
     doc_terms := <[term := S (default 0 (doc_terms d !! term))]> (doc_terms d);
     doc_values := doc_values d |}.

Definition add_value (d : Document) (slot : nat) (value : string) : Document :=
  {| doc_data := doc_data d;
     doc_terms := doc_terms d;
     doc_values := <[slot := value]> (doc_values d) |}.

(** [doc.get_value (slot)]: the empty string when the slot was never set. *)
Definition get_value (d : Document) (slot : nat) : string :=
  default "" (doc_values d !! slot).

Definition has_term (d : Document) (term : string) : Prop :=
  is_Some (doc_terms d !! term).

Definition has_termb (d : Document) (term : string) : bool :=
  bool_decide (is_Some (doc_terms d !! term)).

(** ** The term encoder

    [add_term] receives the document by value, but a [Xapian::Document] is
    a counted reference to its contents, so the caller sees the new term:
    the model returns the updated document. *)
Definition add_term (doc : Document) (prefix_name : string)
    (value : option string) : Document :=
  match value with
  | None => doc
  | Some v =>
      let term := find_prefix prefix_name +:+ v in
      if String.length term <=? NOTMUCH_MAX_TERM
      then doc_add_term doc term
      else doc
  end.

(** ** Collaborators of the code *)

(** The GLib hash table that collects the thread ids, used through
    [g_hash_table_new_full (g_str_hash, g_str_equal, free, NULL)],
    [g_hash_table_insert] (with a [NULL] value) and [g_hash_table_get_keys]. *)
Class GHashTable := {
  ghash_t : Type;
  g_hash_table_new : ghash_t;
  g_hash_table_insert : ghash_t → string → ghash_t;
  g_hash_table_get_keys : ghash_t → list string
}.

(** The table reached from a new one by inserting the keys of [l] in turn. *)
Definition table_of `{GHashTable} (l : list string) : ghash_t :=
  fold_left g_hash_table_insert l g_hash_table_new.

(** What GLib promises of such a table: its keys are the inserted strings,
    each once.  The order of [g_hash_table_get_keys] is left open. *)
Class GHashTableLaws (H : GHashTable) : Prop := {
  get_keys_elem : ∀ (l : list string) (x : string),
    x ∈ g_hash_table_get_keys (table_of l) ↔ x ∈ l;
  get_keys_NoDup : ∀ l : list string,
    NoDup (g_hash_table_get_keys (table_of l))
}.

(** The C library: [rand_stream seed n] is the value of the [n]-th call of
    [rand ()] after [srand (seed)]; [strerror] renders an [errno]. *)
Class LibC := {
  rand_stream : Z → nat → Z;
  strerror : Z → string
}.

(** A parsed message, as far as the code reads it:
    [g_mime_object_get_header] for "references" and "in-reply-to",
    [g_mime_message_get_message_id] and [g_mime_message_get_date]. *)
Record GMimeMessage := {
  header_references : option string;
  header_in_reply_to : option string;
  message_id_of : option string;
  date_of : Z
}.

(** GMime: [g_mime_parser_construct_message] on the contents of the opened
    file, and [g_mime_references_decode] giving the message ids of a
    References-style header in header order.  Xapian's
    [sortable_serialise] is kept with them. *)
Class Parsers := {
  g_mime_parser_construct_message : string → GMimeMessage;
  g_mime_references_decode : string → list string;
  sortable_serialise : Z → string
}.

(** What one call finds outside the process: [fopen] gives the [errno] or
    the contents of the file, [dev_random] the 32-bit value read from
    /dev/random ([None] when it cannot be opened), [time_now] is
    [time (NULL)]. *)
Record Env := {
  fopen : string → Z + string;
  dev_random : option Z;
  time_now : Z
}.

(** ** Process state and the monad of the code *)

Record State := mkState {
  xapian_db : list Document;            (* the documents of notmuch->xapian_db *)
  xapian_faults : list (option string); (* what the coming Xapian calls throw *)
  seeded : bool;                        (* static int seeded *)
  rand_seed : Z;                        (* the C library's generator *)
  rand_count : nat;
  stderr : list string
}.

Definition initial_state : State :=
  {| xapian_db := []; xapian_faults := []; seeded := false;
     rand_seed := 1; rand_count := 0; stderr := [] |}.

Definition with_db (s : State) (db : list Document) : State :=
  mkState db (xapian_faults s) (seeded s) (rand_seed s) (rand_count s) (stderr s).
Definition with_faults (s : State) (fl : list (option string)) : State :=
  mkState (xapian_db s) fl (seeded s) (rand_seed s) (rand_count s) (stderr s).
Definition with_rand (s : State) (sd : bool) (seed : Z) (n : nat) : State :=
  mkState (xapian_db s) (xapian_faults s) sd seed n (stderr s).
Definition with_stderr (s : State) (e : list string) : State :=
  mkState (xapian_db s) (xapian_faults s) (seeded s) (rand_seed s) (rand_count s) e.

(** A computation returns a value or throws a [Xapian::Error] with its
    message. *)
Inductive result (A : Type) : Type :=
  | Ok (a : A)
  | Throw (msg : string).
Arguments Ok {A} a.
Arguments Throw {A} msg.

Definition M (A : Type) : Type := State → result A * State.

Global Instance M_ret : MRet M := λ A a s, (Ok a, s).
Global Instance M_bind : MBind M := λ A B f m s,
  match m s with
  | (Ok a, s') => f a s'
  | (Throw msg, s') => (Throw msg, s')
  end.

(** The newline that ends a diagnostic. *)
Definition nl : string := String (ascii_of_nat 10) "".

(** [fprintf (stderr, ...)] with the formatted text. *)
Definition fprintf_stderr (text : string) (s : State) : State :=
  with_stderr s (stderr s ++ [text]).

(** The body of a [for] loop run over the elements of an array in order. *)
Fixpoint for_each {A S : Type} (l : list A) (acc : S) (body : S → A → M S) : M S :=
  match l with
  | [] => mret acc
  | x :: rest => acc' ← body acc x; for_each rest acc' body
  end.

(** *** The Xapian database *)

(** Every call into the database first consults the fault schedule: a
    [Some msg] at its head makes the call throw. *)
Definition xapian_call {A : Type} (op : State → result A * State) : M A :=
  λ s,
    match xapian_faults s with
    | Some msg :: fl => (Throw msg, with_faults s fl)
    | None :: fl => op (with_faults s fl)
    | [] => op s
    end.

Definition carries (term : string) (d : Document) : bool := has_termb d term.

(** The posting list of [term]: the ids of the documents indexed by it, in
    increasing order; document ids start at 1. *)
Fixpoint postlist_from (docid : nat) (db : list Document) (term : string) : list nat :=
  match db with
  | [] => []
  | d :: rest =>
      if carries term d then docid :: postlist_from (S docid) rest term
      else postlist_from (S docid) rest term
  end.

Definition postlist (db : list Document) (term : string) : list nat :=
  postlist_from 1 db term.

(** A call that only reads the database. *)
Definition xapian_read {A : Type} (f : list Document → result A) : M A :=
  xapian_call (λ s, (f (xapian_db s), s)).

(** [db->postlist_begin (term)] together with [db->postlist_end (term)] *)
Definition postlist_begin (term : string) : M (list nat) :=
  xapian_read (λ db, Ok (postlist db term)).

(** [db->get_document (docid)] *)
Definition get_document (docid : nat) : M Document :=
  xapian_read (λ db,
    match docid with
    | 0 => Throw "Document ID 0 is invalid"
    | S i => match db !! i with
             | Some d => Ok d
             | None => Throw "Document not found"
             end
    end).

(** [db->add_document (doc)]: the document gets the next document id. *)
Definition add_document (doc : Document) : M nat :=
  xapian_call (λ s,
    (Ok (S (length (xapian_db s))), with_db s (xapian_db s ++ [doc]))).

(** ** Thread ids *)

Definition NOTMUCH_THREAD_ID_BITS : nat := 128.
Definition NOTMUCH_THREAD_ID_DIGITS : nat := NOTMUCH_THREAD_ID_BITS / 4.

Definition hex_digit (n : Z) : ascii :=
  nth (Z.to_nat n) (list_ascii_of_string "0123456789abcdef") "0"%char.

(** [sprintf (s, "%08x", value)] for a [uint32_t value]: its eight
    hexadecimal digits, the most significant first. *)
Definition sprintf_08x (value : Z) : string :=
  string_of_list_ascii
    (map (λ i : Z, hex_digit (Z.land (Z.shiftr value (4 * i)) 15))
         [7; 6; 5; 4; 3; 2; 1; 0]%Z).

(** The value of an [int] or [time_t] stored into a [uint32_t]. *)
Definition to_uint32 (v : Z) : Z := (v mod 2 ^ 32)%Z.

Definition srand (seed : Z) : M unit :=
  λ s, (Ok tt, with_rand s (seeded s) (to_uint32 seed) 0).

Definition rand `{LibC} : M Z :=
  λ s, (Ok (rand_stream (rand_seed s) (rand_count s)),
        with_rand s (seeded s) (rand_seed s) (S (rand_count s))).

Definition set_seeded : M unit :=
  λ s, (Ok tt, with_rand s true (rand_seed s) (rand_count s)).

(** The [for] loop of [thread_id_generate]: [n] rounds, each appending the
    eight digits of one [rand ()] to [str]. *)
Fixpoint generate_digits `{LibC} (n : nat) (str : string) : M string :=
  match n with
  | 0 => mret str
  | S n' =>
      value ← rand;
      generate_digits n' (str +:+ sprintf_08x (to_uint32 value))
  end.

Definition thread_id_generate `{LibC} (env : Env) : M string :=
  λ s,
    let seeding : M unit :=
      if seeded s then mret tt
      else
        (match dev_random env with
         | None => srand (time_now env)
         | Some value => srand value
         end;; set_seeded) in
    (seeding;; generate_digits (NOTMUCH_THREAD_ID_DIGITS / 8) "") s.

Definition is_hex_lower (c : ascii) : bool :=
  existsb (Ascii.eqb c) (list_ascii_of_string "0123456789abcdef").

(** A thread id as the specification has it: 32 lowercase hexadecimal
    digits. *)
Definition is_thread_id (s : string) : bool :=
  (String.length s =? 32) && forallb is_hex_lower (list_ascii_of_string s).

(** ** Looking up messages *)

(** What ["%s"] prints for its argument; the C library prints a [NULL]
    string as ["(null)"]. *)
Definition printf_s (value : option string) : string :=
  match value with
  | Some v => v
  | None => "(null)"
  end.

(** The posting list of the term [prefix_name] ++ [value], from its begin
    to its end. *)
Definition find_messages_by_term (prefix_name : string) (value : option string)
    : M (list nat) :=
  let term := find_prefix prefix_name +:+ printf_s value in
  postlist_begin term.

Definition find_message_by_docid (docid : nat) : M Document :=
  get_document docid.

Definition find_message_by_message_id (message_id : option string) : M Document :=
  i ← find_messages_by_term "msgid" message_id;
  match i with
  | docid :: _ => find_message_by_docid docid
  | [] => mret empty_document
  end.

(** [strchr (id, ',')], or the end of the string when there is no comma:
    the number of characters before it. *)
Fixpoint comma_offset (id : string) : nat :=
  match id with
  | EmptyString => 0
  | String c rest => if Ascii.eqb c ","%char then 0 else S (comma_offset rest)
  end.

(** The pointer [p + n] into the string [p]. *)
Fixpoint advance (n : nat) (p : string) : string :=
  match n, p with
  | S n', String _ rest => advance n' rest
  | _, _ => p
  end.

(** The [while] loop of [insert_thread_id], which runs until [id] points
    at the end of the string: the piece up to the next comma is inserted,
    and [id] moves behind that comma.  Every round moves [id] forward by at
    least one character, so [String.length value] rounds are enough; [fuel]
    bounds them. *)
Fixpoint insert_thread_id_loop `{GHashTable} (fuel : nat) (thread_ids : ghash_t)
    (id : string) : ghash_t :=
  match fuel with
  | 0 => thread_ids
  | S fuel' =>
      match id with
      | EmptyString => thread_ids
      | String _ _ =>
          let comma := comma_offset id in
          let thread_ids :=
            g_hash_table_insert thread_ids (String.substring 0 comma id) in
          let id := advance comma id in
          let id := match id with
                    | String _ rest => rest
                    | EmptyString => id
                    end in
          insert_thread_id_loop fuel' thread_ids id
      end
  end.

Definition insert_thread_id `{GHashTable} (thread_ids : ghash_t) (doc : Document)
    : ghash_t :=
  let value := get_value doc NOTMUCH_VALUE_THREAD in
  if String.length value =? 0 then thread_ids
  else insert_thread_id_loop (String.length value) thread_ids value.

(** ** The thread resolver *)

Definition find_thread_ids `{GHashTable} (parents : list string)
    (message_id : option string) : M (list string) :=
  let thread_ids := g_hash_table_new in
  children ← find_messages_by_term "ref" message_id;
  thread_ids ← for_each children thread_ids (λ thread_ids child,
    doc ← find_message_by_docid child;
    mret (insert_thread_id thread_ids doc));
  thread_ids ← for_each parents thread_ids (λ thread_ids parent_message_id,
    doc ← find_message_by_message_id (Some parent_message_id);
    mret (insert_thread_id thread_ids doc));
  (* the keys are copied into the result array in the order of the list *)
  mret (g_hash_table_get_keys thread_ids).

(** [parse_references]: appends the message ids of the header to [array]. *)
Definition parse_references `{Parsers} (array : list string)
    (refs_str : option string) : list string :=
  match refs_str with
  | None => array
  | Some str => array ++ g_mime_references_decode str
  end.

(** ** Adding a message *)

(** The two status values of [notmuch_status_t] that the code returns. *)
Inductive notmuch_status_t : Type :=
  | NOTMUCH_STATUS_SUCCESS
  | NOTMUCH_STATUS_XAPIAN_EXCEPTION.

(** How a call ends: it returns to its caller, or [exit] ends the process. *)
Inductive outcome (A : Type) : Type :=
  | Returned (a : A)
  | Exited (code : Z).
Arguments Returned {A} a.
Arguments Exited {A} code.

(** The loop over [thread_ids] in [notmuch_database_add_message]: a thread
    term for every id, and the ids joined by commas in [thread_id]. *)
Fixpoint thread_ids_loop (i : nat) (thread_ids : list string) (doc : Document)
    (thread_id : string) : Document * string :=
  match thread_ids with
  | [] => (doc, thread_id)
  | id :: rest =>
      let doc := add_term doc "thread" (Some id) in
      let thread_id := if i =? 0 then id else thread_id +:+ "," +:+ id in
      thread_ids_loop (S i) rest doc thread_id
  end.

(** The [try] block of [notmuch_database_add_message]. *)
Definition add_message_try `{GHashTable, LibC, Parsers} (env : Env)
    (filename : string) (message : GMimeMessage) : M unit :=
  let doc := empty_document in
  let doc := set_data doc filename in
  let parents := [] in
  let refs := header_references message in
  let parents := parse_references parents refs in
  let in_reply_to := header_in_reply_to message in
  let parents := parse_references parents in_reply_to in
  let doc := fold_left (λ doc parent, add_term doc "ref" (Some parent)) parents doc in
  let message_id := message_id_of message in
  thread_ids ← find_thread_ids parents message_id;
  let doc :=
    match message_id with
    | Some id => add_value (add_term doc "msgid" message_id) NOTMUCH_VALUE_MESSAGE_ID id
    | None => doc
    end in
  doc ←
    (if negb (length thread_ids =? 0) then
       let '(doc, thread_id) := thread_ids_loop 0 thread_ids doc "" in
       mret (add_value doc NOTMUCH_VALUE_THREAD thread_id)
     else
       match message_id with
       | Some _ =>
           (* If not part of any existing thread, generate a new thread_id. *)
           thread_id ← thread_id_generate env;
           let doc := add_term doc "thread" (Some thread_id) in
           mret (add_value doc NOTMUCH_VALUE_THREAD thread_id)
       | None => mret doc
       end);
  let time := date_of message in
  let doc := add_value doc NOTMUCH_VALUE_DATE (sortable_serialise time) in
  add_document doc;;
  mret tt.

Definition notmuch_database_add_message `{GHashTable, LibC, Parsers} (env : Env)
    (filename : string) (s : State) : outcome notmuch_status_t * State :=
  match fopen env filename with
  | inl errno =>
      let s := fprintf_stderr
        ("Error opening " +:+ filename +:+ ": " +:+ strerror errno +:+ nl) s in
      (Exited 1%Z, s)
  | inr file =>
      let message := g_mime_parser_construct_message file in
      match add_message_try env filename message s with
      | (Ok _, s') => (Returned NOTMUCH_STATUS_SUCCESS, s')
      | (Throw msg, s') =>
          let s' := fprintf_stderr
            ("A Xapian exception occurred: " +:+ msg +:+ "." +:+ nl) s' in
          (Returned NOTMUCH_STATUS_XAPIAN_EXCEPTION, s')
      end
  end.

(** ** The GLib hash table

    The code is stated over any [GHashTable]; this is the table to run it
    with. *)

(** GLib's own table as of GLib 2.22 (ghash.c): open addressing with
    quadratic probing over [1 << shift] nodes, the first node of a key being
    its hash modulo a prime; [g_hash_table_get_keys] walks the nodes and
    prepends every key to the list that it returns.  No key is ever removed
    by the code, so there are no tombstones. *)
Module GLib.

Record GHashNode := { key : string; key_hash : Z }.

Record GHashTable_ := {
  shift : nat;
  nnodes : nat;
  nodes : list (option GHashNode)
}.

Definition HASH_TABLE_MIN_SHIFT : nat := 3.

Definition prime_mod : list Z :=
  [ 1; 2; 3; 7; 13; 31; 61; 127; 251; 509; 1021; 2039; 4093; 8191; 16381;
    32749; 65521; 131071; 262139; 524287; 1048573; 2097143; 4194301;
    8388593; 16777213; 33554393; 67108859; 134217689; 268435399;
    536870909; 1073741789; 2147483647 ]%Z.

Definition size (t : GHashTable_) : nat := 2 ^ shift t.
Definition mod_ (t : GHashTable_) : Z := nth (shift t) prime_mod 1%Z.

Definition signed_char (c : ascii) : Z :=
  let n := Z.of_nat (nat_of_ascii c) in
  if (n <? 128)%Z then n else (n - 256)%Z.

(** [g_str_hash]: [h = (h << 5) - h + *p] over the characters, in 32 bits. *)
Definition g_str_hash (v : string) : Z :=
  match v with
  | EmptyString => 0%Z
  | String c rest =>
      fold_left (λ h p, to_uint32 (Z.shiftl h 5 - h + signed_char p))
                (list_ascii_of_string rest) (to_uint32 (signed_char c))
  end.

Definition hash_of (k : string) : Z :=
  let hash_value := g_str_hash k in
  if (hash_value <=? 1)%Z then 2%Z else hash_value.

(** [g_hash_table_lookup_node_for_insertion]: the node of [k], or the first
    empty node of its probe sequence. *)
Fixpoint lookup_node (fuel : nat) (t : GHashTable_) (k : string) (hash_value : Z)
    (node_index step : nat) : nat :=
  match fuel with
  | 0 => node_index
  | S fuel' =>
      match nodes t !! node_index with
      | Some (Some node) =>
          if (key_hash node =? hash_value)%Z && String.eqb (key node) k
          then node_index
          else
            let step := S step in
            lookup_node fuel' t k hash_value ((node_index + step) mod size t) step
      | _ => node_index
      end
  end.

(** The probe of [g_hash_table_resize], which looks for an empty node only. *)
Fixpoint empty_node (fuel : nat) (new_nodes : list (option GHashNode)) (sz : nat)
    (hash_val step : nat) : nat :=
  match fuel with
  | 0 => hash_val
  | S fuel' =>
      match new_nodes !! hash_val with
      | Some (Some _) =>
          let step := S step in
          empty_node fuel' new_nodes sz ((hash_val + step) mod sz) step
      | _ => hash_val
      end
  end.

Definition find_closest_shift (n : nat) : nat :=
  match n with
  | 0 => 0
  | _ => S (Nat.log2 n)
  end.

(** One round of the loop of [g_hash_table_resize]: the node goes to the
    first empty node of its probe sequence in the new array. *)
Definition place (shift' : nat) (new_nodes : list (option GHashNode))
    (node : GHashNode) : list (option GHashNode) :=
  let hash_val := Z.to_nat (key_hash node mod nth shift' prime_mod 1%Z) in
  <[empty_node (2 ^ shift') new_nodes (2 ^ shift') hash_val 0 := Some node]> new_nodes.

Definition resize (t : GHashTable_) : GHashTable_ :=
  let shift' := Nat.max (find_closest_shift (nnodes t * 2)) HASH_TABLE_MIN_SHIFT in
  let new_nodes :=
    fold_left (λ new_nodes node,
      match node with
      | None => new_nodes
      | Some nd => place shift' new_nodes nd
      end) (nodes t) (replicate (2 ^ shift') None) in
  {| shift := shift'; nnodes := nnodes t; nodes := new_nodes |}.

Definition maybe_resize (t : GHashTable_) : GHashTable_ :=
  let noccupied := nnodes t in
  if ((nnodes t * 4 <? size t) && (2 ^ HASH_TABLE_MIN_SHIFT <? size t))
     || (size t <=? noccupied + noccupied / 16)
  then resize t else t.

Definition new : GHashTable_ :=
  {| shift := HASH_TABLE_MIN_SHIFT; nnodes := 0;
     nodes := replicate (2 ^ HASH_TABLE_MIN_SHIFT) None |}.

Definition insert (t : GHashTable_) (k : string) : GHashTable_ :=
  let hash_value := hash_of k in
  let node_index :=
    lookup_node (size t) t k hash_value (Z.to_nat (hash_value mod mod_ t)) 0 in
  match nodes t !! node_index with
  | Some (Some _) => t
  | _ =>
      maybe_resize
        {| shift := shift t; nnodes := S (nnodes t);
           nodes := <[node_index := Some {| key := k; key_hash := hash_value |}]> (nodes t) |}
  end.

Definition get_keys (t : GHashTable_) : list string :=
  fold_left (λ retval node,
    match node with
    | Some nd => key nd :: retval
    | None => retval
    end) (nodes t) [].

(** *** What makes a table well formed *)

(** The [n]-th triangular number: how far round [n] of a probe is from its
    start. *)
Definition tri (n : nat) : nat := n * (n + 1) / 2.

(** The node examined in round [n] of a probe that starts at node [idx]
    with [step] steps behind it. *)
Fixpoint probe_at (sz idx step n : nat) : nat :=
  match n with
  | 0 => idx
  | S n' => probe_at sz ((idx + S step) mod sz) (S step) n'
  end.

(** The nodes in use, and their keys, in the order of the array. *)
Definition stored (nds : list (option GHashNode)) : list GHashNode := omap id nds.

Definition keys_of (nds : list (option GHashNode)) : list string := key <$> stored nds.

Definition occupied (nds : list (option GHashNode)) (p : nat) : Prop :=
  ∃ nd, nds !! p = Some (Some nd).

(** Where the probe for a hash value starts in a table of [1 << sh] nodes. *)
Definition start_of (sh : nat) (hash_value : Z) : nat :=
  Z.to_nat (hash_value mod nth sh prime_mod 1%Z).

(** Every node holds the hash of its key and sits on the probe sequence of
    its key, behind occupied nodes only. *)
Definition placed (sh : nat) (nds : list (option GHashNode)) : Prop :=
  ∀ p nd, nds !! p = Some (Some nd) →
    key_hash nd = hash_of (key nd)
    ∧ ∃ n, n < 2 ^ sh
           ∧ p = probe_at (2 ^ sh) (start_of sh (key_hash nd)) 0 n
           ∧ ∀ m, m < n → occupied nds (probe_at (2 ^ sh) (start_of sh (key_hash nd)) 0 m).

Definition nodes_ok (sh : nat) (nds : list (option GHashNode)) : Prop :=
  length nds = 2 ^ sh ∧ NoDup (keys_of nds) ∧ placed sh nds.

(** A table is well formed when its nodes are, [nnodes] counts them, and
    one node at least is empty. *)
Definition table_ok (t : GHashTable_) : Prop :=
  nodes_ok (shift t) (nodes t)
  ∧ nnodes t = length (stored (nodes t))
  ∧ nnodes t < 2 ^ shift t.

Definition table : GHashTable :=
  {| ghash_t := GHashTable_;
     g_hash_table_new := new;
     g_hash_table_insert := insert;
     g_hash_table_get_keys := get_keys |}.

End GLib.

(** ** The database life cycle *)

(** What [notmuch_database_create] and [notmuch_database_open] see of the
    system: [stat] gives the [errno] or whether the path is a directory,
    [mkdir] the [errno] when it fails, [xapian_open] what constructing a
    [Xapian::WritableDatabase] with [DB_CREATE_OR_OPEN] does at a path
    (the message of the exception, or the documents of the index). *)
Record System := mkSystem {
  stat : string → Z + bool;
  mkdir : string → option Z;
  xapian_open : string → string + list Document;
  sys_stderr : list string
}.

Definition sys_fprintf (text : string) (sys : System) : System :=
  mkSystem (stat sys) (mkdir sys) (xapian_open sys) (sys_stderr sys ++ [text]).

(** After a successful [mkdir (dir, 0755)], [dir] is a directory. *)
Definition sys_made_dir (dir : string) (sys : System) : System :=
  mkSystem (λ p, if String.eqb p dir then inr true else stat sys p)
           (mkdir sys) (xapian_open sys) (sys_stderr sys).

(** [struct _notmuch_database]; [handle_db] is [None] as long as the member
    [xapian_db] has not been assigned. *)
Record notmuch_database_t := {
  path : string;
  handle_db : option (list Document)
}.

(** The result is [None] for a [NULL] handle. *)
Definition notmuch_database_open `{LibC} (path_ : string) (sys : System)
    : option notmuch_database_t * System :=
  let notmuch_path := path_ +:+ "/" +:+ ".notmuch" in
  match stat sys notmuch_path with
  | inl _ =>
      (* the code passes the return value of [stat] to [strerror] *)
      (None, sys_fprintf ("Error: Cannot stat " +:+ notmuch_path +:+ ": "
                          +:+ strerror (-1) +:+ nl) sys)
  | inr _ =>
      let xapian_path := notmuch_path +:+ "/" +:+ "xapian" in
      let notmuch := {| path := path_; handle_db := None |} in
      match xapian_open sys xapian_path with
      | inr db => (Some {| path := path notmuch; handle_db := Some db |}, sys)
      | inl msg =>
          (Some notmuch,
           sys_fprintf ("A Xapian exception occurred: " +:+ msg +:+ nl) sys)
      end
  end.

Definition notmuch_database_create `{LibC} (path_ : string) (sys : System)
    : option notmuch_database_t * System :=
  match stat sys path_ with
  | inl errno =>
      (None, sys_fprintf ("Error: Cannot create database at " +:+ path_ +:+ ": "
                          +:+ strerror errno +:+ "." +:+ nl) sys)
  | inr false =>
      (None, sys_fprintf ("Error: Cannot create database at " +:+ path_
                          +:+ ": Not a directory." +:+ nl) sys)
  | inr true =>
      let notmuch_path := path_ +:+ "/" +:+ ".notmuch" in
      match mkdir sys notmuch_path with
      | Some errno =>
          (None, sys_fprintf ("Error: Cannot create directory " +:+ notmuch_path
                              +:+ ": " +:+ strerror errno +:+ "." +:+ nl) sys)
      | None => notmuch_database_open path_ (sys_made_dir notmuch_path sys)
      end
  end.

Definition notmuch_database_get_path (notmuch : notmuch_database_t) : string :=
  path notmuch.

(** ** Reading the index: what the properties are stated with *)

(** The thread ids of a slot-1 value: its pieces between commas, a piece
    after the last comma counting only when it is not empty. *)
Fixpoint fragments_from (cur : string) (s : string) : list string :=
  match s with
  | EmptyString => match cur with EmptyString => [] | _ => [cur] end
  | String c rest =>
      if Ascii.eqb c ","%char then cur :: fragments_from "" rest
      else fragments_from (cur +:+ String c "") rest
  end.

Definition fragments (s : string) : list string := fragments_from "" s.

Definition thread_ids_of (d : Document) : list string :=
  fragments (get_value d NOTMUCH_VALUE_THREAD).

(** The ids joined by commas. *)
Definition join_ids (ids : list string) : string :=
  match ids with
  | [] => ""
  | id :: rest => fold_left (λ acc id', acc +:+ "," +:+ id') rest id
  end.

(** The first document of the index that carries [term]. *)
Definition first_carrier (db : list Document) (term : string) : option Document :=
  List.find (carries term) db.

(** The thread ids in discovery order, repetitions included: those of the
    children (the documents that carry the term ref:[message_id]) in
    posting-list order, then for every parent in header order those of the
    first document that carries msgid:[parent]. *)
Definition discovery (db : list Document) (parents : list string)
    (message_id : option string) : list string :=
  flat_map thread_ids_of
    (filter (λ d, carries (find_prefix "ref" +:+ printf_s message_id) d = true) db)
  ++ flat_map (λ parent,
       match first_carrier db (find_prefix "msgid" +:+ parent) with
       | Some d => thread_ids_of d
       | None => []
       end) parents.

(** Discovery order proper: every id once, at its first occurrence. *)
Definition discovery_order (ids : list string) : list string :=
  fold_left (λ seen id, if decide (id ∈ seen) then seen else seen ++ [id]) ids [].

Definition is_thread_term (term : string) : bool :=
  String.prefix (find_prefix "thread") term.

Definition is_msgid_term (term : string) : bool :=
  String.prefix (find_prefix "msgid") term.

(** The parents of a message, as [notmuch_database_add_message] collects
    them: the ids of References, then those of In-Reply-To. *)
Definition parents_of `{Parsers} (message : GMimeMessage) : list string :=
  parse_references (parse_references [] (header_references message))
                   (header_in_reply_to message).

(** The states a process gets to by adding messages, whatever the files
    hold and whatever the index throws. *)
Inductive reachable `{GHashTable, LibC, Parsers} : State → Prop :=
  | reach_init : reachable initial_state
  | reach_faults s fl : reachable s → reachable (with_faults s fl)
  | reach_add s env filename :
      reachable s →
      reachable (snd (notmuch_database_add_message env filename s)).

(** ** A small world to run the code in *)

Module Scenario.

(** A linear congruential [rand] and a one-message [strerror]. *)
Fixpoint lcg (n : nat) (r : Z) : Z :=
  match n with
  | 0 => r
  | S n' => lcg n' (Z.land (r * 1103515245 + 12345) 2147483647)
  end.

Definition libc : LibC :=
  {| rand_stream := λ seed n, lcg (S n) seed;
     strerror := λ _, "No such file or directory" |}.

Definition mail (id refs in_reply_to : option string) : GMimeMessage :=
  {| header_references := refs; header_in_reply_to := in_reply_to;
     message_id_of := id; date_of := 1256000000 |}.

(** The message ids of a header: what stands between angle brackets. *)
Fixpoint msgids (inside : bool) (cur : string) (s : string) : list string :=
  match s with
  | EmptyString => []
  | String c rest =>
      if Ascii.eqb c "<"%char then msgids true "" rest
      else if Ascii.eqb c ">"%char
      then (if inside then cur :: msgids false "" rest else msgids false "" rest)
      else msgids inside (if inside then cur +:+ String c "" else cur) rest
  end.

(** A message id of 245 bytes: one too many for a term with its prefix. *)
Definition long_id : string := string_of_list_ascii (replicate 245 "m"%char).

(** The mail files, by name. *)
Definition files : list (string * GMimeMessage) :=
  [ ("a", mail (Some "a@x") None None);
    ("b", mail (Some "b@x") None None);
    ("a2", mail (Some "a@x") None None);
    ("b_re_a", mail (Some "b@x") None (Some "<a@x>"));
    ("c_refs_a_b", mail (Some "c@x") (Some "<a@x> <b@x>") None);
    ("anon", mail None None None);
    ("anon_re_a", mail None None (Some "<a@x>"));
    ("long", mail (Some long_id) None None);
    ("re_long", mail (Some "r@x") None (Some ("<" +:+ long_id +:+ ">"))) ].

(** A file holds its own name; the parser looks the message up. *)
Definition parsers : Parsers :=
  {| g_mime_parser_construct_message := λ contents,
       default (mail None None None)
               (snd <$> List.find (λ f, String.eqb (fst f) contents) files);
     g_mime_references_decode := msgids false "";
     sortable_serialise := λ _, "t" |}.

Definition ENOENT : Z := 2.

Definition env : Env :=
  {| fopen := λ filename,
       if bool_decide (filename ∈ (files.*1)) then inr filename else inl ENOENT;
     dev_random := Some 2009%Z;
     time_now := 1256000000 |}.

(** Adding the files one after the other, as long as the process lives. *)
Definition add_all (H : GHashTable) (filenames : list string) (s : State) : State :=
  fold_left (λ s filename,
    snd (@notmuch_database_add_message H libc parsers env filename s))
    filenames s.

(** A system in which the directory /mail exists, [mkdir] succeeds, and the
    index cannot be opened. *)
Definition broken_index : System :=
  {| stat := λ p, if String.eqb p "/mail" then inr true else inl ENOENT;
     mkdir := λ _, None;
     xapian_open := λ _, inl "Unable to get write lock";
     sys_stderr := [] |}.

End Scenario.

(** ** Proof devices *)

(** [post m s Q E]: run from [s], the computation [m] returns a value and a
    state in [Q], or throws in a state in [E]. *)
Definition post {A : Type} (m : M A) (s : State)
    (Q : A → State → Prop) (E : State → Prop) : Prop :=
  match m s with
  | (Ok a, s') => Q a s'
  | (Throw _, s') => E s'
  end.

(** [s'] differs from [s] at most in the fault schedule. *)
Definition read_only (s s' : State) : Prop :=
  s' = with_faults s (xapian_faults s').

(** The thread id that [thread_id_generate] hands out in state [s]. *)
Definition minted `{LibC} (env : Env) (s : State) : string :=
  match thread_id_generate env s with
  | (Ok thread_id, _) => thread_id
  | (Throw _, _) => ""
  end.

(** The thread ids that [notmuch_database_add_message] gives to a message
    with these parents and this message id in state [s]: the keys of the
    hash table if there are any, else a new id if the message has an id. *)
Definition thread_set `{GHashTable, LibC} (env : Env) (s : State)
    (parents : list string) (message_id : option string) : list string :=
  match g_hash_table_get_keys (table_of (discovery (xapian_db s) parents message_id)),
        message_id with
  | [], Some _ => [minted env s]
  | [], None => []
  | keys, _ => keys
  end.

(** The document that a call commits when nothing throws: the steps of the
    [try] block on the document, with the thread ids of [thread_set]. *)
Definition document_for `{GHashTable, LibC, Parsers} (env : Env)
    (filename : string) (message : GMimeMessage) (s : State) : Document :=
  let parents := parents_of message in
  let message_id := message_id_of message in
  let doc := set_data empty_document filename in
  let doc := fold_left (λ doc parent, add_term doc "ref" (Some parent)) parents doc in
  let doc :=
    match message_id with
    | Some id => add_value (add_term doc "msgid" message_id) NOTMUCH_VALUE_MESSAGE_ID id
    | None => doc
    end in
  let doc :=
    match thread_set env s parents message_id with
    | [] => doc
    | ids =>
        add_value (fold_left (λ doc id, add_term doc "thread" (Some id)) ids doc)
                  NOTMUCH_VALUE_THREAD (join_ids ids)
    end in
  add_value doc NOTMUCH_VALUE_DATE (sortable_serialise (date_of message)).

(** [m] returns from [s] without throwing and without changing the state. *)
Definition quiet {A : Type} (m : M A) (s : State) : Prop :=
  ∃ a, m s = (Ok a, s).

(** An id that survives joining and splitting: not empty, no comma. *)
Definition plain_id (id : string) : Prop :=
  id ≠ "" ∧ ","%char ∉ list_ascii_of_string id.

(** Two documents share a thread id. *)
Definition shares (A B : Document) : Prop :=
  ∃ thread_id, thread_id ∈ thread_ids_of A ∧ thread_id ∈ thread_ids_of B.

(** What holds of every document that the code commits: slot 1 is unset or
    the join of thread ids, and a document with a msgid term has a thread. *)
Definition doc_ok (d : Document) : Prop :=
  Forall (λ id, is_thread_id id = true) (thread_ids_of d)
  ∧ doc_values d !! NOTMUCH_VALUE_THREAD
    = match thread_ids_of d with [] => None | ids => Some (join_ids ids) end
  ∧ ∀ x, has_term d (find_prefix "msgid" +:+ x) → thread_ids_of d ≠ [].

(** Document [A] refers to the message id [x] that document [B] is the
    first of the index to claim. *)
Definition refers_to (db : list Document) (i j : nat) (A B : Document)
    (x : string) : Prop :=
  db !! i = Some A ∧ db !! j = Some B ∧ i ≠ j
  ∧ has_term A (find_prefix "ref" +:+ x)
  ∧ has_term B (find_prefix "msgid" +:+ x)
  ∧ ∀ k d, k < j → db !! k = Some d → ¬ has_term d (find_prefix "msgid" +:+ x).

Definition index_ok (db : list Document) : Prop :=
  Forall doc_ok db
  ∧ ∀ i j A B x, refers_to db i j A B x → thread_ids_of A ≠ [] → shares A B.

(** ** More of the code: what its properties are stated with *)

(** The field names of the schema. *)
Definition known_field (nm : string) : Prop :=
  nm ∈ (name <$> NORMAL_PREFIX ++ BOOLEAN_PREFIX).

(** The seed that an unseeded process gives to [srand]: the value read from
    /dev/random, or the time when that cannot be opened. *)
Definition seed_source (env : Env) : Z :=
  to_uint32 (match dev_random env with
             | Some value => value
             | None => time_now env
             end).

(** *** notmuch-show.c: the tags of a message as one string *)

(** Modelled from the spec: the tags cursor of a message
    ([notmuch_message_get_tags], [notmuch_tags_has_more], [notmuch_tags_get],
    [notmuch_tags_advance]), whose code is not among the sources.  A cursor
    is the list of the tags still to come: it has more as long as the list
    is not empty, gets its head and advances to its tail.  Allocation does
    not fail in the model. *)
Definition notmuch_tags_t : Type := list string.

(** The [for] loop of [_get_tags_as_string]: every tag is appended to
    [result], after a space unless it is the first. *)
Fixpoint get_tags_loop (tags : notmuch_tags_t) (first : bool) (result : string)
    : string :=
  match tags with
  | [] => result
  | tag :: tags' =>
      let result := result +:+ (if first then "" else " ") +:+ tag in
      get_tags_loop tags' false result
  end.

Definition _get_tags_as_string (tags : notmuch_tags_t) : string :=
  let result := "" in
  get_tags_loop tags true result.

(** *** What the code leaves in a stored document *)

(** The fields that [notmuch_database_add_message] makes terms of. *)
Definition indexed_fields : list string := ["ref"; "msgid"; "thread"].

(** What [notmuch_database_add_message] leaves in every document that it
    stores: short terms of the three indexed fields; a msgid term only for
    the value of slot 0; the thread terms of the ids of slot 1, each of them
    once; a date in slot 2 and no slot beyond it. *)
Definition stored_ok (d : Document) : Prop :=
  (∀ t, has_term d t →
     String.length t ≤ NOTMUCH_MAX_TERM
     ∧ ∃ field v, field ∈ indexed_fields ∧ t = find_prefix field +:+ v)
  ∧ (∀ x, has_term d (find_prefix "msgid" +:+ x) →
       doc_values d !! NOTMUCH_VALUE_MESSAGE_ID = Some x)
  ∧ (∀ id, has_term d (find_prefix "thread" +:+ id) ↔ id ∈ thread_ids_of d)
  ∧ NoDup (thread_ids_of d)
  ∧ is_Some (doc_values d !! NOTMUCH_VALUE_DATE)
  ∧ (∀ slot, is_Some (doc_values d !! slot) → slot ≤ NOTMUCH_VALUE_DATE).

(** The within-document frequency of a term, as Xapian counts it: how often
    [add_term] was called with it; 0 for a term that the document has
    not. *)
Definition wdf (d : Document) (term : string) : nat :=
  default 0 (doc_terms d !! term).

(** How often [x] occurs in [l]. *)
Definition occurrences (x : string) (l : list string) : nat :=
  length (filter (λ y, y = x) l).

(** A parser for which every file holds the same mail: a reply that names
    <a@x> in References and again in In-Reply-To. *)
Definition twice_parsers : Parsers :=
  {| g_mime_parser_construct_message := λ _,
       Scenario.mail (Some "d@x") (Some "<a@x> <b@x>") (Some "<a@x>");
     g_mime_references_decode := Scenario.msgids false "";
     sortable_serialise := λ _, "t" |}.

(** ** What the backend did during a run *)

(** As [post], the postcondition of a throw seeing the message thrown. *)
Definition post_msg {A : Type} (m : M A) (s : State)
    (Q : A → State → Prop) (E : string → State → Prop) : Prop :=
  match m s with
  | (Ok a, s') => Q a s'
  | (Throw msg, s') => E msg s'
  end.

(** A schedule none of whose entries makes a call throw. *)
Definition calm (fl : list (option string)) : Prop :=
  Forall (λ f, f = None) fl.

(** Between [s] and [s'] the backend raised nothing: every call that
    consulted the schedule found an entry that let it return. *)
Definition returned_all (s s' : State) : Prop :=
  ∃ pre, xapian_faults s = pre ++ xapian_faults s' ∧ calm pre.

(** Between [s] and [s'] the backend raised [msg]: the calls before the
    last one returned, and the last one found the entry [Some msg]. *)
Definition raised (msg : string) (s s' : State) : Prop :=
  ∃ pre, xapian_faults s = pre ++ Some msg :: xapian_faults s' ∧ calm pre.

(** ** The generator, by its draws *)

(** The flag [seeded] with the state of the C library's generator. *)
Definition generator (s : State) : bool * Z * nat :=
  (seeded s, rand_seed s, rand_count s).

(** The seed with which the next call of [thread_id_generate] draws, and
    the number of values drawn from its stream so far: those of the
    generator once it is seeded, before that the seed of the environment
    and no value drawn. *)
Definition next_seed (env : Env) (s : State) : Z :=
  if seeded s then rand_seed s else seed_source env.

Definition next_draw (s : State) : nat :=
  if seeded s then rand_count s else 0.

(** The thread id rendered from four values of the stream of [seed], those
    after its first [n]: eight digits for each, in the order drawn. *)
Definition thread_id_of_draws `{LibC} (seed : Z) (n : nat) : string :=
  sprintf_08x (to_uint32 (rand_stream seed n))
  +:+ sprintf_08x (to_uint32 (rand_stream seed (1 + n)))
  +:+ sprintf_08x (to_uint32 (rand_stream seed (2 + n)))
  +:+ sprintf_08x (to_uint32 (rand_stream seed (3 + n))).

(** Every thread id of the index was generated by this process: each is
    rendered from four draws of the stream of its seed, at a position that is
    a multiple of four below the number of values drawn so far. *)
Definition minted_by_process `{LibC} (s : State) : Prop :=
  ∃ m, next_draw s = 4 * m
       ∧ ∀ d tid, d ∈ xapian_db s → tid ∈ thread_ids_of d →
           ∃ k, k < m ∧ tid = thread_id_of_draws (rand_seed s) (4 * k).

(** * Properties *)

(** ** Strings *)

Lemma append_cons (a : ascii) (s t : string) :
  String a s +:+ t = String a (s +:+ t).
Proof. reflexivity. Qed.

Lemma append_nil_l (t : string) : "" +:+ t = t.
Proof. reflexivity. Qed.

Lemma append_nil_r (s : string) : s +:+ "" = s.
Proof. induction s as [|a s IH]; [done|]. by rewrite append_cons, IH. Qed.

Lemma append_assoc (s t u : string) : (s +:+ t) +:+ u = s +:+ (t +:+ u).
Proof. induction s as [|a s IH]; [done|]. by rewrite !append_cons, IH. Qed.

Lemma length_append (s t : string) :
  String.length (s +:+ t) = String.length s + String.length t.
Proof. induction s as [|a s IH]; [done|]. rewrite append_cons. simpl. by rewrite IH. Qed.

Lemma chars_append (s t : string) :
  list_ascii_of_string (s +:+ t) = list_ascii_of_string s ++ list_ascii_of_string t.
Proof. induction s as [|a s IH]; [done|]. rewrite append_cons. simpl. by rewrite IH. Qed.

Lemma prefix_append (p s : string) : String.prefix p (p +:+ s) = true.
Proof.
  induction p as [|a p IH]; [by destruct s|].
  rewrite append_cons. simpl. by destruct (ascii_dec a a).
Qed.

(** ** Documents and [add_term] *)

Lemma has_term_add_term (doc : Document) (field : string) (v t : string) :
  has_term (add_term doc field (Some v)) t ↔
  has_term doc t ∨
  (t = find_prefix field +:+ v ∧ String.length t ≤ NOTMUCH_MAX_TERM).
Proof.
  unfold add_term, has_term.
  destruct (Nat.leb_spec (String.length (find_prefix field +:+ v)) NOTMUCH_MAX_TERM) as [Hle|Hgt].
  - simpl. destruct (decide (t = find_prefix field +:+ v)) as [->|Hne].
    + rewrite lookup_insert_eq. split; [intros _; right|]; eauto.
    + rewrite lookup_insert_ne by done.
      split; [by left|]. intros [?|[? _]]; [done|congruence].
  - split; [by left|]. intros [?|[-> ?]]; [done|lia].
Qed.

Lemma add_term_values (doc : Document) (field : string) (value : option string) :
  doc_values (add_term doc field value) = doc_values doc.
Proof. unfold add_term. destruct value; [|done]. by case_match. Qed.

Lemma add_term_data (doc : Document) (field : string) (value : option string) :
  doc_data (add_term doc field value) = doc_data doc.
Proof. unfold add_term. destruct value; [|done]. by case_match. Qed.

(** C6 ([add_term]).  A null value leaves the document as it is.  With a
    value, the term prefix(field) ++ value joins the document (nothing else
    of it changes) when it is at most 245 bytes long; when it is longer the
    document stays as it was, so no shortened term is stored either. *)
Theorem add_term_spec (doc : Document) (field : string) (value : option string) :
  match value with
  | None => add_term doc field value = doc
  | Some v =>
      let term := find_prefix field +:+ v in
      if decide (String.length term ≤ 245)
      then has_term (add_term doc field value) term
           ∧ (∀ t, t ≠ term →
                doc_terms (add_term doc field value) !! t = doc_terms doc !! t)
           ∧ doc_values (add_term doc field value) = doc_values doc
           ∧ doc_data (add_term doc field value) = doc_data doc
      else add_term doc field value = doc
  end.
Proof.
  destruct value as [v|]; [|done]. cbv zeta.
  case_decide as Hlen.
  - split_and!.
    + apply has_term_add_term. right. split; [done|]. exact Hlen.
    + intros t Hne. unfold add_term.
      destruct (Nat.leb_spec (String.length (find_prefix field +:+ v)) NOTMUCH_MAX_TERM);
        [|done].
      simpl. by rewrite lookup_insert_ne.
    + apply add_term_values.
    + apply add_term_data.
  - unfold add_term.
    destruct (Nat.leb_spec (String.length (find_prefix field +:+ v)) NOTMUCH_MAX_TERM) as [Hle|];
      [|done].
    exfalso. apply Hlen. exact Hle.
Qed.

(** ** A message file that cannot be opened *)

(** C9.  When [fopen] fails on the message file, the call prints a
    diagnostic and ends the process with [exit (1)]: no status comes back
    to the caller, and the index is not touched. *)
Theorem add_message_unreadable_file_exits `{GHashTable, LibC, Parsers}
    (env : Env) (filename : string) (errno : Z) (s : State) :
  fopen env filename = inl errno →
  ∃ s', notmuch_database_add_message env filename s = (Exited 1%Z, s')
        ∧ stderr s' = stderr s ++ ["Error opening " +:+ filename +:+ ": "
                                   +:+ strerror errno +:+ nl]
        ∧ xapian_db s' = xapian_db s
        ∧ ∀ status, fst (notmuch_database_add_message env filename s)
                    ≠ Returned status.
Proof.
  intros Hopen. unfold notmuch_database_add_message. rewrite Hopen.
  eexists. split; [reflexivity|]. by split_and!.
Qed.

Lemma add_message_unreadable_file_exits_witness :
  ∃ s', @notmuch_database_add_message GLib.table Scenario.libc
          Scenario.parsers Scenario.env "missing" initial_state = (Exited 1%Z, s')
        ∧ stderr s' = ["Error opening missing: No such file or directory" +:+ nl]
        ∧ xapian_db s' = []
        ∧ ∀ status, fst (@notmuch_database_add_message GLib.table
                           Scenario.libc Scenario.parsers Scenario.env "missing"
                           initial_state) ≠ Returned status.
Proof.
  exact (@add_message_unreadable_file_exits GLib.table Scenario.libc
           Scenario.parsers Scenario.env "missing" Scenario.ENOENT initial_state
           eq_refl).
Defined.

(** ** Opening and creating the database *)

Lemma create_missing_path `{LibC} (path_ : string) (sys : System) (errno : Z) :
  stat sys path_ = inl errno →
  ∃ line, notmuch_database_create path_ sys = (None, sys_fprintf line sys).
Proof. intros Hst. unfold notmuch_database_create. rewrite Hst. eauto. Qed.

Lemma create_not_a_directory `{LibC} (path_ : string) (sys : System) :
  stat sys path_ = inr false →
  ∃ line, notmuch_database_create path_ sys = (None, sys_fprintf line sys).
Proof. intros Hst. unfold notmuch_database_create. rewrite Hst. eauto. Qed.

Lemma create_mkdir_fails `{LibC} (path_ : string) (sys : System) (errno : Z) :
  stat sys path_ = inr true →
  mkdir sys (path_ +:+ "/" +:+ ".notmuch") = Some errno →
  ∃ line, notmuch_database_create path_ sys = (None, sys_fprintf line sys).
Proof.
  intros Hst Hmk. unfold notmuch_database_create. rewrite Hst, Hmk. eauto.
Qed.

Lemma open_no_notmuch_directory `{LibC} (path_ : string) (sys : System) (errno : Z) :
  stat sys (path_ +:+ "/" +:+ ".notmuch") = inl errno →
  ∃ line, notmuch_database_open path_ sys = (None, sys_fprintf line sys).
Proof. intros Hst. unfold notmuch_database_open. rewrite Hst. eauto. Qed.

Lemma open_stores_path `{LibC} (path_ : string) (sys sys' : System)
    (notmuch : notmuch_database_t) :
  notmuch_database_open path_ sys = (Some notmuch, sys') →
  notmuch_database_get_path notmuch = path_.
Proof.
  unfold notmuch_database_open. intros Hopen.
  destruct (stat sys _); [done|].
  destruct (xapian_open sys _); by simplify_eq.
Qed.

(** When the index cannot be opened, [notmuch_database_open] prints the
    diagnostic of the exception and then returns the handle all the same,
    its [xapian_db] never assigned. *)
Lemma open_backend_failure `{LibC} (path_ : string) (sys : System)
    (is_dir : bool) (msg : string) :
  stat sys (path_ +:+ "/" +:+ ".notmuch") = inr is_dir →
  xapian_open sys ((path_ +:+ "/" +:+ ".notmuch") +:+ "/" +:+ "xapian") = inl msg →
  notmuch_database_open path_ sys =
    (Some {| path := path_; handle_db := None |},
     sys_fprintf ("A Xapian exception occurred: " +:+ msg +:+ nl) sys).
Proof.
  intros Hst Hx. unfold notmuch_database_open. rewrite Hst.
  cbv zeta. by rewrite Hx.
Qed.

(** C8, at the failing input.  In a system where /mail is a directory and
    the index under /mail/.notmuch/xapian cannot be opened, creating the
    database writes the diagnostic but returns a handle that is not null,
    with no database behind it. *)
Theorem create_backend_failure_returns_handle :
  @notmuch_database_create Scenario.libc "/mail" Scenario.broken_index
  = (Some {| path := "/mail"; handle_db := None |},
     sys_fprintf ("A Xapian exception occurred: Unable to get write lock" +:+ nl)
       (sys_made_dir "/mail/.notmuch" Scenario.broken_index)).
Proof. reflexivity. Qed.

(** ** Reasoning about computations *)

Lemma post_ret {A : Type} (a : A) (s : State)
    (Q : A → State → Prop) (E : State → Prop) :
  Q a s → post (mret a) s Q E.
Proof. done. Qed.

Lemma post_bind {A B : Type} (m : M A) (f : A → M B) (s : State)
    (Q : B → State → Prop) (E : State → Prop) :
  post m s (λ a s', post (f a) s' Q E) E → post (m ≫= f) s Q E.
Proof.
  unfold post.
  change ((m ≫= f) s) with
    (match m s with
     | (Ok a, s') => f a s'
     | (Throw msg, s') => (Throw msg, s')
     end).
  by destruct (m s) as [[a|msg] s'].
Qed.

Lemma post_mono {A : Type} (m : M A) (s : State)
    (Q Q' : A → State → Prop) (E E' : State → Prop) :
  post m s Q E → (∀ a s', Q a s' → Q' a s') → (∀ s', E s' → E' s') →
  post m s Q' E'.
Proof.
  unfold post. destruct (m s) as [[a|msg] s']; eauto.
Qed.

Lemma post_elim_ok {A : Type} (m : M A) (s s' : State) (a : A)
    (Q : A → State → Prop) (E : State → Prop) :
  post m s Q E → m s = (Ok a, s') → Q a s'.
Proof. unfold post. intros Hp Hm. by rewrite Hm in Hp. Qed.

Lemma read_only_refl (s : State) : read_only s s.
Proof. by destruct s. Qed.

Lemma read_only_trans (s1 s2 s3 : State) :
  read_only s1 s2 → read_only s2 s3 → read_only s1 s3.
Proof. unfold read_only. intros -> ->. by destruct s1. Qed.

Lemma read_only_with_faults (s : State) (fl : list (option string)) :
  read_only s (with_faults s fl).
Proof. by destruct s. Qed.

Lemma read_only_db (s s' : State) : read_only s s' → xapian_db s' = xapian_db s.
Proof. by intros ->. Qed.

(** A call that only reads the database. *)
Lemma post_xapian_read {A : Type} (f : list Document → result A) (s : State) :
  post (xapian_read f) s
       (λ a s', read_only s s' ∧ f (xapian_db s) = Ok a)
       (λ s', read_only s s').
Proof.
  unfold post, xapian_read, xapian_call.
  destruct (xapian_faults s) as [|[msg|] fl] eqn:Hfl; simpl.
  - destruct (f (xapian_db s)); auto using read_only_refl.
  - apply read_only_with_faults.
  - destruct (f (xapian_db s)); auto using read_only_with_faults.
Qed.

(** A loop whose body only reads the database computes a fold. *)
Lemma post_for_each_fold {A S : Type} (body : S → A → M S) (g : S → A → S)
    (s : State) (l : list A) :
  (∀ acc x s1, read_only s s1 →
     post (body acc x) s1 (λ acc' s', read_only s1 s' ∧ acc' = g acc x)
          (λ s', read_only s1 s')) →
  ∀ acc s1, read_only s s1 →
    post (for_each l acc body) s1
         (λ acc' s', read_only s1 s' ∧ acc' = fold_left g l acc)
         (λ s', read_only s1 s').
Proof.
  intros Hbody. induction l as [|x l IH]; intros acc s1 Hs1.
  - apply post_ret. split; [apply read_only_refl|done].
  - simpl. apply post_bind.
    eapply post_mono; [apply Hbody, Hs1| |done].
    intros acc' s2 [Hs2 ->].
    eapply post_mono; [apply IH; by eapply read_only_trans| |].
    + intros acc'' s3 [Hs3 ->]. split; [by eapply read_only_trans|done].
    + intros s3 Hs3. by eapply read_only_trans.
Qed.

(** ** The thread-id generator *)

Lemma hex_digit_lower (x : Z) : is_hex_lower (hex_digit (Z.land x 15)) = true.
Proof.
  assert (0 ≤ Z.land x 15 < 16)%Z as Hr.
  { change 15%Z with (Z.ones 4). rewrite Z.land_ones by lia.
    apply Z.mod_pos_bound. lia. }
  unfold hex_digit.
  assert (Z.to_nat (Z.land x 15) < 16) as Hn by lia.
  destruct (Z.to_nat (Z.land x 15)) as [|n]; [done|].
  do 15 (destruct n as [|n]; [done|]). lia.
Qed.

Lemma sprintf_08x_digits (value : Z) :
  String.length (sprintf_08x value) = 8
  ∧ forallb is_hex_lower (list_ascii_of_string (sprintf_08x value)) = true.
Proof.
  unfold sprintf_08x. rewrite list_ascii_of_string_of_list_ascii.
  split; [done|]. apply forallb_forall.
  intros c (i & <- & _)%in_map_iff. apply hex_digit_lower.
Qed.

Lemma generate_digits_spec `{LibC} (n : nat) (str : string) (s : State) :
  ∃ digits s',
    generate_digits n str s = (Ok (str +:+ digits), s')
    ∧ String.length digits = 8 * n
    ∧ forallb is_hex_lower (list_ascii_of_string digits) = true
    ∧ xapian_db s' = xapian_db s
    ∧ xapian_faults s' = xapian_faults s
    ∧ stderr s' = stderr s.
Proof.
  revert str s. induction n as [|n IH]; intros str s.
  - exists "", s. by rewrite append_nil_r.
  - simpl. unfold mbind, M_bind, rand at 1.
    destruct (IH (str +:+ sprintf_08x (to_uint32 (rand_stream (rand_seed s) (rand_count s))))
                 (with_rand s (seeded s) (rand_seed s) (S (rand_count s))))
      as (digits & s' & Hrun & Hlen & Hhex & Hdb & Hfl & Herr).
    destruct (sprintf_08x_digits (to_uint32 (rand_stream (rand_seed s) (rand_count s))))
      as [Hlen8 Hhex8].
    eexists (_ +:+ digits), s'. rewrite Hrun, append_assoc. split_and!; try done.
    + rewrite length_append, Hlen8, Hlen. lia.
    + rewrite chars_append, forallb_app, Hhex8, Hhex. done.
Qed.

Lemma thread_id_generate_spec `{LibC} (env : Env) (s : State) :
  ∃ thread_id s',
    thread_id_generate env s = (Ok thread_id, s')
    ∧ is_thread_id thread_id = true
    ∧ xapian_db s' = xapian_db s
    ∧ xapian_faults s' = xapian_faults s
    ∧ stderr s' = stderr s.
Proof.
  unfold thread_id_generate.
  assert (∀ s0, ∃ thread_id s',
            generate_digits (NOTMUCH_THREAD_ID_DIGITS / 8) "" s0 = (Ok thread_id, s')
            ∧ is_thread_id thread_id = true
            ∧ xapian_db s' = xapian_db s0
            ∧ xapian_faults s' = xapian_faults s0
            ∧ stderr s' = stderr s0) as Hgen.
  { intros s0.
    destruct (generate_digits_spec (NOTMUCH_THREAD_ID_DIGITS / 8) "" s0)
      as (digits & s' & Hrun & Hlen & Hhex & Hrest).
    exists digits, s'. rewrite append_nil_l in Hrun. split; [done|]. split; [|done].
    unfold is_thread_id. rewrite Hlen, Hhex. done. }
  destruct (seeded s).
  - apply (Hgen s).
  - destruct (dev_random env) as [value|].
    + apply (Hgen (with_rand (with_rand s (seeded s) (to_uint32 value) 0) true
                             (to_uint32 value) 0)).
    + apply (Hgen (with_rand (with_rand s (seeded s) (to_uint32 (time_now env)) 0) true
                             (to_uint32 (time_now env)) 0)).
Qed.

Lemma thread_id_no_comma (thread_id : string) :
  is_thread_id thread_id = true →
  ","%char ∉ list_ascii_of_string thread_id.
Proof.
  unfold is_thread_id. intros [_ Hhex]%andb_prop Hin.
  rewrite forallb_forall in Hhex.
  apply list_elem_of_In, Hhex in Hin. discriminate.
Qed.

(** ** Splitting and joining thread ids *)

Lemma substring_all (n : nat) (s : string) :
  advance n s = "" → String.substring 0 n s = s.
Proof.
  revert n. induction s as [|c r IH]; intros [|n] Hadv; try done.
  simpl in *. by rewrite IH.
Qed.

Lemma advance_length (n : nat) (s : string) :
  String.length (advance n s) ≤ String.length s.
Proof.
  revert n. induction s as [|c r IH]; intros [|n]; simpl; try lia.
  specialize (IH n). lia.
Qed.

Lemma fragments_from_split (cur s : string) :
  fragments_from cur s =
    match advance (comma_offset s) s with
    | EmptyString => match cur +:+ s with EmptyString => [] | w => [w] end
    | String _ rest =>
        (cur +:+ String.substring 0 (comma_offset s) s) :: fragments rest
    end.
Proof.
  revert cur. induction s as [|c r IH]; intros cur.
  - simpl. rewrite append_nil_r. by destruct cur.
  - simpl. destruct (Ascii.eqb c ",") eqn:Hc.
    + simpl. by rewrite append_nil_r.
    + rewrite IH. simpl.
      replace ((cur +:+ String c "") +:+ r) with (cur +:+ String c r)
        by (by rewrite append_assoc).
      destruct (advance (comma_offset r) r); [done|].
      by rewrite append_assoc.
Qed.

(** The [while] loop inserts the fragments of the value, and
    [String.length value] rounds are enough for it. *)
Lemma insert_thread_id_loop_fragments `{GHashTable} (fuel : nat)
    (thread_ids : ghash_t) (id : string) :
  String.length id ≤ fuel →
  insert_thread_id_loop fuel thread_ids id
  = fold_left g_hash_table_insert (fragments id) thread_ids.
Proof.
  revert thread_ids id. induction fuel as [|fuel IH]; intros thread_ids id Hlen.
  - destruct id; [done|simpl in Hlen; lia].
  - destruct id as [|c r]; [done|].
    cbn [insert_thread_id_loop]. unfold fragments at 1.
    rewrite fragments_from_split, append_nil_l.
    pose proof (advance_length (comma_offset (String c r)) (String c r)) as Hadv.
    destruct (advance (comma_offset (String c r)) (String c r)) as [|c' rest] eqn:Hrest.
    + rewrite (substring_all _ _ Hrest). by destruct fuel.
    + rewrite append_nil_l. cbn [fold_left]. apply IH.
      simpl in Hadv, Hlen |- *. lia.
Qed.

Lemma insert_thread_id_fragments `{GHashTable} (thread_ids : ghash_t) (doc : Document) :
  insert_thread_id thread_ids doc
  = fold_left g_hash_table_insert (thread_ids_of doc) thread_ids.
Proof.
  unfold insert_thread_id, thread_ids_of.
  destruct (get_value doc NOTMUCH_VALUE_THREAD) as [|c r] eqn:Hv; [done|].
  cbn [String.length Nat.eqb]. by apply insert_thread_id_loop_fragments.
Qed.

Lemma fragments_from_no_comma (cur id s : string) :
  ","%char ∉ list_ascii_of_string id →
  fragments_from cur (id +:+ s) = fragments_from (cur +:+ id) s.
Proof.
  revert cur. induction id as [|c r IH]; intros cur Hno.
  - by rewrite append_nil_l, append_nil_r.
  - rewrite append_cons. simpl in Hno |- *.
    destruct (Ascii.eqb_spec c ",") as [->|Hc].
    + exfalso. apply Hno. left.
    + rewrite IH by (intros Hin; apply Hno; by right).
      by rewrite append_assoc.
Qed.

Lemma thread_id_plain (id : string) : is_thread_id id = true → plain_id id.
Proof.
  intros Hid. split; [by intros ->|by apply thread_id_no_comma].
Qed.

Lemma fold_join_app (ids : list string) (acc s : string) :
  fold_left (λ acc id', acc +:+ "," +:+ id') ids acc +:+ s
  = acc +:+ fold_left (λ acc id', acc +:+ "," +:+ id') ids "" +:+ s.
Proof.
  revert acc s. induction ids as [|id ids IH]; intros acc s; simpl.
  - done.
  - rewrite (IH (acc +:+ "," +:+ id)), (IH ("" +:+ "," +:+ id)).
    by rewrite !append_assoc.
Qed.

Lemma fold_join_nil (ids : list string) (acc : string) :
  fold_left (λ acc id', acc +:+ "," +:+ id') ids acc
  = acc +:+ fold_left (λ acc id', acc +:+ "," +:+ id') ids "".
Proof.
  pose proof (fold_join_app ids acc "") as Happ.
  by rewrite !append_nil_r in Happ.
Qed.

Lemma fragments_tail (ids : list string) (cur : string) :
  cur ≠ "" → Forall plain_id ids →
  fragments_from cur (fold_left (λ acc id', acc +:+ "," +:+ id') ids "")
  = cur :: ids.
Proof.
  revert cur. induction ids as [|id ids IH]; intros cur Hcur Hids.
  - simpl. by destruct cur.
  - apply Forall_cons in Hids as [[Hne Hno] Hids].
    cbn [fold_left].
    rewrite fold_join_nil, append_nil_l, append_cons, append_nil_l, append_cons.
    cbn [fragments_from Ascii.eqb Bool.eqb]. f_equal.
    rewrite fragments_from_no_comma by done.
    rewrite append_nil_l. by apply IH.
Qed.

(** Splitting undoes joining. *)
Lemma fragments_join_ids (ids : list string) :
  Forall plain_id ids → fragments (join_ids ids) = ids.
Proof.
  destruct ids as [|id ids]; [done|].
  intros [[Hne Hno] Hids]%Forall_cons.
  unfold fragments, join_ids. rewrite fold_join_nil.
  rewrite fragments_from_no_comma by done.
  rewrite append_nil_l. by apply fragments_tail.
Qed.

Lemma join_ids_nonempty (ids : list string) :
  ids ≠ [] → Forall plain_id ids → join_ids ids ≠ "".
Proof.
  intros Hne Hids Hjoin.
  apply fragments_join_ids in Hids. rewrite Hjoin in Hids. by subst.
Qed.

(** ** Posting lists *)

Lemma postlist_from_fold {S : Type} (F : S → Document → S) (term : string)
    (pre db : list Document) (acc : S) :
  fold_left (λ acc docid, F acc (default empty_document ((pre ++ db) !! pred docid)))
            (postlist_from (Datatypes.S (length pre)) db term) acc
  = fold_left F (filter (λ d, carries term d = true) db) acc.
Proof.
  revert pre acc. induction db as [|d db IH]; intros pre acc; [done|].
  specialize (IH (pre ++ [d])).
  rewrite length_app, Nat.add_1_r in IH.
  cbn [postlist_from]. rewrite filter_cons.
  destruct (carries term d) eqn:Hd.
  - rewrite decide_True by done. cbn [fold_left pred].
    rewrite list_lookup_middle by done. cbn [default].
    rewrite <- IH. by rewrite <- app_assoc.
  - rewrite decide_False by done.
    rewrite <- IH. by rewrite <- app_assoc.
Qed.

Lemma postlist_fold {S : Type} (F : S → Document → S) (term : string)
    (db : list Document) (acc : S) :
  fold_left (λ acc docid, F acc (default empty_document (db !! pred docid)))
            (postlist db term) acc
  = fold_left F (filter (λ d, carries term d = true) db) acc.
Proof. apply (postlist_from_fold F term [] db acc). Qed.

Lemma postlist_from_first (term : string) (pre db : list Document) :
  match postlist_from (S (length pre)) db term with
  | docid :: _ =>
      ∃ i, docid = S i ∧ (pre ++ db) !! i = List.find (carries term) db
           ∧ is_Some (List.find (carries term) db)
  | [] => List.find (carries term) db = None
  end.
Proof.
  revert pre. induction db as [|d db IH]; intros pre; [done|].
  specialize (IH (pre ++ [d])).
  rewrite length_app, Nat.add_1_r, <- app_assoc in IH.
  cbn [postlist_from List.find]. destruct (carries term d) eqn:Hd.
  - exists (length pre). by rewrite list_lookup_middle.
  - exact IH.
Qed.

Lemma postlist_first (term : string) (db : list Document) :
  match postlist db term with
  | docid :: _ =>
      ∃ i, docid = S i ∧ db !! i = first_carrier db term
           ∧ is_Some (first_carrier db term)
  | [] => first_carrier db term = None
  end.
Proof. apply (postlist_from_first term [] db). Qed.

(** ** The thread resolver *)

Lemma post_get_document (docid : nat) (s : State) :
  post (get_document docid) s
       (λ d s', read_only s s' ∧ d = default empty_document (xapian_db s !! pred docid))
       (λ s', read_only s s').
Proof.
  eapply post_mono; [apply post_xapian_read| |done].
  intros d s' [Hro Hd]. split; [done|].
  destruct docid as [|i]; [done|]. simpl.
  by destruct (xapian_db s !! i); simplify_eq.
Qed.

Lemma post_find_message_by_message_id (parent : string) (s : State) :
  post (find_message_by_message_id (Some parent)) s
       (λ d s', read_only s s'
                ∧ d = default empty_document
                        (first_carrier (xapian_db s) (find_prefix "msgid" +:+ parent)))
       (λ s', read_only s s').
Proof.
  unfold find_message_by_message_id. apply post_bind.
  eapply post_mono; [apply post_xapian_read| |done].
  intros i s1 [Hs1 Hi]. simplify_eq. cbn [printf_s].
  pose proof (postlist_first (find_prefix "msgid" +:+ parent) (xapian_db s)) as Hfirst.
  destruct (postlist (xapian_db s) (find_prefix "msgid" +:+ parent)) as [|docid rest].
  - apply post_ret. rewrite Hfirst. split; [done|done].
  - destruct Hfirst as (i & -> & Hlook & _).
    eapply post_mono; [apply post_get_document| |].
    + intros d s2 [Hs2 ->]. split; [by eapply read_only_trans|].
      by rewrite (read_only_db _ _ Hs1), <- Hlook.
    + intros s2 Hs2. by eapply read_only_trans.
Qed.

Lemma fold_left_pointwise {A B : Type} (f g : A → B → A) (l : list B) (a : A) :
  (∀ a x, f a x = g a x) → fold_left f l a = fold_left g l a.
Proof.
  intros Hfg. revert a. induction l as [|x l IH]; intros a; [done|].
  simpl. by rewrite Hfg, IH.
Qed.

Lemma table_of_app `{GHashTable} (l1 l2 : list string) :
  table_of (l1 ++ l2) = fold_left g_hash_table_insert l2 (table_of l1).
Proof. unfold table_of. by rewrite fold_left_app. Qed.

Lemma fold_insert_flat_map `{GHashTable} {A : Type} (h : A → list string)
    (l : list A) (t : ghash_t) :
  fold_left (λ acc x, fold_left g_hash_table_insert (h x) acc) l t
  = fold_left g_hash_table_insert (flat_map h l) t.
Proof.
  revert t. induction l as [|x l IH]; intros t; [done|].
  simpl. by rewrite fold_left_app, IH.
Qed.

(** The resolver returns the keys of the table that holds the ids of
    [discovery]; it only reads the database. *)
Lemma find_thread_ids_post `{GHashTable} (parents : list string)
    (message_id : option string) (s : State) :
  post (find_thread_ids parents message_id) s
       (λ r s', read_only s s'
                ∧ r = g_hash_table_get_keys
                        (table_of (discovery (xapian_db s) parents message_id)))
       (λ s', read_only s s').
Proof.
  unfold find_thread_ids. apply post_bind.
  eapply post_mono; [apply post_xapian_read| |done].
  intros children s1 [Hs1 Hch]. simplify_eq.
  apply post_bind.
  eapply post_mono;
    [apply (post_for_each_fold _
              (λ acc child, insert_thread_id acc
                 (default empty_document (xapian_db s !! pred child))) s);
       [|exact Hs1]| |].
  - intros acc child s2 Hs2. apply post_bind.
    eapply post_mono; [apply post_get_document| |done].
    intros d s3 [Hs3 ->]. apply post_ret. split; [done|].
    by rewrite (read_only_db _ _ Hs2).
  - intros t1 s2 [Hs2 ->]. apply post_bind.
    eapply post_mono;
      [apply (post_for_each_fold _
                (λ acc parent, insert_thread_id acc
                   (default empty_document
                      (first_carrier (xapian_db s) (find_prefix "msgid" +:+ parent)))) s);
         [|by eapply read_only_trans]| |].
    + intros acc parent s3 Hs3. apply post_bind.
      eapply post_mono; [apply post_find_message_by_message_id| |done].
      intros d s4 [Hs4 ->]. apply post_ret. split; [done|].
      by rewrite (read_only_db _ _ Hs3).
    + intros t2 s3 [Hs3 ->]. apply post_ret.
      split; [eauto using read_only_trans|]. f_equal.
      unfold discovery. rewrite table_of_app.
      rewrite (postlist_fold insert_thread_id).
      rewrite <- fold_insert_flat_map. unfold table_of.
      rewrite <- (fold_insert_flat_map thread_ids_of).
      rewrite <- (fold_left_pointwise insert_thread_id _ _ _
                    insert_thread_id_fragments).
      apply fold_left_pointwise. intros acc parent.
      rewrite insert_thread_id_fragments.
      by destruct (first_carrier _ _).
    + intros s3 Hs3. eauto using read_only_trans.
  - intros s2 Hs2. eauto using read_only_trans.
Qed.

(** ** What a call commits *)

Lemma thread_ids_loop_spec (ids : list string) (i : nat) (doc : Document)
    (thread_id : string) :
  thread_ids_loop i ids doc thread_id
  = (fold_left (λ doc id, add_term doc "thread" (Some id)) ids doc,
     match ids with
     | [] => thread_id
     | id :: rest =>
         fold_left (λ acc id', acc +:+ "," +:+ id') rest
                   (if i =? 0 then id else thread_id +:+ "," +:+ id)
     end).
Proof.
  revert i doc thread_id. induction ids as [|id ids IH]; intros i doc thread_id.
  - done.
  - cbn [thread_ids_loop fold_left]. rewrite IH. f_equal.
    by destruct ids.
Qed.

Lemma generate_digits_faults `{LibC} (n : nat) (str : string) (s : State)
    (fl : list (option string)) :
  generate_digits n str (with_faults s fl)
  = (fst (generate_digits n str s), with_faults (snd (generate_digits n str s)) fl).
Proof.
  revert str s. induction n as [|n IH]; intros str s; [done|].
  cbn [generate_digits].
  change ((rand ≫= λ value, generate_digits n (str +:+ sprintf_08x (to_uint32 value)))
            (with_faults s fl))
    with (generate_digits n
            (str +:+ sprintf_08x (to_uint32 (rand_stream (rand_seed s) (rand_count s))))
            (with_faults (with_rand s (seeded s) (rand_seed s) (S (rand_count s))) fl)).
  by rewrite IH.
Qed.

Lemma thread_id_generate_faults `{LibC} (env : Env) (s : State)
    (fl : list (option string)) :
  fst (thread_id_generate env (with_faults s fl)) = fst (thread_id_generate env s).
Proof.
  unfold thread_id_generate. cbn [seeded with_faults].
  destruct (seeded s).
  - change ((mret () ≫= λ _, generate_digits (NOTMUCH_THREAD_ID_DIGITS / 8) "")
              (with_faults s fl))
      with (generate_digits (NOTMUCH_THREAD_ID_DIGITS / 8) "" (with_faults s fl)).
    by rewrite generate_digits_faults.
  - destruct (dev_random env) as [value|].
    + change (fst (generate_digits (NOTMUCH_THREAD_ID_DIGITS / 8) ""
                (with_faults (with_rand s true (to_uint32 value) 0) fl))
              = fst (generate_digits (NOTMUCH_THREAD_ID_DIGITS / 8) ""
                       (with_rand s true (to_uint32 value) 0))).
      by rewrite generate_digits_faults.
    + change (fst (generate_digits (NOTMUCH_THREAD_ID_DIGITS / 8) ""
                (with_faults (with_rand s true (to_uint32 (time_now env)) 0) fl))
              = fst (generate_digits (NOTMUCH_THREAD_ID_DIGITS / 8) ""
                       (with_rand s true (to_uint32 (time_now env)) 0))).
      by rewrite generate_digits_faults.
Qed.

Lemma minted_read_only `{LibC} (env : Env) (s s' : State) :
  read_only s s' → minted env s' = minted env s.
Proof.
  intros ->. unfold minted.
  pose proof (thread_id_generate_faults env s (xapian_faults s')) as Hfst.
  destruct (thread_id_generate env (with_faults s (xapian_faults s'))) as [r1 s1].
  destruct (thread_id_generate env s) as [r2 s2].
  simpl in Hfst. by subst.
Qed.

Lemma minted_is_thread_id `{LibC} (env : Env) (s : State) :
  is_thread_id (minted env s) = true.
Proof.
  unfold minted.
  destruct (thread_id_generate_spec env s) as (tid & s' & -> & Hid & _). done.
Qed.

Lemma post_thread_id_generate `{LibC} (env : Env) (s : State) :
  post (thread_id_generate env) s
       (λ thread_id s', thread_id = minted env s ∧ xapian_db s' = xapian_db s)
       (λ _, False).
Proof.
  unfold post, minted.
  destruct (thread_id_generate_spec env s) as (tid & s' & -> & _ & Hdb & _). done.
Qed.

Lemma post_add_document (doc : Document) (s : State) :
  post (add_document doc) s
       (λ _ s', xapian_db s' = xapian_db s ++ [doc])
       (λ s', xapian_db s' = xapian_db s).
Proof.
  unfold post, add_document, xapian_call.
  by destruct (xapian_faults s) as [|[msg|] fl].
Qed.

(** The [try] block either commits exactly the document [document_for] as
    the last one of the index, or throws and leaves the index as it was. *)
Lemma add_message_try_post `{GHashTable, LibC, Parsers} (env : Env)
    (filename : string) (message : GMimeMessage) (s : State) :
  post (add_message_try env filename message) s
       (λ _ s', xapian_db s' = xapian_db s ++ [document_for env filename message s])
       (λ s', xapian_db s' = xapian_db s).
Proof.
  unfold add_message_try. cbv zeta. apply post_bind.
  eapply post_mono; [apply find_thread_ids_post| |apply read_only_db].
  intros ks s1 [Hs1 Hks].
  assert (∀ doc : Document,
    doc = document_for env filename message s →
    post (add_document doc;; mret ()) s1
      (λ _ s', xapian_db s' = xapian_db s ++ [document_for env filename message s])
      (λ s', xapian_db s' = xapian_db s)) as Hcommit.
  { intros doc ->. apply post_bind.
    eapply post_mono; [apply post_add_document| |].
    - intros u s2 Hs2. apply post_ret. by rewrite Hs2, (read_only_db _ _ Hs1).
    - intros s2 Hs2. by rewrite Hs2, (read_only_db _ _ Hs1). }
  apply post_bind.
  destruct ks as [|k ks].
  - cbn [length Nat.eqb negb].
    destruct (message_id_of message) as [id|] eqn:Hmid.
    + apply post_bind.
      eapply post_mono; [apply post_thread_id_generate| |done].
      intros tid s2 [Htid Hs2]. subst tid. apply post_ret.
      assert (post (add_document
                (add_value
                   (add_value
                      (add_term
                         (add_value
                            (add_term
                               (fold_left (λ doc parent, add_term doc "ref" (Some parent))
                                  (parents_of message) (set_data empty_document filename))
                               "msgid" (Some id)) NOTMUCH_VALUE_MESSAGE_ID id)
                         "thread" (Some (minted env s1)))
                      NOTMUCH_VALUE_THREAD (minted env s1))
                   NOTMUCH_VALUE_DATE (sortable_serialise (date_of message)));;
              mret ()) s2
          (λ _ s', xapian_db s' = xapian_db s ++ [document_for env filename message s])
          (λ s', xapian_db s' = xapian_db s)) as Hgoal; [|exact Hgoal].
      apply post_bind.
      eapply post_mono; [apply post_add_document| |].
      * intros u s3 Hs3. apply post_ret.
        rewrite Hs3, Hs2, (read_only_db _ _ Hs1). do 2 f_equal.
        unfold document_for, thread_set, parents_of. rewrite Hmid, <- Hks.
        by rewrite (minted_read_only env s s1 Hs1).
      * intros s3 Hs3. by rewrite Hs3, Hs2, (read_only_db _ _ Hs1).
    + apply post_ret. apply Hcommit.
      unfold document_for, thread_set, parents_of. by rewrite Hmid, <- Hks.
  - cbn [length Nat.eqb negb].
    rewrite thread_ids_loop_spec. cbn [Nat.eqb]. apply post_ret.
    apply Hcommit.
    unfold document_for, thread_set, parents_of. rewrite <- Hks.
    by destruct (message_id_of message).
Qed.

(** ** The committed document *)

Lemma has_term_fold_add_term (field : string) (l : list string) (doc : Document)
    (t : string) :
  has_term (fold_left (λ doc v, add_term doc field (Some v)) l doc) t ↔
  has_term doc t ∨
  ∃ v, v ∈ l ∧ t = find_prefix field +:+ v ∧ String.length t ≤ NOTMUCH_MAX_TERM.
Proof.
  revert doc. induction l as [|v l IH]; intros doc.
  - simpl. split; [by left|]. intros [?|(v & Hin & _)]; [done|].
    by apply elem_of_nil in Hin.
  - cbn [fold_left]. rewrite IH, has_term_add_term. split.
    + intros [[?|[-> ?]]|(v' & Hin & Ht)]; [by left| |].
      * right. exists v. split; [left|done].
      * right. exists v'. split; [by right|done].
    + intros [?|(v' & Hin & Ht)]; [by left; left|].
      apply elem_of_cons in Hin as [->|Hin]; [left; by right|].
      right. by exists v'.
Qed.

Lemma values_fold_add_term (field : string) (l : list string) (doc : Document) :
  doc_values (fold_left (λ doc v, add_term doc field (Some v)) l doc) = doc_values doc.
Proof.
  revert doc. induction l as [|v l IH]; intros doc; [done|].
  cbn [fold_left]. by rewrite IH, add_term_values.
Qed.

Lemma has_term_add_value (doc : Document) (slot : nat) (v t : string) :
  has_term (add_value doc slot v) t ↔ has_term doc t.
Proof. done. Qed.

Lemma lookup_add_value_eq (doc : Document) (slot : nat) (v : string) :
  doc_values (add_value doc slot v) !! slot = Some v.
Proof. apply lookup_insert_eq. Qed.

Lemma lookup_add_value_ne (doc : Document) (slot slot' : nat) (v : string) :
  slot ≠ slot' → doc_values (add_value doc slot v) !! slot' = doc_values doc !! slot'.
Proof. intros Hne. by apply lookup_insert_ne. Qed.

Section Committed.
Context {HT : GHashTable} {LC : LibC} {PS : Parsers}.
Variables (env : Env) (filename : string) (message : GMimeMessage) (s : State).

Let doc := document_for env filename message s.
Let ids := thread_set env s (parents_of message) (message_id_of message).

Lemma document_for_terms (t : string) :
  has_term doc t ↔
    (∃ p, p ∈ parents_of message ∧ t = find_prefix "ref" +:+ p
          ∧ String.length t ≤ NOTMUCH_MAX_TERM)
    ∨ (∃ id, message_id_of message = Some id ∧ t = find_prefix "msgid" +:+ id
             ∧ String.length t ≤ NOTMUCH_MAX_TERM)
    ∨ (∃ id, id ∈ ids ∧ t = find_prefix "thread" +:+ id
             ∧ String.length t ≤ NOTMUCH_MAX_TERM).
Proof.
  subst doc ids. unfold document_for. rewrite has_term_add_value.
  set (d0 := fold_left _ (parents_of message) _).
  assert (has_term d0 t ↔
            ∃ p, p ∈ parents_of message ∧ t = find_prefix "ref" +:+ p
                 ∧ String.length t ≤ NOTMUCH_MAX_TERM) as Hd0.
  { subst d0. rewrite has_term_fold_add_term. split; [|by right].
    intros [Hemp|?]; [|done]. unfold has_term in Hemp. simpl in Hemp.
    rewrite lookup_empty in Hemp. by destruct Hemp. }
  set (d1 := match message_id_of message with Some _ => _ | None => d0 end).
  assert (has_term d1 t ↔
            has_term d0 t
            ∨ ∃ id, message_id_of message = Some id ∧ t = find_prefix "msgid" +:+ id
                    ∧ String.length t ≤ NOTMUCH_MAX_TERM) as Hd1.
  { subst d1. destruct (message_id_of message) as [id|].
    - rewrite has_term_add_value, has_term_add_term. split.
      + intros [?|?]; [by left|]. right. by exists id.
      + intros [?|(id' & ? & ?)]; [by left|]. simplify_eq. by right.
    - split; [by left|]. by intros [?|(id' & ? & ?)]. }
  destruct (thread_set env s (parents_of message) (message_id_of message))
    as [|id0 rest] eqn:Hset.
  - rewrite Hd1, Hd0. split.
    + intros [?|?]; [by left|by right; left].
    + intros [?|[?|(id & Hin & _)]]; [by left|by right|].
      by apply elem_of_nil in Hin.
  - rewrite has_term_add_value, has_term_fold_add_term, Hd1, Hd0. split.
    + intros [[?|?]|?]; [by left|by right; left|by right; right].
    + intros [?|[?|?]]; [by left; left|by left; right|by right].
Qed.

Lemma document_for_slot_thread :
  doc_values doc !! NOTMUCH_VALUE_THREAD
  = match ids with [] => None | _ => Some (join_ids ids) end.
Proof.
  subst doc ids. unfold document_for.
  rewrite lookup_add_value_ne by done.
  destruct (thread_set env s (parents_of message) (message_id_of message))
    as [|id0 rest].
  - destruct (message_id_of message).
    + rewrite lookup_add_value_ne by done.
      by rewrite add_term_values, values_fold_add_term.
    + by rewrite values_fold_add_term.
  - by rewrite lookup_add_value_eq.
Qed.

Lemma document_for_slot_message_id :
  doc_values doc !! NOTMUCH_VALUE_MESSAGE_ID = message_id_of message.
Proof.
  subst doc. unfold document_for.
  rewrite lookup_add_value_ne by done.
  set (d1 := match message_id_of message with Some _ => _ | None => _ end).
  assert (doc_values d1 !! NOTMUCH_VALUE_MESSAGE_ID = message_id_of message) as Hd1.
  { subst d1. destruct (message_id_of message).
    - by rewrite lookup_add_value_eq.
    - by rewrite values_fold_add_term. }
  destruct (thread_set env s (parents_of message) (message_id_of message)); [done|].
  rewrite lookup_add_value_ne by done. by rewrite values_fold_add_term.
Qed.

Lemma document_for_thread_ids :
  Forall plain_id ids → thread_ids_of doc = ids.
Proof.
  intros Hplain. unfold thread_ids_of, get_value.
  rewrite document_for_slot_thread.
  destruct ids as [|id0 rest] eqn:Hids; [done|].
  by apply fragments_join_ids.
Qed.

End Committed.

(** ** Terms by their prefix *)

Lemma ref_term (p : string) : find_prefix "ref" +:+ p = String "R" p.
Proof. reflexivity. Qed.
Lemma msgid_term (id : string) : find_prefix "msgid" +:+ id = String "Q" id.
Proof. reflexivity. Qed.
Lemma thread_term (id : string) : find_prefix "thread" +:+ id = String "H" id.
Proof. reflexivity. Qed.

Lemma thread_term_fits (id : string) :
  is_thread_id id = true →
  String.length (find_prefix "thread" +:+ id) ≤ NOTMUCH_MAX_TERM.
Proof.
  unfold is_thread_id. intros [Hlen%Nat.eqb_eq _]%andb_prop.
  rewrite thread_term. simpl. rewrite Hlen. unfold NOTMUCH_MAX_TERM. lia.
Qed.

Lemma carries_has_term (term : string) (d : Document) :
  carries term d = true ↔ has_term d term.
Proof. unfold carries, has_termb, has_term. apply bool_decide_eq_true. Qed.

Lemma first_carrier_at (db : list Document) (term : string) (j : nat) (B : Document) :
  db !! j = Some B → has_term B term →
  (∀ k d, k < j → db !! k = Some d → ¬ has_term d term) →
  first_carrier db term = Some B.
Proof.
  unfold first_carrier. revert j.
  induction db as [|d db IH]; intros j Hj HB Hfirst; [done|].
  destruct j as [|j]; simpl in *.
  - simplify_eq. apply carries_has_term in HB. by rewrite HB.
  - destruct (carries term d) eqn:Hd.
    + apply carries_has_term in Hd. by destruct (Hfirst 0 d ltac:(lia) eq_refl).
    + apply (IH j); [done..|]. intros k d' Hk Hd'.
      apply (Hfirst (S k) d'); [lia|done].
Qed.

Lemma first_carrier_elem (db : list Document) (term : string) (d : Document) :
  first_carrier db term = Some d → d ∈ db.
Proof.
  unfold first_carrier. intros [Hin _]%find_some. by apply list_elem_of_In.
Qed.

(** ** The thread ids of a message *)

Lemma elem_of_discovery (db : list Document) (parents : list string)
    (message_id : option string) (x : string) :
  x ∈ discovery db parents message_id ↔
    (∃ d, d ∈ db ∧ has_term d (find_prefix "ref" +:+ printf_s message_id)
          ∧ x ∈ thread_ids_of d)
    ∨ (∃ parent d, parent ∈ parents
          ∧ first_carrier db (find_prefix "msgid" +:+ parent) = Some d
          ∧ x ∈ thread_ids_of d).
Proof.
  unfold discovery. rewrite elem_of_app, !list_elem_of_In, !in_flat_map.
  split; (intros [Hl|Hr]; [left|right]).
  - destruct Hl as (d & Hd & Hx). exists d.
    apply list_elem_of_In, list_elem_of_filter in Hd as [Hc Hd].
    rewrite <- list_elem_of_In in Hx. by rewrite <- carries_has_term.
  - destruct Hr as (parent & Hp & Hx). exists parent.
    destruct (first_carrier db _) as [d|]; [|done].
    exists d. by rewrite !list_elem_of_In.
  - destruct Hl as (d & Hd & Hc & Hx). exists d.
    rewrite <- !list_elem_of_In, list_elem_of_filter.
    by rewrite carries_has_term.
  - destruct Hr as (parent & d & Hp & Hf & Hx). exists parent.
    rewrite Hf. by rewrite <- !list_elem_of_In.
Qed.

Section ThreadSet.
Context {HT : GHashTable} {HL : GHashTableLaws HT} {LC : LibC}.
Variables (env : Env) (s : State) (parents : list string)
          (message_id : option string).

Lemma thread_set_contains (x : string) :
  x ∈ discovery (xapian_db s) parents message_id →
  x ∈ thread_set env s parents message_id.
Proof.
  intros Hx. apply get_keys_elem in Hx. unfold thread_set.
  destruct (g_hash_table_get_keys _) as [|k ks]; [|by destruct message_id].
  by apply elem_of_nil in Hx.
Qed.

Lemma thread_set_elem (x : string) :
  x ∈ thread_set env s parents message_id →
  x ∈ discovery (xapian_db s) parents message_id ∨ x = minted env s.
Proof.
  unfold thread_set.
  destruct (g_hash_table_get_keys _) as [|k ks] eqn:Hkeys.
  - destruct message_id; [|by intros ?%elem_of_nil].
    intros ->%list_elem_of_singleton. by right.
  - intros Hx. left. apply get_keys_elem. rewrite Hkeys.
    by destruct message_id.
Qed.

Lemma thread_set_nonempty (id : string) :
  message_id = Some id → thread_set env s parents message_id ≠ [].
Proof.
  intros ->. unfold thread_set. by destruct (g_hash_table_get_keys _).
Qed.

Lemma thread_set_ok :
  Forall doc_ok (xapian_db s) →
  Forall (λ id, is_thread_id id = true) (thread_set env s parents message_id).
Proof.
  intros Hdb. apply Forall_forall. intros x [Hx| ->]%thread_set_elem.
  - rewrite Forall_forall in Hdb.
    apply elem_of_discovery in Hx as [(d & Hd & _ & Hx)|(p & d & _ & Hf & Hx)].
    + destruct (Hdb d Hd) as [Hids _]. rewrite Forall_forall in Hids. auto.
    + apply first_carrier_elem in Hf.
      destruct (Hdb d Hf) as [Hids _]. rewrite Forall_forall in Hids. auto.
  - apply minted_is_thread_id.
Qed.

End ThreadSet.

(** ** The index stays well formed *)

Lemma nonempty_elem {A : Type} (l : list A) : l ≠ [] → ∃ x, x ∈ l.
Proof. destruct l as [|x l]; [done|]. intros _. exists x. left. Qed.

Section Invariant.
Context {HT : GHashTable} {HL : GHashTableLaws HT} {LC : LibC} {PS : Parsers}.

Lemma document_for_ids (env : Env) (filename : string) (message : GMimeMessage)
    (s : State) :
  Forall doc_ok (xapian_db s) →
  thread_ids_of (document_for env filename message s)
  = thread_set env s (parents_of message) (message_id_of message).
Proof.
  intros Hdb. apply document_for_thread_ids.
  eapply Forall_impl; [by apply thread_set_ok|].
  intros id Hid. by apply thread_id_plain.
Qed.

Lemma document_for_ok (env : Env) (filename : string) (message : GMimeMessage)
    (s : State) :
  Forall doc_ok (xapian_db s) → doc_ok (document_for env filename message s).
Proof.
  intros Hdb. unfold doc_ok. rewrite document_for_ids by done. split_and!.
  - by apply thread_set_ok.
  - rewrite document_for_slot_thread. by destruct (thread_set _ _ _ _).
  - intros x [(p & _ & Hp & _)|[(id & Hid & _)|(id & _ & Hh & _)]]%document_for_terms.
    + by rewrite msgid_term, ref_term in Hp.
    + by eapply thread_set_nonempty.
    + by rewrite msgid_term, thread_term in Hh.
Qed.

Lemma index_ok_add (env : Env) (filename : string) (message : GMimeMessage)
    (s : State) :
  index_ok (xapian_db s) →
  index_ok (xapian_db s ++ [document_for env filename message s]).
Proof.
  intros [Hdb Hshare]. split.
  { apply Forall_app. split; [done|].
    apply Forall_singleton. by apply document_for_ok. }
  intros i j A B x (Hi & Hj & Hij & HA & HB & Hfirst) HAne.
  assert (∀ k d, k < j → xapian_db s !! k = Some d
                 → ¬ has_term d (find_prefix "msgid" +:+ x)) as Hfirst'.
  { intros k d Hk Hd. apply (Hfirst k d Hk). by apply lookup_app_l_Some. }
  apply lookup_app_Some in Hi as [Hi|[Hin Hi]];
    apply lookup_app_Some in Hj as [Hj|[Hjn Hj]].
  - by apply (Hshare i j A B x).
  - (* B is the new document, A refers to it from the index *)
    apply list_lookup_singleton_Some in Hj as [_ <-].
    apply document_for_terms in HB
      as [(p & _ & Hp & _)|[(id & Hid & Hq & _)|(id & _ & Hh & _)]].
    + by rewrite msgid_term, ref_term in Hp.
    + rewrite !msgid_term in Hq. simplify_eq.
      destruct (nonempty_elem _ HAne) as [tid Htid]. exists tid. split; [done|].
      rewrite document_for_ids by done. apply thread_set_contains.
      apply elem_of_discovery. left. exists A. rewrite Hid.
      split_and!; [|done..]. by eapply list_elem_of_lookup_2.
    + by rewrite msgid_term, thread_term in Hh.
  - (* A is the new document, B the first to claim its parent x *)
    apply list_lookup_singleton_Some in Hi as [_ <-].
    apply document_for_terms in HA
      as [(p & Hp & Hr & _)|[(id & _ & Hq & _)|(id & _ & Hh & _)]].
    + rewrite !ref_term in Hr. simplify_eq.
      assert (doc_ok B) as (_ & _ & HBne).
      { rewrite Forall_forall in Hdb. apply Hdb. by eapply list_elem_of_lookup_2. }
      destruct (nonempty_elem _ (HBne _ HB)) as [tid Htid]. exists tid.
      split; [|done].
      rewrite document_for_ids by done. apply thread_set_contains.
      apply elem_of_discovery. right. exists p, B. split_and!; [done| |done].
      by apply (first_carrier_at _ _ j).
    + by rewrite ref_term, msgid_term in Hq.
    + by rewrite ref_term, thread_term in Hh.
  - apply list_lookup_singleton_Some in Hi as [Hi _].
    apply list_lookup_singleton_Some in Hj as [Hj _]. lia.
Qed.

(** A call leaves the index as it was, or returns success having added
    the document [document_for] at its end. *)
Lemma add_message_db (env : Env) (filename : string) (s : State) :
  xapian_db (snd (notmuch_database_add_message env filename s)) = xapian_db s
  ∨ ∃ file,
      fopen env filename = inr file
      ∧ fst (notmuch_database_add_message env filename s)
        = Returned NOTMUCH_STATUS_SUCCESS
      ∧ xapian_db (snd (notmuch_database_add_message env filename s))
        = xapian_db s
          ++ [document_for env filename (g_mime_parser_construct_message file) s].
Proof.
  unfold notmuch_database_add_message.
  destruct (fopen env filename) as [errno|file]; [by left|].
  pose proof (add_message_try_post env filename
                (g_mime_parser_construct_message file) s) as Hpost.
  unfold post in Hpost.
  destruct (add_message_try env filename _ s) as [[u|msg] s'].
  - right. by exists file.
  - by left.
Qed.

Lemma reachable_index_ok (s : State) : reachable s → index_ok (xapian_db s).
Proof.
  induction 1 as [|s fl Hs IH|s env filename Hs IH].
  - split; [constructor|]. by intros i j A B x (Hi & _).
  - exact IH.
  - destruct (add_message_db env filename s) as [->|(file & _ & _ & ->)]; [done|].
    by apply index_ok_add.
Qed.

End Invariant.

(** ** When the index throws nothing *)

Lemma bind_ok {A B : Type} (m : M A) (f : A → M B) (s s' : State) (a : A) :
  m s = (Ok a, s') → (m ≫= f) s = f a s'.
Proof.
  intros Hm.
  change ((m ≫= f) s) with
    (match m s with
     | (Ok a, s') => f a s'
     | (Throw msg, s') => (Throw msg, s')
     end).
  by rewrite Hm.
Qed.

Lemma quiet_ret {A : Type} (a : A) (s : State) : quiet (mret a) s.
Proof. by exists a. Qed.

Lemma quiet_bind {A B : Type} (m : M A) (f : A → M B) (s : State) :
  quiet m s → (∀ a, m s = (Ok a, s) → quiet (f a) s) → quiet (m ≫= f) s.
Proof.
  intros [a Hm] Hf. destruct (Hf a Hm) as [b Hb].
  exists b. by rewrite (bind_ok _ _ _ _ _ Hm).
Qed.

Lemma quiet_for_each {A S : Type} (body : S → A → M S) (l : list A) (acc : S)
    (s : State) :
  (∀ acc x, x ∈ l → quiet (body acc x) s) → quiet (for_each l acc body) s.
Proof.
  revert acc. induction l as [|x l IH]; intros acc Hbody.
  - apply quiet_ret.
  - simpl. apply quiet_bind; [apply Hbody; left|].
    intros acc' _. apply IH. intros acc'' y Hy. apply Hbody. by right.
Qed.

Lemma xapian_read_quiet {A : Type} (f : list Document → result A) (s : State) :
  xapian_faults s = [] → xapian_read f s = (f (xapian_db s), s).
Proof. intros Hfl. unfold xapian_read, xapian_call. by rewrite Hfl. Qed.

Lemma postlist_from_valid (term : string) (pre db : list Document) (docid : nat) :
  docid ∈ postlist_from (S (length pre)) db term →
  ∃ i d, docid = S i ∧ (pre ++ db) !! i = Some d.
Proof.
  revert pre. induction db as [|d db IH]; intros pre Hin.
  - by apply elem_of_nil in Hin.
  - specialize (IH (pre ++ [d])).
    rewrite length_app, Nat.add_1_r, <- app_assoc in IH.
    cbn [postlist_from] in Hin. destruct (carries term d).
    + apply elem_of_cons in Hin as [->|Hin]; [|by apply IH].
      exists (length pre), d. by rewrite list_lookup_middle.
    + by apply IH.
Qed.

Lemma get_document_quiet (docid : nat) (term : string) (s : State) :
  xapian_faults s = [] → docid ∈ postlist (xapian_db s) term →
  quiet (get_document docid) s.
Proof.
  intros Hfl (i & d & -> & Hd)%(postlist_from_valid term []).
  exists d. unfold get_document. rewrite xapian_read_quiet by done.
  simpl in Hd. by rewrite Hd.
Qed.

Lemma find_message_by_message_id_quiet (parent : string) (s : State) :
  xapian_faults s = [] → quiet (find_message_by_message_id (Some parent)) s.
Proof.
  intros Hfl. unfold find_message_by_message_id. apply quiet_bind.
  - eexists. unfold find_messages_by_term, postlist_begin.
    by rewrite xapian_read_quiet.
  - intros i Hi. unfold find_messages_by_term, postlist_begin in Hi.
    rewrite xapian_read_quiet in Hi by done. simplify_eq.
    destruct (postlist _ _) as [|docid rest] eqn:Hpost; [apply quiet_ret|].
    apply (get_document_quiet _ (find_prefix "msgid" +:+ parent)); [done|].
    rewrite Hpost. left.
Qed.

(** With no fault pending the resolver returns, whatever the index holds. *)
Lemma find_thread_ids_quiet `{GHashTable} (parents : list string)
    (message_id : option string) (s : State) :
  xapian_faults s = [] →
  find_thread_ids parents message_id s
  = (Ok (g_hash_table_get_keys
           (table_of (discovery (xapian_db s) parents message_id))), s).
Proof.
  intros Hfl.
  assert (quiet (find_thread_ids parents message_id) s) as [r Hr].
  { unfold find_thread_ids. apply quiet_bind.
    - eexists. unfold find_messages_by_term, postlist_begin.
      by rewrite xapian_read_quiet.
    - intros children Hch. unfold find_messages_by_term, postlist_begin in Hch.
      rewrite xapian_read_quiet in Hch by done. simplify_eq.
      apply quiet_bind.
      + apply quiet_for_each. intros acc child Hchild. apply quiet_bind.
        * by eapply get_document_quiet.
        * intros d _. apply quiet_ret.
      + intros t1 _. apply quiet_bind.
        * apply quiet_for_each. intros acc parent _. apply quiet_bind.
          -- by apply find_message_by_message_id_quiet.
          -- intros d _. apply quiet_ret.
        * intros t2 _. apply quiet_ret. }
  rewrite Hr. f_equal. f_equal.
  by destruct (post_elim_ok _ _ _ _ _ _ (find_thread_ids_post parents message_id s) Hr).
Qed.

Lemma add_document_quiet (doc : Document) (s : State) :
  xapian_faults s = [] →
  add_document doc s = (Ok (S (length (xapian_db s))), with_db s (xapian_db s ++ [doc])).
Proof. intros Hfl. unfold add_document, xapian_call. by rewrite Hfl. Qed.

(** With no fault pending the [try] block commits its document. *)
Lemma add_message_try_quiet `{GHashTable, LibC, Parsers} (env : Env)
    (filename : string) (message : GMimeMessage) (s : State) :
  xapian_faults s = [] →
  ∃ s', add_message_try env filename message s = (Ok (), s')
        ∧ xapian_db s' = xapian_db s ++ [document_for env filename message s].
Proof.
  intros Hfl.
  assert (∃ s', add_message_try env filename message s = (Ok (), s')) as [s' Hrun].
  { unfold add_message_try. cbv zeta.
    rewrite (bind_ok _ _ _ _ _ (find_thread_ids_quiet _ _ s Hfl)).
    destruct (g_hash_table_get_keys _) as [|k ks].
    - cbn [length Nat.eqb negb]. destruct (message_id_of message) as [id|].
      + destruct (thread_id_generate_spec env s) as (tid & s2 & Hgen & _ & _ & Hfl2 & _).
        rewrite (bind_ok _ _ _ _ _ (bind_ok _ _ _ _ _ Hgen)).
        rewrite Hfl in Hfl2.
        eexists. rewrite (bind_ok _ _ _ _ _ (add_document_quiet _ s2 Hfl2)). done.
      + eexists.
        rewrite (bind_ok (mret _) _ s s _ eq_refl).
        rewrite (bind_ok _ _ _ _ _ (add_document_quiet _ s Hfl)). done.
    - cbn [length Nat.eqb negb]. rewrite thread_ids_loop_spec.
      eexists.
      rewrite (bind_ok (mret _) _ s s _ eq_refl).
      rewrite (bind_ok _ _ _ _ _ (add_document_quiet _ s Hfl)). done. }
  exists s'. split; [done|].
  exact (post_elim_ok _ _ _ _ _ _ (add_message_try_post env filename message s) Hrun).
Qed.

(** ** GLib's table keeps its promises *)

Module GLibFacts.
Import GLib.

Lemma tri_double (n : nat) : 2 * tri n = n * (n + 1).
Proof.
  unfold tri.
  assert (Nat.even (n * (n + 1)) = true) as Heven.
  { rewrite Nat.even_mul, Nat.even_add. simpl. by destruct (Nat.even n). }
  apply Nat.even_spec in Heven as [q Hq]. rewrite Hq.
  rewrite (Nat.mul_comm 2 q), Nat.div_mul by done. lia.
Qed.

Lemma tri_S (n : nat) : tri (S n) = tri n + S n.
Proof.
  pose proof (tri_double n). pose proof (tri_double (S n)). nia.
Qed.

Lemma odd_rel_prime_pow2 (n : nat) (b : Z) :
  Z.odd b = true → Z.gcd (2 ^ Z.of_nat n) b = 1%Z.
Proof.
  intros Hodd. apply Z.coprime_pow_l; [lia|].
  apply Z.coprime_Bezout.
  apply Z.odd_spec in Hodd as [q Hq].
  exists (- q)%Z, 1%Z. lia.
Qed.

Lemma tri_injective (k i j : nat) :
  j < i < 2 ^ k → tri i mod 2 ^ k ≠ tri j mod 2 ^ k.
Proof.
  intros [Hji Hi] Heq.
  pose proof (tri_double i) as Hti. pose proof (tri_double j) as Htj.
  assert ((2 ^ Z.of_nat (S k) | (Z.of_nat i - Z.of_nat j) * (Z.of_nat i + Z.of_nat j + 1))%Z)
    as Hdiv.
  { assert (2 ^ k ≠ 0) as Hpos by (apply Nat.pow_nonzero; lia).
    pose proof (Nat.div_mod (tri i) (2 ^ k) Hpos) as Hdi.
    pose proof (Nat.div_mod (tri j) (2 ^ k) Hpos) as Hdj.
    exists (Z.of_nat (tri i / 2 ^ k) - Z.of_nat (tri j / 2 ^ k))%Z.
    rewrite Nat2Z.inj_succ, Z.pow_succ_r by lia.
    assert (Z.of_nat (2 ^ k) = 2 ^ Z.of_nat k)%Z as Hpow
      by (rewrite Nat2Z.inj_pow; done).
    rewrite <- Hpow. nia. }
  assert (0 < Z.of_nat i - Z.of_nat j < 2 ^ Z.of_nat (S k))%Z as Ha.
  { rewrite Nat2Z.inj_succ, Z.pow_succ_r by lia.
    assert (Z.of_nat (2 ^ k) = 2 ^ Z.of_nat k)%Z as Hpow
      by (rewrite Nat2Z.inj_pow; done). lia. }
  assert (0 < Z.of_nat i + Z.of_nat j + 1 < 2 ^ Z.of_nat (S k))%Z as Hb.
  { rewrite Nat2Z.inj_succ, Z.pow_succ_r by lia.
    assert (Z.of_nat (2 ^ k) = 2 ^ Z.of_nat k)%Z as Hpow
      by (rewrite Nat2Z.inj_pow; done). lia. }
  destruct (Z.odd (Z.of_nat i - Z.of_nat j)) eqn:Hodd.
  - apply Z.gauss in Hdiv; [|by apply odd_rel_prime_pow2].
    apply Z.divide_pos_le in Hdiv; lia.
  - assert (Z.odd (Z.of_nat i + Z.of_nat j + 1) = true) as Hodd'.
    { replace (Z.of_nat i + Z.of_nat j + 1)%Z
        with ((Z.of_nat i - Z.of_nat j) + (2 * Z.of_nat j + 1))%Z by lia.
      rewrite Z.odd_add, Hodd. by rewrite Z.add_comm, Z.odd_add_mul_2. }
    rewrite Z.mul_comm in Hdiv.
    apply Z.gauss in Hdiv; [|by apply odd_rel_prime_pow2].
    apply Z.divide_pos_le in Hdiv; lia.
Qed.

Lemma probe_at_range (sz idx step n : nat) :
  sz ≠ 0 → idx < sz → probe_at sz idx step n < sz.
Proof.
  intros Hsz. revert idx step. induction n as [|n IH]; intros idx step Hidx; [done|].
  simpl. apply IH. by apply Nat.mod_upper_bound.
Qed.

Lemma probe_at_closed (sz idx step n : nat) :
  sz ≠ 0 → probe_at sz idx step n mod sz = (idx + n * step + tri n) mod sz.
Proof.
  intros Hsz. revert idx step. induction n as [|n IH]; intros idx step.
  - simpl. f_equal. unfold tri. simpl. lia.
  - simpl probe_at. rewrite IH, tri_S.
    rewrite <- Nat.Div0.add_mod_idemp_l, <- (Nat.Div0.add_mod_idemp_l (_ mod _)).
    rewrite Nat.Div0.mod_mod.
    rewrite (Nat.Div0.add_mod_idemp_l (idx + S step)), Nat.Div0.add_mod_idemp_l.
    f_equal. lia.
Qed.

Lemma probe_at_injective (k idx i j : nat) :
  idx < 2 ^ k → i < 2 ^ k → j < 2 ^ k →
  probe_at (2 ^ k) idx 0 i = probe_at (2 ^ k) idx 0 j → i = j.
Proof.
  intros Hidx Hi Hj Heq.
  assert (2 ^ k ≠ 0) as Hsz by (apply Nat.pow_nonzero; lia).
  apply (f_equal (λ x, x mod 2 ^ k)) in Heq.
  rewrite !probe_at_closed in Heq by done.
  rewrite !Nat.mul_0_r, !Nat.add_0_r in Heq.
  assert (tri i mod 2 ^ k = tri j mod 2 ^ k) as Htri.
  { pose proof (Nat.div_mod (idx + tri i) (2 ^ k) Hsz) as H1.
    pose proof (Nat.div_mod (idx + tri j) (2 ^ k) Hsz) as H2.
    rewrite Heq in H1.
    pose proof (Nat.mod_upper_bound (tri i) (2 ^ k) Hsz).
    pose proof (Nat.mod_upper_bound (tri j) (2 ^ k) Hsz).
    pose proof (Nat.div_mod (tri i) (2 ^ k) Hsz) as H3.
    pose proof (Nat.div_mod (tri j) (2 ^ k) Hsz) as H4.
    destruct (decide (tri j ≤ tri i)) as [Hle|Hgt].
    - assert (tri i = tri j + 2 ^ k * ((idx + tri i) / 2 ^ k - (idx + tri j) / 2 ^ k))
        as -> by nia.
      by rewrite (Nat.mul_comm (2 ^ k)), Nat.Div0.mod_add.
    - assert (tri j = tri i + 2 ^ k * ((idx + tri j) / 2 ^ k - (idx + tri i) / 2 ^ k))
        as -> by nia.
      by rewrite (Nat.mul_comm (2 ^ k)), Nat.Div0.mod_add. }
  destruct (Nat.lt_trichotomy i j) as [Hlt|[?|Hlt]]; [|done|].
  - by destruct (tri_injective k j i).
  - by destruct (tri_injective k i j).
Qed.

Lemma probe_at_surjective (k idx q : nat) :
  idx < 2 ^ k → q < 2 ^ k → ∃ n, n < 2 ^ k ∧ probe_at (2 ^ k) idx 0 n = q.
Proof.
  intros Hidx Hq.
  assert (2 ^ k ≠ 0) as Hsz by (apply Nat.pow_nonzero; lia).
  set (l := probe_at (2 ^ k) idx 0 <$> seq 0 (2 ^ k)).
  assert (NoDup l) as Hnd.
  { apply NoDup_fmap_2_strong; [|apply NoDup_seq].
    intros i j Hi%elem_of_seq Hj%elem_of_seq. apply probe_at_injective; lia. }
  assert (l ⊆+ seq 0 (2 ^ k)) as Hsub.
  { apply NoDup_submseteq; [done|].
    intros x (n & -> & Hn)%list_elem_of_fmap. apply elem_of_seq.
    split; [lia|]. simpl. by apply probe_at_range. }
  assert (l ≡ₚ seq 0 (2 ^ k)) as Hperm.
  { apply submseteq_length_Permutation; [done|].
    unfold l. by rewrite length_fmap. }
  assert (q ∈ l) as (n & Hn & Hin%elem_of_seq)%list_elem_of_fmap.
  { rewrite Hperm. apply elem_of_seq. lia. }
  exists n. split; [lia|done].
Qed.

Lemma prime_mod_bound (sh : nat) :
  (0 < nth sh prime_mod 1 ≤ 2 ^ Z.of_nat sh)%Z.
Proof.
  destruct (decide (sh < length prime_mod)) as [Hlt|Hge].
  - do 32 (destruct sh as [|sh]; [by vm_compute|]). simpl in Hlt. lia.
  - rewrite nth_overflow by lia.
    assert (0 < 2 ^ Z.of_nat sh)%Z by (apply Z.pow_pos_nonneg; lia). lia.
Qed.

Lemma start_of_range (sh : nat) (hash_value : Z) : start_of sh hash_value < 2 ^ sh.
Proof.
  unfold start_of. pose proof (prime_mod_bound sh) as [Hpos Hle].
  pose proof (Z.mod_pos_bound hash_value _ Hpos).
  assert (Z.of_nat (2 ^ sh) = 2 ^ Z.of_nat sh)%Z by (by rewrite Nat2Z.inj_pow).
  lia.
Qed.

Lemma pow2_nonzero (sh : nat) : 2 ^ sh ≠ 0.
Proof. apply Nat.pow_nonzero. lia. Qed.

Lemma stored_empty_slot (nds : list (option GHashNode)) :
  length (stored nds) < length nds → ∃ q, nds !! q = Some None.
Proof.
  induction nds as [|[nd|] nds IH]; simpl; intros Hlen.
  - lia.
  - destruct IH as [q Hq]; [lia|]. by exists (S q).
  - by exists 0.
Qed.

Lemma stored_insert (nds : list (option GHashNode)) (r : nat) (nd : GHashNode) :
  nds !! r = Some None → stored (<[r := Some nd]> nds) ≡ₚ nd :: stored nds.
Proof.
  revert r. induction nds as [|[nd'|] nds IH]; intros [|r] Hr; simplify_eq/=.
  - rewrite (IH r Hr). apply Permutation_swap.
  - done.
  - by apply IH.
Qed.

Lemma elem_of_stored (nds : list (option GHashNode)) (nd : GHashNode) :
  nd ∈ stored nds ↔ ∃ p, nds !! p = Some (Some nd).
Proof.
  unfold stored. rewrite list_elem_of_omap. split.
  - intros (o & Ho & Hid). simpl in Hid. subst o.
    by apply list_elem_of_lookup_1 in Ho.
  - intros (p & Hp). exists (Some nd). split; [|done].
    by eapply list_elem_of_lookup_2.
Qed.

(** The probe for an empty node stops at the first empty node. *)
Lemma empty_node_first (nds : list (option GHashNode)) (sz fuel idx step e : nat) :
  sz ≠ 0 → length nds = sz → idx < sz → e < fuel →
  nds !! probe_at sz idx step e = Some None →
  ∃ n, n ≤ e
       ∧ empty_node fuel nds sz idx step = probe_at sz idx step n
       ∧ nds !! probe_at sz idx step n = Some None
       ∧ ∀ m, m < n → occupied nds (probe_at sz idx step m).
Proof.
  intros Hsz Hlen. revert idx step e.
  induction fuel as [|fuel IH]; intros idx step e Hidx He Hempty; [lia|].
  simpl. destruct (nds !! idx) as [[nd|]|] eqn:Hnd.
  - destruct e as [|e]; [simpl in Hempty; congruence|].
    destruct (IH ((idx + S step) mod sz) (S step) e) as (n & Hne & Hrun & Hn & Hocc);
      [by apply Nat.mod_upper_bound|lia|done|].
    exists (S n). split_and!; [lia|done..|].
    intros [|m] Hm; [by exists nd|]. apply Hocc. lia.
  - exists 0. split_and!; [lia|done..|]. intros m Hm. lia.
  - apply lookup_ge_None in Hnd. lia.
Qed.

(** For a key that is not in the table, the lookup is that probe. *)
Lemma lookup_node_absent (t : GHashTable_) (k : string) (hash_value : Z)
    (fuel idx step : nat) :
  k ∉ keys_of (nodes t) →
  lookup_node fuel t k hash_value idx step
  = empty_node fuel (nodes t) (size t) idx step.
Proof.
  intros Hk. revert idx step. induction fuel as [|fuel IH]; intros idx step; [done|].
  simpl. destruct (nodes t !! idx) as [[nd|]|] eqn:Hnd; [|done..].
  assert (key nd ≠ k) as Hne.
  { intros <-. apply Hk. unfold keys_of. apply list_elem_of_fmap.
    exists nd. split; [done|]. apply elem_of_stored. by exists idx. }
  apply String.eqb_neq in Hne. rewrite Hne, andb_false_r. apply IH.
Qed.

(** For a key that is in the table, the lookup ends at an occupied node. *)
Lemma lookup_node_present (t : GHashTable_) (k : string) (fuel idx step n : nat)
    (nd : GHashNode) :
  nodes t !! probe_at (size t) idx step n = Some (Some nd) →
  key nd = k → key_hash nd = hash_of k → n < fuel →
  (∀ m, m < n → occupied (nodes t) (probe_at (size t) idx step m)) →
  occupied (nodes t) (lookup_node fuel t k (hash_of k) idx step).
Proof.
  revert fuel idx step. induction n as [|n IH]; intros fuel idx step Hnd Hkey Hhash Hn Hocc.
  - destruct fuel as [|fuel]; [lia|]. simpl in *. rewrite Hnd.
    rewrite Hhash, Z.eqb_refl, Hkey, String.eqb_refl. simpl. by exists nd.
  - destruct fuel as [|fuel]; [lia|]. simpl.
    destruct (Hocc 0 ltac:(lia)) as [nd0 Hnd0]. simpl in Hnd0. rewrite Hnd0.
    destruct ((key_hash nd0 =? hash_of k)%Z && String.eqb (key nd0) k);
      [by exists nd0|].
    apply IH; [done..|lia|]. intros m Hm. apply (Hocc (S m)). lia.
Qed.

Lemma place_ok (sh : nat) (nds : list (option GHashNode)) (nd : GHashNode) :
  nodes_ok sh nds → length (stored nds) < 2 ^ sh →
  key_hash nd = hash_of (key nd) → key nd ∉ keys_of nds →
  nodes_ok sh (place sh nds nd)
  ∧ stored (place sh nds nd) ≡ₚ nd :: stored nds
  ∧ nds !! empty_node (2 ^ sh) nds (2 ^ sh) (start_of sh (key_hash nd)) 0 = Some None.
Proof.
  intros (Hlen & Hnd & Hplaced) Hroom Hhash Hkey.
  destruct (stored_empty_slot nds) as [q Hq]; [lia|].
  pose proof (lookup_lt_Some _ _ _ Hq) as Hqlt. rewrite Hlen in Hqlt.
  destruct (probe_at_surjective sh (start_of sh (key_hash nd)) q
              (start_of_range _ _) Hqlt) as (e & He & Hprobe).
  destruct (empty_node_first nds (2 ^ sh) (2 ^ sh) (start_of sh (key_hash nd)) 0 e
              (pow2_nonzero sh) Hlen (start_of_range _ _) He)
    as (n & Hne & Hrun & Hempty & Hocc); [by rewrite Hprobe|].
  unfold place. fold (start_of sh (key_hash nd)). rewrite Hrun.
  set (r := probe_at (2 ^ sh) (start_of sh (key_hash nd)) 0 n) in *.
  assert (∀ x, occupied nds x → occupied (<[r := Some nd]> nds) x) as Hmono.
  { intros x [nd' Hx]. exists nd'. rewrite list_lookup_insert_ne; [done|].
    intros <-. congruence. }
  pose proof (stored_insert nds r nd Hempty) as Hperm.
  split_and!; [split_and!| |]; [by rewrite length_insert| | |done..].
  - unfold keys_of. rewrite Hperm. simpl. by apply NoDup_cons.
  - intros p nd' Hp. destruct (decide (p = r)) as [->|Hpr].
    + rewrite list_lookup_insert_eq in Hp by (apply lookup_lt_Some in Hempty; lia).
      simplify_eq. split; [done|]. exists n. split_and!; [lia|done|].
      intros m Hm. by apply Hmono, Hocc.
    + rewrite list_lookup_insert_ne in Hp by done.
      destruct (Hplaced p nd' Hp) as (Hh & n' & Hn' & Hp' & Hocc').
      split; [done|]. exists n'. split_and!; [done..|].
      intros m Hm. by apply Hmono, Hocc'.
Qed.

Lemma fold_place_ok (sh : nat) (L : list GHashNode) (acc : list (option GHashNode)) :
  nodes_ok sh acc →
  NoDup (key <$> L) →
  (∀ nd, nd ∈ L → key_hash nd = hash_of (key nd) ∧ key nd ∉ keys_of acc) →
  length (stored acc) + length L < 2 ^ sh →
  nodes_ok sh (fold_left (place sh) L acc)
  ∧ stored (fold_left (place sh) L acc) ≡ₚ L ++ stored acc.
Proof.
  revert acc. induction L as [|nd L IH]; intros acc Hacc Hnd HL Hroom; [done|].
  simpl in *. apply NoDup_cons in Hnd as [Hfresh Hnd].
  destruct (HL nd) as [Hhash Hkey]; [left|].
  destruct (place_ok sh acc nd Hacc) as (Hacc' & Hperm & _); [lia|done..|].
  destruct (IH (place sh acc nd) Hacc' Hnd) as [Hok Hperm'].
  - intros nd' Hin. destruct (HL nd') as [Hh Hk]; [by right|]. split; [done|].
    unfold keys_of. rewrite Hperm. simpl. intros [Heq|Hin']%elem_of_cons; [|done].
    apply Hfresh. rewrite <- Heq. apply list_elem_of_fmap. by exists nd'.
  - rewrite Hperm. simpl. lia.
  - split; [done|]. rewrite Hperm', Hperm. by rewrite Permutation_middle.
Qed.

Lemma fold_place_stored (sh : nat) (nds acc : list (option GHashNode)) :
  fold_left (λ new_nodes node,
      match node with
      | None => new_nodes
      | Some nd => place sh new_nodes nd
      end) nds acc
  = fold_left (place sh) (stored nds) acc.
Proof.
  revert acc. induction nds as [|[nd|] nds IH]; intros acc; simpl; [done|..]; apply IH.
Qed.

Lemma stored_replicate (n : nat) : stored (replicate n None) = [].
Proof. induction n as [|n IH]; [done|]. exact IH. Qed.

Lemma nodes_ok_replicate (sh : nat) : nodes_ok sh (replicate (2 ^ sh) None).
Proof.
  split_and!.
  - apply length_replicate.
  - unfold keys_of. rewrite stored_replicate. constructor.
  - intros p nd Hp. apply lookup_replicate in Hp as [? _]. done.
Qed.

Lemma find_closest_shift_bound (n : nat) : n < 2 ^ find_closest_shift n.
Proof.
  destruct n as [|n]; [simpl; lia|].
  unfold find_closest_shift.
  destruct (Nat.log2_spec (S n)) as [_ Hlt]; [lia|]. exact Hlt.
Qed.

Lemma resize_ok (t : GHashTable_) :
  nodes_ok (shift t) (nodes t) → nnodes t = length (stored (nodes t)) →
  table_ok (resize t) ∧ stored (nodes (resize t)) ≡ₚ stored (nodes t).
Proof.
  intros (Hlen & Hnd & Hplaced) Hn. unfold resize.
  set (sh := Nat.max (find_closest_shift (nnodes t * 2)) HASH_TABLE_MIN_SHIFT).
  assert (nnodes t < 2 ^ sh) as Hroom.
  { pose proof (find_closest_shift_bound (nnodes t * 2)) as Hb.
    assert (2 ^ find_closest_shift (nnodes t * 2) ≤ 2 ^ sh)
      by (apply Nat.pow_le_mono_r; lia).
    lia. }
  rewrite fold_place_stored.
  destruct (fold_place_ok sh (stored (nodes t)) (replicate (2 ^ sh) None))
    as [Hok Hperm].
  - apply nodes_ok_replicate.
  - exact Hnd.
  - intros nd (p & Hp)%elem_of_stored. split; [by destruct (Hplaced p nd Hp)|].
    unfold keys_of. rewrite stored_replicate. apply not_elem_of_nil.
  - rewrite stored_replicate. simpl. lia.
  - rewrite stored_replicate, app_nil_r in Hperm.
    split; [|done]. split_and!; simpl; [done| |done].
    by rewrite Hperm.
Qed.

Lemma get_keys_rev (t : GHashTable_) : get_keys t = rev (keys_of (nodes t)).
Proof.
  unfold get_keys.
  assert (∀ nds acc,
    fold_left (λ retval node,
        match node with
        | Some nd => key nd :: retval
        | None => retval
        end) nds acc = rev (keys_of nds) ++ acc) as Hfold.
  { induction nds as [|[nd|] nds IH]; intros acc; simpl; [done| |apply IH].
    rewrite IH. unfold keys_of. simpl. by rewrite <- app_assoc. }
  by rewrite Hfold, app_nil_r.
Qed.

Lemma insert_ok (t : GHashTable_) (k : string) :
  table_ok t →
  table_ok (insert t k)
  ∧ ∀ x, x ∈ keys_of (nodes (insert t k)) ↔ x = k ∨ x ∈ keys_of (nodes t).
Proof.
  intros (Hok & Hn & Hroom). pose proof Hok as (Hlen & Hnd & Hplaced).
  unfold insert. fold (start_of (shift t) (hash_of k)).
  change (Z.to_nat (hash_of k mod mod_ t)) with (start_of (shift t) (hash_of k)).
  destruct (decide (k ∈ keys_of (nodes t))) as [Hin|Hout].
  - assert (occupied (nodes t)
              (lookup_node (size t) t k (hash_of k) (start_of (shift t) (hash_of k)) 0))
      as [nd0 Hnd0].
    { unfold keys_of in Hin.
      apply list_elem_of_fmap in Hin as (nd & -> & (p & Hp)%elem_of_stored).
      destruct (Hplaced p nd Hp) as (Hhash & n & Hnlt & -> & Hocc).
      rewrite Hhash in Hp, Hocc.
      by apply (lookup_node_present t (key nd) (size t) _ 0 n nd). }
    rewrite Hnd0. split; [done|]. intros x. split; [by right|].
    by intros [->|?].
  - rewrite lookup_node_absent by done.
    set (nd := {| key := k; key_hash := hash_of k |}).
    destruct (place_ok (shift t) (nodes t) nd Hok) as (Hok' & Hperm & Hempty);
      [lia|done..|].
    unfold size. simpl in Hempty. rewrite Hempty.
    change (<[empty_node (2 ^ shift t) (nodes t) (2 ^ shift t)
                (start_of (shift t) (hash_of k)) 0 := Some nd]> (nodes t))
      with (place (shift t) (nodes t) nd).
    set (t1 := {| shift := shift t; nnodes := S (nnodes t);
                  nodes := place (shift t) (nodes t) nd |}).
    assert (nnodes t1 = length (stored (nodes t1))) as Hn1.
    { simpl. rewrite Hperm. simpl. by rewrite Hn. }
    assert (∀ x, x ∈ keys_of (nodes t1) ↔ x = k ∨ x ∈ keys_of (nodes t)) as Hkeys1.
    { intros x. unfold keys_of. simpl. rewrite Hperm. simpl.
      by rewrite elem_of_cons. }
    unfold maybe_resize.
    destruct (_ || _) eqn:Hcond.
    + destruct (resize_ok t1 Hok' Hn1) as [Hres Hperm'].
      split; [done|]. intros x. unfold keys_of. rewrite Hperm'. apply Hkeys1.
    + split; [|done]. split_and!; [done..|].
      apply orb_false_iff in Hcond as [_ Hfull%Nat.leb_gt].
      unfold size in Hfull. simpl in *. lia.
Qed.

Lemma table_ok_new : table_ok new.
Proof.
  split_and!.
  - apply (nodes_ok_replicate HASH_TABLE_MIN_SHIFT).
  - done.
  - simpl. lia.
Qed.

Lemma fold_insert_ok (l : list string) (t : GHashTable_) :
  table_ok t →
  table_ok (fold_left insert l t)
  ∧ ∀ x, x ∈ keys_of (nodes (fold_left insert l t)) ↔ x ∈ keys_of (nodes t) ∨ x ∈ l.
Proof.
  revert t. induction l as [|k l IH]; intros t Ht.
  - split; [done|]. intros x. split; [by left|].
    intros [?|Hx]; [done|]. by apply elem_of_nil in Hx.
  - simpl. destruct (insert_ok t k Ht) as [Ht' Hkeys].
    destruct (IH _ Ht') as [Hok Hel]. split; [done|].
    intros x. rewrite Hel, Hkeys, elem_of_cons. tauto.
Qed.

End GLibFacts.

Global Instance glib_table_laws : GHashTableLaws GLib.table.
Proof.
  split.
  - intros l x.
    destruct (GLibFacts.fold_insert_ok l GLib.new GLibFacts.table_ok_new) as [_ Hel].
    unfold table_of. simpl. rewrite GLibFacts.get_keys_rev.
    rewrite list_elem_of_In, <- in_rev, <- list_elem_of_In, Hel.
    split; [|by right]. intros [Hx|?]; [|done]. by apply elem_of_nil in Hx.
  - intros l.
    destruct (GLibFacts.fold_insert_ok l GLib.new GLibFacts.table_ok_new)
      as [((_ & Hnd & _) & _) _].
    unfold table_of. simpl. rewrite GLibFacts.get_keys_rev.
    by rewrite <- Permutation_rev.
Qed.

Lemma add_all_reachable (H : GHashTable) (filenames : list string) (s : State) :
  @reachable H Scenario.libc Scenario.parsers s →
  @reachable H Scenario.libc Scenario.parsers (Scenario.add_all H filenames s).
Proof.
  revert s. induction filenames as [|f fs IH]; intros s Hs; [done|].
  apply IH. by apply reach_add.
Qed.

(** ** Claims *)

Lemma add_message_success `{GHashTable, LibC, Parsers} (env : Env)
    (filename file : string) (s s' : State) :
  fopen env filename = inr file →
  notmuch_database_add_message env filename s
  = (Returned NOTMUCH_STATUS_SUCCESS, s') →
  xapian_db s'
  = xapian_db s ++ [document_for env filename (g_mime_parser_construct_message file) s].
Proof.
  intros Hopen. unfold notmuch_database_add_message. rewrite Hopen.
  pose proof (add_message_try_post env filename
                (g_mime_parser_construct_message file) s) as Hpost.
  unfold post in Hpost.
  destruct (add_message_try env filename _ s) as [[u|msg] s1]; intros Hrun;
    by simplify_eq.
Qed.

(** ** What the backend raised *)

Lemma post_msg_ret {A : Type} (a : A) (s : State)
    (Q : A → State → Prop) (E : string → State → Prop) :
  Q a s → post_msg (mret a) s Q E.
Proof. done. Qed.

Lemma post_msg_bind {A B : Type} (m : M A) (f : A → M B) (s : State)
    (Q : B → State → Prop) (E : string → State → Prop) :
  post_msg m s (λ a s', post_msg (f a) s' Q E) E → post_msg (m ≫= f) s Q E.
Proof.
  unfold post_msg.
  change ((m ≫= f) s) with
    (match m s with
     | (Ok a, s') => f a s'
     | (Throw msg, s') => (Throw msg, s')
     end).
  by destruct (m s) as [[a|msg] s'].
Qed.

Lemma post_msg_mono {A : Type} (m : M A) (s : State)
    (Q Q' : A → State → Prop) (E E' : string → State → Prop) :
  post_msg m s Q E → (∀ a s', Q a s' → Q' a s') → (∀ msg s', E msg s' → E' msg s') →
  post_msg m s Q' E'.
Proof.
  unfold post_msg. destruct (m s) as [[a|msg] s']; eauto.
Qed.

Lemma returned_all_refl (s : State) : returned_all s s.
Proof. exists []. split; [done|constructor]. Qed.

Lemma returned_all_trans (s1 s2 s3 : State) :
  returned_all s1 s2 → returned_all s2 s3 → returned_all s1 s3.
Proof.
  intros (pre1 & H1 & Hc1) (pre2 & H2 & Hc2). exists (pre1 ++ pre2).
  split; [by rewrite H1, H2, app_assoc|]. unfold calm in *. by apply Forall_app.
Qed.

Lemma returned_all_raised (msg : string) (s1 s2 s3 : State) :
  returned_all s1 s2 → raised msg s2 s3 → raised msg s1 s3.
Proof.
  intros (pre1 & H1 & Hc1) (pre2 & H2 & Hc2). exists (pre1 ++ pre2).
  split; [by rewrite H1, H2, app_assoc|]. unfold calm in *. by apply Forall_app.
Qed.

Lemma returned_all_same_faults (s s' : State) :
  xapian_faults s' = xapian_faults s → returned_all s s'.
Proof. intros Hfl. exists []. split; [by rewrite Hfl|constructor]. Qed.

(** A read of the database that cannot fail on its own returns, unless the
    schedule makes it throw. *)
Lemma post_msg_xapian_read {A : Type} (f : list Document → result A) (a : A)
    (s : State) :
  f (xapian_db s) = Ok a →
  post_msg (xapian_read f) s
    (λ a' s', a' = a ∧ read_only s s' ∧ returned_all s s')
    (λ msg s', read_only s s' ∧ raised msg s s').
Proof.
  intros Hf. unfold post_msg, xapian_read, xapian_call.
  destruct (xapian_faults s) as [|[msg|] fl] eqn:Hfl; simpl.
  - rewrite Hf. split_and!; [done|apply read_only_refl|apply returned_all_refl].
  - split; [apply read_only_with_faults|]. exists []. split; [by rewrite Hfl|constructor].
  - rewrite Hf. split_and!; [done|apply read_only_with_faults|].
    exists [None]. rewrite Hfl. split; [done|by repeat constructor].
Qed.

Lemma post_msg_for_each {A S : Type} (body : S → A → M S) (s : State) (l : list A) :
  (∀ acc x s1, x ∈ l → read_only s s1 →
     post_msg (body acc x) s1
       (λ _ s', read_only s1 s' ∧ returned_all s1 s')
       (λ msg s', read_only s1 s' ∧ raised msg s1 s')) →
  ∀ acc s1, read_only s s1 →
    post_msg (for_each l acc body) s1
      (λ _ s', read_only s1 s' ∧ returned_all s1 s')
      (λ msg s', read_only s1 s' ∧ raised msg s1 s').
Proof.
  induction l as [|x l IH]; intros Hbody acc s1 Hs1.
  - apply post_msg_ret. split; [apply read_only_refl|apply returned_all_refl].
  - simpl. apply post_msg_bind.
    eapply post_msg_mono; [apply Hbody; [left|exact Hs1]| |done].
    intros acc' s2 [Hs2 Hr2].
    eapply post_msg_mono.
    + apply IH; [|by eapply read_only_trans].
      intros acc0 y s0 Hy. apply Hbody. by right.
    + intros acc'' s3 [Hs3 Hr3].
      split; [by eapply read_only_trans|by eapply returned_all_trans].
    + intros msg s3 [Hs3 Hr3].
      split; [by eapply read_only_trans|by eapply returned_all_raised].
Qed.

Lemma post_msg_get_document (docid : nat) (term : string) (s0 s : State) :
  read_only s0 s → docid ∈ postlist (xapian_db s0) term →
  post_msg (get_document docid) s
    (λ _ s', read_only s s' ∧ returned_all s s')
    (λ msg s', read_only s s' ∧ raised msg s s').
Proof.
  intros Hs (i & d & -> & Hd)%(postlist_from_valid term []).
  simpl in Hd. rewrite <- (read_only_db _ _ Hs) in Hd.
  eapply post_msg_mono;
    [apply (post_msg_xapian_read _ d); simpl; by rewrite Hd| |done].
  by intros a s' (_ & ? & ?).
Qed.

Lemma post_msg_postlist_begin (term : string) (s : State) :
  post_msg (postlist_begin term) s
    (λ ids s', ids = postlist (xapian_db s) term ∧ read_only s s' ∧ returned_all s s')
    (λ msg s', read_only s s' ∧ raised msg s s').
Proof. by apply post_msg_xapian_read. Qed.

Lemma post_msg_find_message_by_message_id (parent : string) (s : State) :
  post_msg (find_message_by_message_id (Some parent)) s
    (λ _ s', read_only s s' ∧ returned_all s s')
    (λ msg s', read_only s s' ∧ raised msg s s').
Proof.
  unfold find_message_by_message_id, find_messages_by_term. apply post_msg_bind.
  eapply post_msg_mono; [apply post_msg_postlist_begin| |done].
  intros ids s1 (-> & Hs1 & Hr1). cbn [printf_s].
  destruct (postlist (xapian_db s) (find_prefix "msgid" +:+ parent))
    as [|docid rest] eqn:Hpost.
  - by apply post_msg_ret.
  - eapply post_msg_mono.
    + apply (post_msg_get_document docid (find_prefix "msgid" +:+ parent) s s1 Hs1).
      rewrite Hpost. left.
    + intros d s2 [Hs2 Hr2].
      split; [by eapply read_only_trans|by eapply returned_all_trans].
    + intros msg s2 [Hs2 Hr2].
      split; [by eapply read_only_trans|by eapply returned_all_raised].
Qed.

(** The resolver throws only what the backend raises. *)
Lemma post_msg_find_thread_ids `{GHashTable} (parents : list string)
    (message_id : option string) (s : State) :
  post_msg (find_thread_ids parents message_id) s
    (λ _ s', read_only s s' ∧ returned_all s s')
    (λ msg s', read_only s s' ∧ raised msg s s').
Proof.
  unfold find_thread_ids, find_messages_by_term. apply post_msg_bind.
  eapply post_msg_mono; [apply post_msg_postlist_begin| |done].
  intros children s1 (-> & Hs1 & Hr1). apply post_msg_bind.
  eapply post_msg_mono; [apply (post_msg_for_each _ s); [|exact Hs1]| |].
  - intros acc child s2 Hchild Hs2. apply post_msg_bind.
    eapply post_msg_mono; [by eapply post_msg_get_document| |done].
    intros d s3 [Hs3 Hr3]. by apply post_msg_ret.
  - intros t1 s2 [Hs2 Hr2]. apply post_msg_bind.
    eapply post_msg_mono;
      [apply (post_msg_for_each _ s); [|by eapply read_only_trans]| |].
    + intros acc parent s3 _ Hs3. apply post_msg_bind.
      eapply post_msg_mono; [apply post_msg_find_message_by_message_id| |done].
      intros d s4 [Hs4 Hr4]. by apply post_msg_ret.
    + intros t2 s3 [Hs3 Hr3]. apply post_msg_ret.
      split; [eauto using read_only_trans|eauto using returned_all_trans].
    + intros msg s3 [Hs3 Hr3].
      split; [eauto using read_only_trans|eauto using returned_all_trans, returned_all_raised].
  - intros msg s2 [Hs2 Hr2].
    split; [eauto using read_only_trans|eauto using returned_all_raised].
Qed.

Lemma post_msg_add_document (doc : Document) (s : State) :
  post_msg (add_document doc) s (λ _ s', returned_all s s') (λ msg s', raised msg s s').
Proof.
  unfold post_msg, add_document, xapian_call.
  destruct (xapian_faults s) as [|[msg|] fl] eqn:Hfl; simpl.
  - exists []. split; [by rewrite Hfl|constructor].
  - exists []. split; [by rewrite Hfl|constructor].
  - exists [None]. rewrite Hfl. split; [done|by repeat constructor].
Qed.

(** The [try] block throws exactly what the backend raises: when it
    returns, every backend call has returned; when it throws, the message
    is the one of the first raise of the schedule. *)
Lemma add_message_try_raised `{GHashTable, LibC, Parsers} (env : Env)
    (filename : string) (message : GMimeMessage) (s : State) :
  post_msg (add_message_try env filename message) s
    (λ _ s', returned_all s s') (λ msg s', raised msg s s').
Proof.
  unfold add_message_try. cbv zeta. apply post_msg_bind.
  eapply post_msg_mono; [apply post_msg_find_thread_ids| |by intros msg s' [_ ?]].
  intros ks s1 [_ Hr1].
  assert (∀ (doc : Document) (s2 : State), returned_all s s2 →
    post_msg (add_document doc;; mret ()) s2
      (λ _ s', returned_all s s') (λ msg s', raised msg s s')) as Hcommit.
  { intros doc s2 Hr2. apply post_msg_bind.
    eapply post_msg_mono; [apply post_msg_add_document| |].
    - intros u s3 Hr3. apply post_msg_ret. by eapply returned_all_trans.
    - intros msg s3 Hr3. by eapply returned_all_raised. }
  apply post_msg_bind.
  destruct (negb (length ks =? 0)).
  - destruct (thread_ids_loop 0 ks _ "") as [doc thread_id].
    apply post_msg_ret. by apply Hcommit.
  - destruct (message_id_of message) as [id|].
    + apply post_msg_bind. unfold post_msg at 1.
      destruct (thread_id_generate_spec env s1) as (tid & s2 & -> & _ & _ & Hfl2 & _).
      apply post_msg_ret. apply Hcommit.
      eapply returned_all_trans; [exact Hr1|by apply returned_all_same_faults].
    + apply post_msg_ret. by apply Hcommit.
Qed.

Lemma bind_throw {A B : Type} (m : M A) (f : A → M B) (s s' : State) (msg : string) :
  m s = (Throw msg, s') → (m ≫= f) s = (Throw msg, s').
Proof.
  intros Hm.
  change ((m ≫= f) s) with
    (match m s with
     | (Ok a, s') => f a s'
     | (Throw msg, s') => (Throw msg, s')
     end).
  by rewrite Hm.
Qed.

(** A raise of the first backend call, the lookup of the children, ends
    the [try] block. *)
Lemma add_message_try_first_raise `{GHashTable, LibC, Parsers} (env : Env)
    (filename : string) (message : GMimeMessage) (s : State)
    (msg : string) (rest : list (option string)) :
  xapian_faults s = Some msg :: rest →
  add_message_try env filename message s = (Throw msg, with_faults s rest).
Proof.
  intros Hfl. unfold add_message_try. cbv zeta.
  apply bind_throw. unfold find_thread_ids. apply bind_throw.
  unfold find_messages_by_term, postlist_begin, xapian_read, xapian_call.
  by rewrite Hfl.
Qed.

Lemma calm_no_raise (msg : string) (s s' : State) :
  calm (xapian_faults s) → ¬ raised msg s s'.
Proof.
  intros Hcalm (pre & Hfl & _). rewrite Hfl in Hcalm.
  apply Forall_app in Hcalm as [_ Hcalm].
  by apply Forall_cons in Hcalm as [? _].
Qed.

(** C4.  Let the file open.  Then the call ends in one of two ways, and
    the backend decides which.  Either every backend call of the run
    returned: the call returns [NOTMUCH_STATUS_SUCCESS] and the index has
    exactly one more document, at its end.  Or a backend call raised an
    exception: the call returns [NOTMUCH_STATUS_XAPIAN_EXCEPTION] and the
    index holds the documents it held before the call.  A backend that
    raises nothing at all gives the first case, and one whose first call
    raises gives the second. *)
Theorem add_message_all_or_nothing `{GHashTable, LibC, Parsers} (env : Env)
    (filename file : string) (s : State) :
  fopen env filename = inr file →
  let result := notmuch_database_add_message env filename s in
  ((∃ d, fst result = Returned NOTMUCH_STATUS_SUCCESS
         ∧ returned_all s (snd result)
         ∧ xapian_db (snd result) = xapian_db s ++ [d])
   ∨ (∃ msg, fst result = Returned NOTMUCH_STATUS_XAPIAN_EXCEPTION
             ∧ raised msg s (snd result)
             ∧ xapian_db (snd result) = xapian_db s))
  ∧ (calm (xapian_faults s) →
       fst result = Returned NOTMUCH_STATUS_SUCCESS
       ∧ ∃ d, xapian_db (snd result) = xapian_db s ++ [d])
  ∧ (∀ msg rest, xapian_faults s = Some msg :: rest →
       fst result = Returned NOTMUCH_STATUS_XAPIAN_EXCEPTION
       ∧ xapian_db (snd result) = xapian_db s).
Proof.
  intros Hopen result. subst result.
  unfold notmuch_database_add_message. rewrite Hopen.
  set (message := g_mime_parser_construct_message file).
  pose proof (add_message_try_post env filename message s) as Hdb.
  pose proof (add_message_try_raised env filename message s) as Hraised.
  pose proof (add_message_try_first_raise env filename message s) as Hfirst.
  unfold post in Hdb. unfold post_msg in Hraised.
  destruct (add_message_try env filename message s) as [[u|msg] s'].
  - cbn [fst snd]. split_and!.
    + left. by eexists.
    + intros _. split; [done|by eexists].
    + intros msg rest Hfl. by specialize (Hfirst msg rest Hfl).
  - cbn [fst snd xapian_db fprintf_stderr with_stderr]. split_and!.
    + right. exists msg. split_and!; [done| |done].
      destruct Hraised as (pre & Hfl & Hpre). by exists pre.
    + intros Hcalm. by destruct (calm_no_raise msg s s' Hcalm).
    + done.
Qed.

(** At a state with nothing pending the reply to <a@x> is committed; at a
    state in which the fourth call into the index, the commit, raises, the
    status is the exception status and the index stays as it was. *)
Lemma add_message_all_or_nothing_witness :
  let s := Scenario.add_all GLib.table ["a"] initial_state in
  let s_raise := with_faults s [None; None; None; Some "DatabaseError"] in
  let ok := @notmuch_database_add_message GLib.table Scenario.libc
              Scenario.parsers Scenario.env "b_re_a" s in
  let failed := @notmuch_database_add_message GLib.table Scenario.libc
                  Scenario.parsers Scenario.env "b_re_a" s_raise in
  (fst ok = Returned NOTMUCH_STATUS_SUCCESS
   ∧ ∃ d, xapian_db (snd ok) = xapian_db s ++ [d])
  ∧ (∃ msg, fst failed = Returned NOTMUCH_STATUS_XAPIAN_EXCEPTION
            ∧ raised msg s_raise (snd failed)
            ∧ xapian_db (snd failed) = xapian_db s_raise).
Proof.
  intros s s_raise ok failed. split.
  - apply (@add_message_all_or_nothing GLib.table Scenario.libc Scenario.parsers
             Scenario.env "b_re_a" "b_re_a" s eq_refl).
    constructor.
  - destruct (proj1 (@add_message_all_or_nothing GLib.table Scenario.libc
                       Scenario.parsers Scenario.env "b_re_a" "b_re_a" s_raise
                       eq_refl)) as [(d & Hok & _)|Hfailed].
    + vm_compute in Hok. discriminate.
    + exact Hfailed.
Defined.

Lemma document_for_get_value_thread `{GHashTable, LibC, Parsers} (env : Env)
    (filename : string) (message : GMimeMessage) (s : State) :
  get_value (document_for env filename message s) NOTMUCH_VALUE_THREAD
  = join_ids (thread_set env s (parents_of message) (message_id_of message)).
Proof.
  unfold get_value. rewrite document_for_slot_thread.
  by destruct (thread_set _ _ _ _).
Qed.

Lemma thread_set_keys `{GHashTable, LibC} (env : Env) (s : State)
    (parents : list string) (message_id : option string) :
  g_hash_table_get_keys (table_of (discovery (xapian_db s) parents message_id)) ≠ [] →
  thread_set env s parents message_id
  = g_hash_table_get_keys (table_of (discovery (xapian_db s) parents message_id)).
Proof.
  unfold thread_set. destruct (g_hash_table_get_keys _); [done|].
  by destruct message_id.
Qed.

(** C1, as the code has it.  When the lookups of the resolver find thread
    ids, slot 1 of the persisted document is the comma-joined list of the
    keys of the hash table in the order in which [g_hash_table_get_keys]
    lists them: every resolved id once, in an order that is the table's and
    not the order of discovery.  The value depends on the index and on the
    message only, so a second run on the same index persists the same
    document. *)
Theorem slot_thread_lists_table_keys {HT : GHashTable} {HL : GHashTableLaws HT}
    {LC : LibC} {PS : Parsers} (env1 env2 : Env) (filename file : string)
    (s1 s2 s1' s2' : State) :
  let message := g_mime_parser_construct_message file in
  let ids := discovery (xapian_db s1) (parents_of message) (message_id_of message) in
  let keys := g_hash_table_get_keys (table_of ids) in
  fopen env1 filename = inr file →
  fopen env2 filename = inr file →
  xapian_db s2 = xapian_db s1 →
  ids ≠ [] →
  notmuch_database_add_message env1 filename s1
  = (Returned NOTMUCH_STATUS_SUCCESS, s1') →
  notmuch_database_add_message env2 filename s2
  = (Returned NOTMUCH_STATUS_SUCCESS, s2') →
  ∃ d, xapian_db s1' = xapian_db s1 ++ [d]
       ∧ xapian_db s2' = xapian_db s2 ++ [d]
       ∧ get_value d NOTMUCH_VALUE_THREAD = join_ids keys
       ∧ NoDup keys
       ∧ ∀ x, x ∈ keys ↔ x ∈ ids.
Proof.
  intros message ids keys Hopen1 Hopen2 Hdb Hids Hrun1 Hrun2.
  apply (add_message_success _ _ _ _ _ Hopen1) in Hrun1.
  apply (add_message_success _ _ _ _ _ Hopen2) in Hrun2.
  assert (keys ≠ []) as Hkeys.
  { destruct (nonempty_elem _ Hids) as [x Hx].
    apply (get_keys_elem ids x) in Hx. intros Hnil. subst keys.
    rewrite Hnil in Hx. by apply elem_of_nil in Hx. }
  assert (∀ env s, xapian_db s = xapian_db s1 →
            thread_set env s (parents_of message) (message_id_of message) = keys)
    as Hset.
  { intros env s Hs. rewrite thread_set_keys; rewrite Hs; done. }
  exists (document_for env1 filename message s1). split_and!.
  - done.
  - rewrite Hrun2. fold message. do 2 f_equal. unfold document_for.
    by rewrite (Hset env2 s2 Hdb), (Hset env1 s1 eq_refl).
  - by rewrite document_for_get_value_thread, (Hset env1 s1 eq_refl).
  - apply get_keys_NoDup.
  - intros x. apply get_keys_elem.
Qed.

(** C3, as the code has it.  A document persisted for a message that has a
    Message-ID, or for which the lookups of the resolver find a thread id,
    carries a term with the thread prefix and has a slot-1 value that is
    not empty. *)
Theorem persisted_document_has_thread {HT : GHashTable} {HL : GHashTableLaws HT}
    {LC : LibC} {PS : Parsers} (env : Env) (filename file : string)
    (s s' : State) :
  let message := g_mime_parser_construct_message file in
  reachable s →
  fopen env filename = inr file →
  is_Some (message_id_of message)
  ∨ discovery (xapian_db s) (parents_of message) (message_id_of message) ≠ [] →
  notmuch_database_add_message env filename s
  = (Returned NOTMUCH_STATUS_SUCCESS, s') →
  ∃ d, xapian_db s' = xapian_db s ++ [d]
       ∧ (∃ t, is_thread_term t = true ∧ has_term d t)
       ∧ get_value d NOTMUCH_VALUE_THREAD ≠ "".
Proof.
  intros message Hreach Hopen Hthread Hrun.
  apply (add_message_success _ _ _ _ _ Hopen) in Hrun.
  destruct (reachable_index_ok s Hreach) as [Hdb _].
  pose proof (thread_set_ok env s (parents_of message) (message_id_of message) Hdb)
    as Hok.
  assert (thread_set env s (parents_of message) (message_id_of message) ≠ [])
    as Hne.
  { destruct Hthread as [[id Hid]|Hids].
    - by eapply thread_set_nonempty.
    - destruct (nonempty_elem _ Hids) as [x Hx].
      apply (thread_set_contains env) in Hx. intros Hnil.
      rewrite Hnil in Hx. by apply elem_of_nil in Hx. }
  exists (document_for env filename message s). split_and!; [done| |].
  - destruct (nonempty_elem _ Hne) as [id Hid].
    exists (find_prefix "thread" +:+ id). split; [apply prefix_append|].
    apply document_for_terms. right; right. exists id. split_and!; [done..|].
    apply thread_term_fits. rewrite Forall_forall in Hok. auto.
  - rewrite document_for_get_value_thread. apply join_ids_nonempty; [done|].
    eapply Forall_impl; [exact Hok|]. intros id Hid. by apply thread_id_plain.
Qed.

(** C7, as the code has it.  The generator always returns, and what it
    returns is 32 lowercase hexadecimal digits, none of them a comma.  A
    call that succeeds for a message that has a Message-ID, or for which
    the lookups of the resolver find a thread id, writes into slot 1 one
    such id followed by zero or more such ids, each after a comma; for a
    message with neither it writes no slot 1, which then reads as the empty
    string.  So every document of the index has in slot 1 such a list, or
    nothing. *)
Theorem thread_id_format {HT : GHashTable} {HL : GHashTableLaws HT}
    {LC : LibC} {PS : Parsers} :
  (∀ env s, ∃ thread_id s',
     thread_id_generate env s = (Ok thread_id, s')
     ∧ is_thread_id thread_id = true
     ∧ ","%char ∉ list_ascii_of_string thread_id)
  ∧ (∀ env filename file s s',
       let message := g_mime_parser_construct_message file in
       let found := discovery (xapian_db s) (parents_of message)
                              (message_id_of message) in
       reachable s →
       fopen env filename = inr file →
       notmuch_database_add_message env filename s
       = (Returned NOTMUCH_STATUS_SUCCESS, s') →
       ∃ d, xapian_db s' = xapian_db s ++ [d]
            ∧ (is_Some (message_id_of message) ∨ found ≠ [] →
                 ∃ id ids,
                   Forall (λ id', is_thread_id id' = true) (id :: ids)
                   ∧ doc_values d !! NOTMUCH_VALUE_THREAD = Some (join_ids (id :: ids)))
            ∧ (message_id_of message = None ∧ found = [] →
                 doc_values d !! NOTMUCH_VALUE_THREAD = None
                 ∧ get_value d NOTMUCH_VALUE_THREAD = ""))
  ∧ (∀ s d,
       reachable s → d ∈ xapian_db s →
       match doc_values d !! NOTMUCH_VALUE_THREAD with
       | Some v =>
           ∃ id ids, Forall (λ id', is_thread_id id' = true) (id :: ids)
                     ∧ v = join_ids (id :: ids)
       | None => get_value d NOTMUCH_VALUE_THREAD = ""
       end).
Proof.
  split_and!.
  - intros env s.
    destruct (thread_id_generate_spec env s) as (tid & s' & Hrun & Hid & _).
    exists tid, s'. split_and!; [done..|]. by apply thread_id_no_comma.
  - intros env filename file s s' message found Hreach Hopen Hrun.
    apply (add_message_success _ _ _ _ _ Hopen) in Hrun.
    destruct (reachable_index_ok s Hreach) as [Hdb _].
    pose proof (thread_set_ok env s (parents_of message) (message_id_of message) Hdb)
      as Hok.
    pose proof (document_for_slot_thread env filename message s) as Hslot.
    exists (document_for env filename message s). split_and!; [done| |].
    + intros Hthread.
      assert (thread_set env s (parents_of message) (message_id_of message) ≠ [])
        as Hne.
      { destruct Hthread as [[id Hid]|Hids].
        - by eapply thread_set_nonempty.
        - destruct (nonempty_elem _ Hids) as [x Hx].
          apply (thread_set_contains env) in Hx. intros Hnil.
          rewrite Hnil in Hx. by apply elem_of_nil in Hx. }
      destruct (thread_set env s (parents_of message) (message_id_of message))
        as [|id ids]; [done|].
      by exists id, ids.
    + intros [Hid Hfound].
      assert (thread_set env s (parents_of message) (message_id_of message) = [])
        as Hnil.
      { unfold thread_set. fold found. rewrite Hfound, Hid.
        destruct (g_hash_table_get_keys (table_of [])) as [|k ks] eqn:Hkeys; [done|].
        assert (k ∈ g_hash_table_get_keys (table_of [])) as Hk
          by (rewrite Hkeys; left).
        apply (get_keys_elem [] k) in Hk. by apply elem_of_nil in Hk. }
      rewrite Hnil in Hslot. unfold get_value. by rewrite Hslot.
  - intros s d Hreach Hd.
    destruct (reachable_index_ok s Hreach) as [Hdb _].
    rewrite Forall_forall in Hdb. destruct (Hdb d Hd) as (Hids & Hslot & _).
    destruct (doc_values d !! NOTMUCH_VALUE_THREAD) as [v|] eqn:Hv.
    + destruct (thread_ids_of d) as [|id ids]; [done|].
      exists id, ids. by simplify_eq.
    + unfold get_value. by rewrite Hv.
Qed.

(** C2, as the code has it.  Let document [A] carry the term ref:[x] and
    document [B] the term msgid:[x], [B] being the first document of the
    index to claim [x], and let slot 1 of [A] not be empty.  Then [A] and
    [B] share a thread id, whichever of the two was added first. *)
Theorem references_share_a_thread {HT : GHashTable} {HL : GHashTableLaws HT}
    {LC : LibC} {PS : Parsers} (s : State) (i j : nat) (A B : Document)
    (x : string) :
  reachable s →
  refers_to (xapian_db s) i j A B x →
  get_value A NOTMUCH_VALUE_THREAD ≠ "" →
  shares A B.
Proof.
  intros Hreach Hrefers Hslot.
  destruct (reachable_index_ok s Hreach) as [Hdb Hshare].
  apply (Hshare i j A B x Hrefers).
  intros Hnil. apply Hslot.
  destruct Hrefers as (Hi & _).
  rewrite Forall_forall in Hdb.
  destruct (Hdb A (list_elem_of_lookup_2 _ _ _ Hi)) as (_ & HA & _).
  rewrite Hnil in HA. unfold get_value. by rewrite HA.
Qed.

(** ** The draws of the generator *)

Lemma generate_digits_draws `{LibC} (s : State) :
  generate_digits (NOTMUCH_THREAD_ID_DIGITS / 8) "" s
  = (Ok (thread_id_of_draws (rand_seed s) (rand_count s)),
     with_rand s (seeded s) (rand_seed s) (4 + rand_count s)).
Proof.
  change (NOTMUCH_THREAD_ID_DIGITS / 8) with 4.
  cbn [generate_digits].
  repeat (rewrite (bind_ok rand _ _ _ _ eq_refl); cbn [rand_seed rand_count seeded with_rand]).
  unfold thread_id_of_draws. rewrite append_nil_l, !append_assoc. reflexivity.
Qed.

(** One call of [thread_id_generate]: the id is rendered from the next
    four draws, and the generator is left seeded and four draws on. *)
Lemma thread_id_generate_draws `{LibC} (env : Env) (s : State) :
  thread_id_generate env s
  = (Ok (thread_id_of_draws (next_seed env s) (next_draw s)),
     with_rand s true (next_seed env s) (4 + next_draw s)).
Proof.
  unfold thread_id_generate, next_seed, next_draw, seed_source.
  destruct (seeded s) eqn:Hseeded.
  - rewrite (bind_ok (mret ()) _ s s _ eq_refl).
    by rewrite generate_digits_draws, Hseeded.
  - destruct (dev_random env) as [value|].
    + rewrite (bind_ok _ _ s (with_rand s true (to_uint32 value) 0) () eq_refl).
      by rewrite generate_digits_draws.
    + rewrite (bind_ok _ _ s (with_rand s true (to_uint32 (time_now env)) 0) () eq_refl).
      by rewrite generate_digits_draws.
Qed.

Lemma minted_draws `{LibC} (env : Env) (s : State) :
  minted env s = thread_id_of_draws (next_seed env s) (next_draw s).
Proof. unfold minted. by rewrite thread_id_generate_draws. Qed.

Lemma read_only_generator (s s' : State) :
  read_only s s' → generator s' = generator s.
Proof. by intros ->. Qed.

Lemma generator_next (env : Env) (s s' : State) :
  generator s' = generator s →
  next_seed env s' = next_seed env s ∧ next_draw s' = next_draw s.
Proof.
  unfold generator, next_seed, next_draw. intros Hg.
  injection Hg as Hseeded Hseed Hcount. by rewrite Hseeded, Hseed, Hcount.
Qed.

Lemma post_add_document_generator (doc : Document) (s : State) :
  post (add_document doc) s
       (λ _ s', generator s' = generator s) (λ s', generator s' = generator s).
Proof.
  unfold post, add_document, xapian_call.
  by destruct (xapian_faults s) as [|[msg|] fl].
Qed.

(** The [try] block runs the generator once when the resolver finds nothing
    for a message with a Message-ID, and not at all otherwise; a throw may
    come before or after that. *)
Lemma add_message_try_generator `{GHashTable, LibC, Parsers} (env : Env)
    (filename : string) (message : GMimeMessage) (s : State) :
  post (add_message_try env filename message) s
       (λ _ s',
          generator s'
          = if bool_decide
                 (g_hash_table_get_keys
                    (table_of (discovery (xapian_db s) (parents_of message)
                                 (message_id_of message))) = []
                  ∧ is_Some (message_id_of message))
            then (true, next_seed env s, 4 + next_draw s)
            else generator s)
       (λ s', generator s' = generator s
              ∨ generator s' = (true, next_seed env s, 4 + next_draw s)).
Proof.
  unfold add_message_try. cbv zeta. apply post_bind.
  eapply post_mono;
    [apply find_thread_ids_post| |by intros s' ?%read_only_generator; left].
  change (parse_references (parse_references [] (header_references message))
            (header_in_reply_to message)) with (parents_of message).
  intros ks s1 [Hs1%read_only_generator Hks].
  destruct (generator_next env s s1 Hs1) as [Hseed Hdraw].
  apply post_bind.
  destruct ks as [|k ks].
  - cbn [length Nat.eqb negb]. destruct (message_id_of message) as [id|].
    + rewrite bool_decide_eq_true_2 by (split; [done|by eexists]).
      apply post_bind. unfold post at 1. rewrite thread_id_generate_draws.
      apply post_ret. apply post_bind.
      eapply post_mono; [apply post_add_document_generator| |].
      * intros u s3 Hs3. apply post_ret. rewrite Hs3, Hseed, Hdraw. done.
      * intros s3 Hs3. right. rewrite Hs3, Hseed, Hdraw. done.
    + rewrite bool_decide_eq_false_2 by (by intros [_ [? ?]]).
      apply post_ret. apply post_bind.
      eapply post_mono; [apply post_add_document_generator| |].
      * intros u s3 Hs3. apply post_ret. congruence.
      * intros s3 Hs3. left. congruence.
  - rewrite bool_decide_eq_false_2 by (rewrite <- Hks; by intros [? _]).
    cbn [length Nat.eqb negb]. rewrite thread_ids_loop_spec.
    apply post_ret. apply post_bind.
    eapply post_mono; [apply post_add_document_generator| |].
    + intros u s3 Hs3. apply post_ret. congruence.
    + intros s3 Hs3. left. congruence.
Qed.

(** ** The ids of the index are those of the process *)

Section Minted.
Context {HT : GHashTable} {HL : GHashTableLaws HT} {LC : LibC} {PS : Parsers}.

(** What a call does to the index and to the generator together. *)
Lemma add_message_generator (env : Env) (filename : string) (s : State) :
  let s' := snd (notmuch_database_add_message env filename s) in
  (xapian_db s' = xapian_db s
   ∧ (generator s' = generator s
      ∨ generator s' = (true, next_seed env s, 4 + next_draw s)))
  ∨ ∃ file,
      fopen env filename = inr file
      ∧ xapian_db s'
        = xapian_db s
          ++ [document_for env filename (g_mime_parser_construct_message file) s]
      ∧ generator s'
        = if bool_decide
               (g_hash_table_get_keys
                  (table_of (discovery (xapian_db s)
                               (parents_of (g_mime_parser_construct_message file))
                               (message_id_of (g_mime_parser_construct_message file))))
                = []
                ∧ is_Some (message_id_of (g_mime_parser_construct_message file)))
          then (true, next_seed env s, 4 + next_draw s)
          else generator s.
Proof.
  intros s'. subst s'. unfold notmuch_database_add_message.
  destruct (fopen env filename) as [errno|file]; [left; split; [done|by left]|].
  pose proof (add_message_try_post env filename
                (g_mime_parser_construct_message file) s) as Hdb.
  pose proof (add_message_try_generator env filename
                (g_mime_parser_construct_message file) s) as Hgen.
  unfold post in Hdb, Hgen.
  destruct (add_message_try env filename _ s) as [[u|msg] s'].
  - right. by exists file.
  - left. done.
Qed.

Lemma minted_by_process_add (env : Env) (filename : string) (s : State) :
  Forall doc_ok (xapian_db s) →
  minted_by_process s →
  minted_by_process (snd (notmuch_database_add_message env filename s)).
Proof.
  intros Hok (m & Hm & Hids).
  assert (∀ s', generator s' = (true, next_seed env s, 4 + next_draw s) →
            next_draw s' = 4 * S m
            ∧ ∀ k, k < S m →
                thread_id_of_draws (rand_seed s') (4 * k)
                = thread_id_of_draws (next_seed env s) (4 * k)) as Hadv.
  { intros s' Hg. injection Hg as Hseeded Hseed Hcount.
    unfold next_draw. rewrite Hseeded, Hcount, Hseed, Hm. split; [lia|done]. }
  assert (∀ d tid, d ∈ xapian_db s → tid ∈ thread_ids_of d →
            ∃ k, k < m ∧ tid = thread_id_of_draws (next_seed env s) (4 * k))
    as Hids'.
  { intros d tid Hd Htid. destruct (Hids d tid Hd Htid) as (k & Hk & ->).
    exists k. split; [done|]. unfold next_seed, next_draw in *.
    destruct (seeded s); [done|lia]. }
  assert (∀ s', generator s' = generator s →
            next_draw s' = 4 * m ∧ rand_seed s' = rand_seed s) as Hsame.
  { intros s' Hg. injection Hg as Hseeded Hseed Hcount.
    unfold next_draw in *. by rewrite Hseeded, Hcount, Hseed. }
  destruct (add_message_generator env filename s)
    as [[Hdb [Hg|Hg]]|(file & _ & Hdb & Hg)].
  - destruct (Hsame _ Hg) as [Hdraw Hseed].
    exists m. split; [done|]. rewrite Hdb, Hseed. exact Hids.
  - destruct (Hadv _ Hg) as [Hdraw Hseed].
    exists (S m). split; [done|]. rewrite Hdb.
    intros d tid Hd Htid. destruct (Hids' d tid Hd Htid) as (k & Hk & ->).
    exists k. split; [lia|]. symmetry. apply Hseed. lia.
  - set (message := g_mime_parser_construct_message file) in *.
    pose proof (document_for_ids env filename message s Hok) as Hdoc.
    destruct (g_hash_table_get_keys _) as [|key keys] eqn:Hkeys.
    + destruct (message_id_of message) as [id|] eqn:Hid.
      * (* a new thread: the id of the next four draws *)
        rewrite bool_decide_eq_true_2 in Hg by (split; [done|by eexists]).
        destruct (Hadv _ Hg) as [Hdraw Hseed].
        exists (S m). split; [done|]. rewrite Hdb.
        intros d tid [Hd|Hd%list_elem_of_singleton]%elem_of_app Htid.
        -- destruct (Hids' d tid Hd Htid) as (k & Hk & ->).
           exists k. split; [lia|]. symmetry. apply Hseed. lia.
        -- subst d. rewrite Hdoc in Htid. unfold thread_set in Htid.
           rewrite Hkeys in Htid.
           apply list_elem_of_singleton in Htid as ->.
           exists m. split; [lia|]. rewrite Hseed by lia.
           by rewrite minted_draws, Hm.
      * (* no thread at all *)
        rewrite bool_decide_eq_false_2 in Hg by (by intros [_ [? ?]]).
        destruct (Hsame _ Hg) as [Hdraw Hseed].
        exists m. split; [done|]. rewrite Hdb, Hseed.
        intros d tid [Hd|Hd%list_elem_of_singleton]%elem_of_app Htid; [eauto|].
        subst d. rewrite Hdoc in Htid. unfold thread_set in Htid.
        rewrite Hkeys in Htid. by apply elem_of_nil in Htid.
    + (* the threads of documents of the index *)
      rewrite bool_decide_eq_false_2 in Hg by (by intros [? _]).
      destruct (Hsame _ Hg) as [Hdraw Hseed].
      exists m. split; [done|]. rewrite Hdb, Hseed.
      intros d tid [Hd|Hd%list_elem_of_singleton]%elem_of_app Htid; [eauto|].
      subst d. rewrite Hdoc in Htid. unfold thread_set in Htid.
      rewrite Hkeys in Htid.
      assert (tid ∈ key :: keys) as Hin by (by destruct (message_id_of message)).
      rewrite <- Hkeys in Hin.
      apply (proj1 (get_keys_elem _ tid)) in Hin.
      apply elem_of_discovery in Hin
        as [(d & Hd & _ & Hx)|(p & d & _ & Hf & Hx)]; [eauto|].
      apply first_carrier_elem in Hf. eauto.
Qed.

Lemma reachable_minted_by_process (s : State) :
  reachable s → minted_by_process s.
Proof.
  induction 1 as [|s fl Hs IH|s env filename Hs IH].
  - exists 0. split; [done|]. by intros d tid ?%elem_of_nil.
  - exact IH.
  - apply minted_by_process_add; [|done]. by destruct (reachable_index_ok s Hs).
Qed.

End Minted.

(** C5.  Let no fault be pending and let the resolver return no thread id.
    Then the call returns success and commits a document [d].  If the
    message has a Message-ID, the generator is run once: the new id is
    rendered from the next four values of its stream, which are drawn by
    this call, so that the generator is left seeded and four values on; it
    has the format of a thread id, [d] has exactly one term with the thread
    prefix, the one of the new id, and the new id is its slot 1.  The code
    does not compare the new id with the index; on an index built by the
    process it is the id of no document as long as the stream does not
    render the same id at an earlier position.  If the message has no
    Message-ID, the generator is not run, [d] has no msgid term and no thread
    term, and its slots 0 and 1 are empty. *)
Theorem isolated_message {HT : GHashTable} {HL : GHashTableLaws HT}
    {LC : LibC} {PS : Parsers}
    (env : Env) (filename file : string) (s s1 : State) :
  let message := g_mime_parser_construct_message file in
  let new_id := thread_id_of_draws (next_seed env s) (next_draw s) in
  fopen env filename = inr file →
  xapian_faults s = [] →
  find_thread_ids (parents_of message) (message_id_of message) s = (Ok [], s1) →
  ∃ d s',
    notmuch_database_add_message env filename s
    = (Returned NOTMUCH_STATUS_SUCCESS, s')
    ∧ xapian_db s' = xapian_db s ++ [d]
    ∧ match message_id_of message with
      | Some _ =>
          thread_id_generate env s
          = (Ok new_id, with_rand s true (next_seed env s) (4 + next_draw s))
          ∧ generator s' = (true, next_seed env s, 4 + next_draw s)
          ∧ is_thread_id new_id = true
          ∧ (∀ t, is_thread_term t = true →
                  (has_term d t ↔ t = find_prefix "thread" +:+ new_id))
          ∧ get_value d NOTMUCH_VALUE_THREAD = new_id
          ∧ (reachable s →
             (∀ k, 4 * k < next_draw s →
                   thread_id_of_draws (next_seed env s) (4 * k) ≠ new_id) →
             ∀ d0, d0 ∈ xapian_db s → new_id ∉ thread_ids_of d0)
      | None =>
          generator s' = generator s
          ∧ (∀ t, is_msgid_term t = true → ¬ has_term d t)
          ∧ (∀ t, is_thread_term t = true → ¬ has_term d t)
          ∧ get_value d NOTMUCH_VALUE_MESSAGE_ID = ""
          ∧ get_value d NOTMUCH_VALUE_THREAD = ""
      end.
Proof.
  intros message new_id Hopen Hfl Hfind.
  rewrite (find_thread_ids_quiet _ _ s Hfl) in Hfind.
  assert (g_hash_table_get_keys
            (table_of (discovery (xapian_db s) (parents_of message)
                         (message_id_of message))) = []) as Hkeys
    by congruence.
  destruct (add_message_try_quiet env filename message s Hfl) as (s' & Hrun & Hdb).
  pose proof (post_elim_ok _ _ _ _ _ _
                (add_message_try_generator env filename message s) Hrun) as Hgen.
  cbv beta in Hgen.
  exists (document_for env filename message s), s'. split_and!.
  - unfold notmuch_database_add_message. rewrite Hopen. fold message.
    by rewrite Hrun.
  - done.
  - pose proof (document_for_terms env filename message s) as Hterms.
    pose proof (document_for_get_value_thread env filename message s) as Hslot.
    pose proof (document_for_slot_message_id env filename message s) as Hslot0.
    unfold thread_set in Hterms, Hslot. rewrite Hkeys in Hterms, Hslot.
    assert (minted env s = new_id) as Hminted by apply minted_draws.
    destruct (message_id_of message) as [id|].
    + rewrite bool_decide_eq_true_2 in Hgen by (split; [done|by eexists]).
      rewrite Hminted in Hterms, Hslot.
      assert (is_thread_id new_id = true) as Hformat
        by (rewrite <- Hminted; apply minted_is_thread_id).
      split_and!.
      * apply thread_id_generate_draws.
      * done.
      * done.
      * intros t Ht. rewrite Hterms. split.
        -- intros [(p & _ & -> & _)|[(id' & _ & -> & _)|(id' & Hin & -> & _)]];
             [done..|].
           by apply list_elem_of_singleton in Hin as ->.
        -- intros ->. right; right. exists new_id.
           split_and!; [left|done|]. by apply thread_term_fits.
      * done.
      * intros Hreach Hstream d0 Hd0 Hin.
        destruct (reachable_minted_by_process s Hreach) as (m & Hm & Hids).
        destruct (Hids d0 new_id Hd0 Hin) as (k & Hk & Heq).
        apply (Hstream k); [lia|]. rewrite Heq. unfold next_seed, next_draw in *.
        destruct (seeded s); [done|lia].
    + rewrite bool_decide_eq_false_2 in Hgen by (by intros [_ [? ?]]).
      split_and!.
      * done.
      * intros t Ht. rewrite Hterms.
        intros [(p & _ & -> & _)|[(id' & ? & _)|(id' & Hin & _)]]; [done..|].
        by apply elem_of_nil in Hin.
      * intros t Ht. rewrite Hterms.
        intros [(p & _ & -> & _)|[(id' & ? & _)|(id' & Hin & _)]]; [done..|].
        by apply elem_of_nil in Hin.
      * unfold get_value. by rewrite Hslot0.
      * done.
Qed.

(** C10.  Let [d] be the first document of the index that carries the term
    msgid:[parent]; [later] holds whatever follows it, among them the other
    documents that carry the term.  With no fault pending, the lookup of
    [parent] returns [d], and for a message with no child in the index whose
    only parent is [parent] the resolver returns the keys of the table that
    holds the thread ids of [d] and nothing else. *)
Theorem first_duplicate_only {HT : GHashTable} (s : State)
    (earlier later : list Document) (d : Document) (parent : string)
    (message_id : option string) :
  xapian_db s = earlier ++ d :: later →
  xapian_faults s = [] →
  Forall (λ d', ¬ has_term d' (find_prefix "msgid" +:+ parent)) earlier →
  has_term d (find_prefix "msgid" +:+ parent) →
  Forall (λ d', ¬ has_term d' (find_prefix "ref" +:+ printf_s message_id))
         (xapian_db s) →
  find_message_by_message_id (Some parent) s = (Ok d, s)
  ∧ find_thread_ids [parent] message_id s
    = (Ok (g_hash_table_get_keys (table_of (thread_ids_of d))), s).
Proof.
  intros Hdb Hfl Hearlier Hd Hchildren.
  assert (first_carrier (xapian_db s) (find_prefix "msgid" +:+ parent) = Some d)
    as Hfirst.
  { apply (first_carrier_at _ _ (length earlier)).
    - rewrite Hdb. by apply list_lookup_middle.
    - done.
    - intros k d' Hk Hd'. rewrite Hdb, lookup_app_l in Hd' by done.
      rewrite Forall_forall in Hearlier. apply Hearlier.
      by eapply list_elem_of_lookup_2. }
  split.
  - destruct (find_message_by_message_id_quiet parent s Hfl) as [d' Hrun].
    rewrite Hrun. f_equal. f_equal.
    destruct (post_elim_ok _ _ _ _ _ _
                (post_find_message_by_message_id parent s) Hrun) as [_ ->].
    by rewrite Hfirst.
  - rewrite find_thread_ids_quiet by done. do 3 f_equal.
    unfold discovery. cbn [flat_map]. rewrite Hfirst, app_nil_r.
    destruct (filter _ (xapian_db s)) as [|d' children] eqn:Hfilter; [done|].
    assert (d' ∈ filter (λ d0, carries (find_prefix "ref" +:+ printf_s message_id) d0 = true)
                        (xapian_db s)) as [Hc Hd']%list_elem_of_filter
      by (rewrite Hfilter; left).
    apply carries_has_term in Hc.
    rewrite Forall_forall in Hchildren. by destruct (Hchildren d' Hd').
Qed.

(** ** The claims on the small world *)

(** C1 fails on the thread merge.  With <a@x> and <b@x> in the index, each
    in a thread of its own, the message <c@x> with References <a@x> <b@x>
    discovers the thread of <a@x> first; GLib's table lists the thread of
    <b@x> first, and so does slot 1. *)
Lemma slot_thread_not_in_discovery_order :
  let s := Scenario.add_all GLib.table ["a"; "b"] initial_state in
  let message := @g_mime_parser_construct_message Scenario.parsers "c_refs_a_b" in
  let ids := discovery (xapian_db s) (@parents_of Scenario.parsers message)
                       (message_id_of message) in
  let r := @notmuch_database_add_message GLib.table Scenario.libc
             Scenario.parsers Scenario.env "c_refs_a_b" s in
  let d := default empty_document (last (xapian_db (snd r))) in
  fst r = Returned NOTMUCH_STATUS_SUCCESS
  ∧ xapian_db (snd r) = xapian_db s ++ [d]
  ∧ join_ids (discovery_order ids)
    = "2d3da59e41e9d87f01c2104c47604895,325a7daa5e4d7d9b4425e5381149d911"
  ∧ get_value d NOTMUCH_VALUE_THREAD
    = "325a7daa5e4d7d9b4425e5381149d911,2d3da59e41e9d87f01c2104c47604895"
  ∧ get_value d NOTMUCH_VALUE_THREAD ≠ join_ids (discovery_order ids).
Proof. vm_compute. by split_and!. Qed.

(** The same merge, run from two states that differ in the state of the
    generator only: both runs persist the same document, its slot 1 listing
    the keys of the table. *)
Lemma slot_thread_lists_table_keys_witness :
  let s1 := Scenario.add_all GLib.table ["a"; "b"] initial_state in
  let s2 := with_rand s1 true 77 3 in
  let r1 := @notmuch_database_add_message GLib.table Scenario.libc
              Scenario.parsers Scenario.env "c_refs_a_b" s1 in
  let r2 := @notmuch_database_add_message GLib.table Scenario.libc
              Scenario.parsers Scenario.env "c_refs_a_b" s2 in
  let message := @g_mime_parser_construct_message Scenario.parsers "c_refs_a_b" in
  let ids := discovery (xapian_db s1) (@parents_of Scenario.parsers message)
                       (message_id_of message) in
  let keys := @g_hash_table_get_keys GLib.table
                (@table_of GLib.table ids) in
  ∃ d, xapian_db (snd r1) = xapian_db s1 ++ [d]
       ∧ xapian_db (snd r2) = xapian_db s2 ++ [d]
       ∧ get_value d NOTMUCH_VALUE_THREAD = join_ids keys
       ∧ NoDup keys
       ∧ ∀ x, x ∈ keys ↔ x ∈ ids.
Proof.
  intros s1 s2 r1 r2 message ids keys.
  refine (@slot_thread_lists_table_keys GLib.table glib_table_laws
            Scenario.libc Scenario.parsers Scenario.env Scenario.env
            "c_refs_a_b" "c_refs_a_b" s1 s2 (snd r1) (snd r2)
            eq_refl eq_refl eq_refl _ _ _).
  - vm_compute. discriminate.
  - vm_compute. reflexivity.
  - vm_compute. reflexivity.
Defined.

(** C2 fails for a message id of 245 bytes.  The message "long" has it as
    its Message-ID, the message "re_long" names it in In-Reply-To; neither
    the msgid term nor the ref term fits into 245 bytes, the lookup finds
    nothing, and the two documents get a thread each. *)
Lemma long_reference_shares_no_thread :
  let s := Scenario.add_all GLib.table ["long"; "re_long"] initial_state in
  let B := default empty_document (xapian_db s !! 0) in
  let A := default empty_document (xapian_db s !! 1) in
  xapian_db s = [B; A]
  ∧ message_id_of (@g_mime_parser_construct_message Scenario.parsers "long")
    = Some Scenario.long_id
  ∧ Scenario.long_id
    ∈ @parents_of Scenario.parsers
        (@g_mime_parser_construct_message Scenario.parsers "re_long")
  ∧ thread_ids_of B = ["2d3da59e41e9d87f01c2104c47604895"]
  ∧ thread_ids_of A = ["325a7daa5e4d7d9b4425e5381149d911"]
  ∧ ¬ shares A B.
Proof.
  intros s B A.
  assert (thread_ids_of B = ["2d3da59e41e9d87f01c2104c47604895"]) as HB
    by (vm_compute; reflexivity).
  assert (thread_ids_of A = ["325a7daa5e4d7d9b4425e5381149d911"]) as HA
    by (vm_compute; reflexivity).
  split_and!; [vm_compute; reflexivity|vm_compute; reflexivity|vm_compute; left|done|done|].
  intros (tid & HinA & HinB). rewrite HA in HinA. rewrite HB in HinB.
  apply list_elem_of_singleton in HinA, HinB. congruence.
Qed.

(** The other two ways in which a reference can fail to share a thread.
    When two documents claim <a@x>, a reply gets the thread of the first
    and shares nothing with the second. *)
Lemma second_claimant_shares_no_thread :
  let s := Scenario.add_all GLib.table ["a"; "a2"; "b_re_a"] initial_state in
  let B := default empty_document (xapian_db s !! 1) in
  let A := default empty_document (xapian_db s !! 2) in
  has_term A (find_prefix "ref" +:+ "a@x")
  ∧ has_term B (find_prefix "msgid" +:+ "a@x")
  ∧ ¬ shares A B.
Proof.
  intros s B A.
  assert (thread_ids_of B = ["325a7daa5e4d7d9b4425e5381149d911"]) as HB
    by (vm_compute; reflexivity).
  assert (thread_ids_of A = ["2d3da59e41e9d87f01c2104c47604895"]) as HA
    by (vm_compute; reflexivity).
  split_and!; [vm_compute; by eexists..|].
  intros (tid & HinA & HinB). rewrite HA in HinA. rewrite HB in HinB.
  apply list_elem_of_singleton in HinA, HinB. congruence.
Qed.

(** A reply without Message-ID that is added before its parent has no
    thread id to share. *)
Lemma anonymous_reply_shares_no_thread :
  let s := Scenario.add_all GLib.table ["anon_re_a"; "a"] initial_state in
  let A := default empty_document (xapian_db s !! 0) in
  let B := default empty_document (xapian_db s !! 1) in
  has_term A (find_prefix "ref" +:+ "a@x")
  ∧ has_term B (find_prefix "msgid" +:+ "a@x")
  ∧ get_value A NOTMUCH_VALUE_THREAD = ""
  ∧ ¬ shares A B.
Proof.
  intros s A B.
  assert (thread_ids_of A = []) as HA by (vm_compute; reflexivity).
  split_and!; [vm_compute; by eexists..|vm_compute; reflexivity|].
  intros (tid & HinA & _). rewrite HA in HinA. by apply elem_of_nil in HinA.
Qed.

(** The parent added after its reply: the lookup of the children gives the
    parent the thread of the reply. *)
Lemma parent_after_reply_shares_thread :
  let s := Scenario.add_all GLib.table ["b_re_a"; "a"] initial_state in
  let A := default empty_document (xapian_db s !! 0) in
  let B := default empty_document (xapian_db s !! 1) in
  thread_ids_of A = ["2d3da59e41e9d87f01c2104c47604895"]
  ∧ thread_ids_of B = ["2d3da59e41e9d87f01c2104c47604895"].
Proof. by vm_compute. Qed.

(** A reply added after its parent: the two documents share the thread. *)
Lemma references_share_a_thread_witness :
  let s := Scenario.add_all GLib.table ["a"; "b_re_a"] initial_state in
  let B := default empty_document (xapian_db s !! 0) in
  let A := default empty_document (xapian_db s !! 1) in
  shares A B.
Proof.
  intros s B A.
  refine (@references_share_a_thread GLib.table glib_table_laws
            Scenario.libc Scenario.parsers s 1 0 A B "a@x" _ _ _).
  - apply add_all_reachable, reach_init.
  - unfold refers_to. split_and!.
    + vm_compute. reflexivity.
    + vm_compute. reflexivity.
    + lia.
    + vm_compute. eexists. reflexivity.
    + vm_compute. eexists. reflexivity.
    + intros k d' Hk. lia.
  - vm_compute. discriminate.
Defined.

(** C3 fails for a message without Message-ID and without references: the
    call succeeds, and the document has no term at all and no slot 1. *)
Lemma anonymous_message_has_no_thread :
  let r := @notmuch_database_add_message GLib.table Scenario.libc
             Scenario.parsers Scenario.env "anon" initial_state in
  let d := default empty_document (xapian_db (snd r) !! 0) in
  fst r = Returned NOTMUCH_STATUS_SUCCESS
  ∧ xapian_db (snd r) = [d]
  ∧ doc_terms d = ∅
  ∧ (∀ t, is_thread_term t = true → ¬ has_term d t)
  ∧ get_value d NOTMUCH_VALUE_THREAD = "".
Proof.
  intros r d.
  assert (doc_terms d = ∅) as Hterms by (vm_compute; reflexivity).
  split_and!; [vm_compute; reflexivity|vm_compute; reflexivity|done| |vm_compute; reflexivity].
  intros t _ [n Hn]. rewrite Hterms, lookup_empty in Hn. discriminate.
Qed.

(** A message with a Message-ID, added to an index of one document. *)
Lemma persisted_document_has_thread_witness :
  let s := Scenario.add_all GLib.table ["a"] initial_state in
  let r := @notmuch_database_add_message GLib.table Scenario.libc
             Scenario.parsers Scenario.env "b_re_a" s in
  ∃ d, xapian_db (snd r) = xapian_db s ++ [d]
       ∧ (∃ t, is_thread_term t = true ∧ has_term d t)
       ∧ get_value d NOTMUCH_VALUE_THREAD ≠ "".
Proof.
  intros s r.
  refine (@persisted_document_has_thread GLib.table glib_table_laws
            Scenario.libc Scenario.parsers Scenario.env "b_re_a" "b_re_a"
            s (snd r) _ eq_refl _ _).
  - apply add_all_reachable, reach_init.
  - left. vm_compute. eexists. reflexivity.
  - vm_compute. reflexivity.
Defined.

(** The isolated message <b@x> on the index that holds <a@x>, added by the
    same process: the new id is rendered from the fifth to the eighth value
    of the stream, and it is not the id of <a@x>. *)
Lemma isolated_message_witness :
  let s := Scenario.add_all GLib.table ["a"] initial_state in
  let new_id := "325a7daa5e4d7d9b4425e5381149d911" in
  ∃ d s',
    @notmuch_database_add_message GLib.table Scenario.libc Scenario.parsers
      Scenario.env "b" s
    = (Returned NOTMUCH_STATUS_SUCCESS, s')
    ∧ xapian_db s' = xapian_db s ++ [d]
    ∧ @thread_id_of_draws Scenario.libc 2009 4 = new_id
    ∧ @thread_id_generate Scenario.libc Scenario.env s
      = (Ok new_id, with_rand s true 2009 8)
    ∧ generator s' = (true, 2009%Z, 8)
    ∧ is_thread_id new_id = true
    ∧ (∀ t, is_thread_term t = true →
            (has_term d t ↔ t = find_prefix "thread" +:+ new_id))
    ∧ get_value d NOTMUCH_VALUE_THREAD = new_id
    ∧ ∀ d0, d0 ∈ xapian_db s → new_id ∉ thread_ids_of d0.
Proof.
  intros s new_id.
  assert (@find_thread_ids GLib.table
            (@parents_of Scenario.parsers
               (@g_mime_parser_construct_message Scenario.parsers "b"))
            (message_id_of (@g_mime_parser_construct_message Scenario.parsers "b")) s
          = (Ok [], s)) as Hfind by (vm_compute; reflexivity).
  destruct (@isolated_message GLib.table glib_table_laws Scenario.libc
              Scenario.parsers Scenario.env "b" "b" s s eq_refl eq_refl Hfind)
    as (d & s' & Hrun & Hdb & Hcase).
  change (message_id_of (@g_mime_parser_construct_message Scenario.parsers "b"))
    with (Some "b@x") in Hcase.
  assert (@thread_id_of_draws Scenario.libc (next_seed Scenario.env s) (next_draw s)
          = new_id) as Hid by (vm_compute; reflexivity).
  assert (next_seed Scenario.env s = 2009%Z) as Hseed by (vm_compute; reflexivity).
  assert (next_draw s = 4) as Hdraw by (vm_compute; reflexivity).
  rewrite Hid, Hseed, Hdraw in Hcase.
  destruct Hcase as (Hgen & Hstate & Hformat & Hterm & Hslot & Hnew).
  exists d, s'. split_and!; [done| done| |done..|].
  - vm_compute. reflexivity.
  - apply Hnew.
    + apply add_all_reachable, reach_init.
    + intros k Hk. assert (k = 0) as -> by lia. vm_compute. discriminate.
Defined.

(** A second process with the seed of the first: the id that it generates
    for the isolated message <b@x> is the one that the first process gave
    to <a@x>.  The code compares no new id with the index. *)
Lemma new_process_same_seed_reuses_id :
  let s := Scenario.add_all GLib.table ["a"] initial_state in
  let restarted := with_rand s false 1 0 in
  let r := @notmuch_database_add_message GLib.table Scenario.libc
             Scenario.parsers Scenario.env "b" restarted in
  let a := default empty_document (xapian_db (snd r) !! 0) in
  let b := default empty_document (xapian_db (snd r) !! 1) in
  @find_thread_ids GLib.table [] (Some "b@x") restarted = (Ok [], restarted)
  ∧ fst r = Returned NOTMUCH_STATUS_SUCCESS
  ∧ xapian_db (snd r) = [a; b]
  ∧ get_value a NOTMUCH_VALUE_MESSAGE_ID = "a@x"
  ∧ get_value b NOTMUCH_VALUE_MESSAGE_ID = "b@x"
  ∧ get_value b NOTMUCH_VALUE_THREAD = get_value a NOTMUCH_VALUE_THREAD
  ∧ get_value b NOTMUCH_VALUE_THREAD = "2d3da59e41e9d87f01c2104c47604895".
Proof. intros s restarted r a b. split_and!; vm_compute; reflexivity. Qed.

(** The message without a Message-ID and without references is committed
    with no slot 1: what is read from it is the empty string, which is no
    list of thread ids. *)
Lemma anonymous_message_slot_thread_is_empty :
  let r := @notmuch_database_add_message GLib.table Scenario.libc
             Scenario.parsers Scenario.env "anon" initial_state in
  let d := default empty_document (xapian_db (snd r) !! 0) in
  fst r = Returned NOTMUCH_STATUS_SUCCESS
  ∧ xapian_db (snd r) = [d]
  ∧ get_value d NOTMUCH_VALUE_THREAD = ""
  ∧ ¬ ∃ id ids,
        Forall (λ id', is_thread_id id' = true) (id :: ids)
        ∧ get_value d NOTMUCH_VALUE_THREAD = join_ids (id :: ids).
Proof.
  intros r d.
  assert (get_value d NOTMUCH_VALUE_THREAD = "") as Hslot
    by (vm_compute; reflexivity).
  split_and!; [vm_compute; reflexivity|vm_compute; reflexivity|done|].
  intros (id & ids & Hids & Hjoin). rewrite Hslot in Hjoin.
  apply (join_ids_nonempty (id :: ids)); [done| |done].
  eapply Forall_impl; [exact Hids|]. intros id' Hid'. by apply thread_id_plain.
Qed.

(** The index after the thread merge: slot 1 of the merging document is a
    list of two ids. *)
Lemma thread_id_format_witness :
  let s := Scenario.add_all GLib.table ["a"; "b"] initial_state in
  let r := @notmuch_database_add_message GLib.table Scenario.libc
             Scenario.parsers Scenario.env "c_refs_a_b" s in
  let d := default empty_document (xapian_db (snd r) !! 2) in
  xapian_db (snd r) = xapian_db s ++ [d]
  ∧ doc_values d !! NOTMUCH_VALUE_THREAD
    = Some "325a7daa5e4d7d9b4425e5381149d911,2d3da59e41e9d87f01c2104c47604895"
  ∧ ∃ id ids,
      Forall (λ id', is_thread_id id' = true) (id :: ids)
      ∧ doc_values d !! NOTMUCH_VALUE_THREAD = Some (join_ids (id :: ids)).
Proof.
  intros s r d.
  assert (@notmuch_database_add_message GLib.table Scenario.libc
            Scenario.parsers Scenario.env "c_refs_a_b" s
          = (Returned NOTMUCH_STATUS_SUCCESS, snd r)) as Hrun
    by (vm_compute; reflexivity).
  assert (xapian_db (snd r) = xapian_db s ++ [d]) as Hlast
    by (vm_compute; reflexivity).
  pose proof (proj1 (proj2 (@thread_id_format GLib.table glib_table_laws
                              Scenario.libc Scenario.parsers))
                Scenario.env "c_refs_a_b" "c_refs_a_b" s (snd r)) as Hcall.
  cbv zeta in Hcall.
  destruct (Hcall (add_all_reachable _ _ _ reach_init) eq_refl Hrun)
    as (d' & Hdb & Hformat & _).
  assert (d' = d) as Hd.
  { rewrite Hlast in Hdb. by apply app_inj_tail in Hdb as [_ ?]. }
  rewrite Hd in Hformat. split_and!; [done|vm_compute; reflexivity|].
  apply Hformat. left. vm_compute. by eexists.
Defined.

(** Two documents claim <a@x>; the reply <b@x> resolves to the thread of
    the first of them only. *)
Lemma first_duplicate_only_witness :
  let s := Scenario.add_all GLib.table ["a"; "a2"] initial_state in
  let d := default empty_document (xapian_db s !! 0) in
  let d2 := default empty_document (xapian_db s !! 1) in
  find_message_by_message_id (Some "a@x") s = (Ok d, s)
  ∧ @find_thread_ids GLib.table ["a@x"] (Some "b@x") s
    = (Ok (@g_hash_table_get_keys GLib.table
             (@table_of GLib.table (thread_ids_of d))), s).
Proof.
  intros s d d2.
  refine (@first_duplicate_only GLib.table s [] [d2] d "a@x" (Some "b@x")
            _ eq_refl _ _ _).
  - vm_compute. reflexivity.
  - constructor.
  - vm_compute. eexists. reflexivity.
  - repeat constructor; vm_compute; intros [n Hn]; discriminate.
Defined.

(** * More of the code *)

(** ** The schema *)

Lemma scan_prefix_None (table : list prefix_t) (nm : string) :
  scan_prefix table nm = None ↔ nm ∉ (name <$> table).
Proof.
  induction table as [|p table IH]; simpl.
  - split; [intros _; apply not_elem_of_nil|done].
  - rewrite not_elem_of_cons. destruct (String.eqb_spec nm (name p)) as [->|Hne].
    + split; [done|]. by intros [? _].
    + rewrite IH. tauto.
Qed.

(** X1 ([find_prefix]).  The prefix of a name is empty exactly when the
    name is in neither table: every field of the schema has a prefix, and
    any other name falls back to a term without prefix. *)
Theorem find_prefix_unknown (nm : string) :
  find_prefix nm = "" ↔ ¬ known_field nm.
Proof.
  unfold known_field. rewrite fmap_app, elem_of_app. split.
  - intros Hempty [Hin|Hin]; revert Hempty;
      simpl in Hin; rewrite ?elem_of_cons in Hin;
      repeat (destruct Hin as [->|Hin]; [by vm_compute|]);
      by apply elem_of_nil in Hin.
  - intros Hout. unfold find_prefix.
    assert (scan_prefix NORMAL_PREFIX nm = None) as ->
      by (apply scan_prefix_None; tauto).
    assert (scan_prefix BOOLEAN_PREFIX nm = None) as ->
      by (apply scan_prefix_None; tauto).
    done.
Qed.

(** X2 ([find_prefix], [add_term]).  The terms of the schema never collide:
    when two fields of the schema and two values give the same term, the
    fields are the same and the values are the same.  No prefix is the
    beginning of another one. *)
Theorem schema_terms_injective (field1 field2 v1 v2 : string) :
  known_field field1 → known_field field2 →
  find_prefix field1 +:+ v1 = find_prefix field2 +:+ v2 →
  field1 = field2 ∧ v1 = v2.
Proof.
  unfold known_field. simpl. rewrite !elem_of_cons.
  intros H1 H2.
  repeat (destruct H1 as [->|H1]); try (by apply elem_of_nil in H1);
    repeat (destruct H2 as [->|H2]); try (by apply elem_of_nil in H2);
    vm_compute; intros Heq; by simplify_eq.
Qed.

Lemma schema_terms_injective_witness :
  find_prefix "from_email" +:+ "x@y" = find_prefix "from_email" +:+ "x@y"
  ∧ "from_email" = "from_email" ∧ "x@y" = "x@y".
Proof.
  split; [reflexivity|].
  apply (schema_terms_injective "from_email" "from_email" "x@y" "x@y").
  - unfold known_field. simpl. rewrite !elem_of_cons. tauto.
  - unfold known_field. simpl. rewrite !elem_of_cons. tauto.
  - reflexivity.
Defined.

(** ** Thread ids written and read back *)

(** X3 ([insert_thread_id], the loop over [thread_ids] in
    [notmuch_database_add_message]).  What the loop of
    [notmuch_database_add_message] writes into slot 1, [insert_thread_id]
    reads back: for ids that are not empty and hold no comma, it inserts
    exactly these ids, in their order. *)
Theorem thread_ids_round_trip `{GHashTable} (ids : list string) (doc : Document)
    (thread_ids : ghash_t) :
  ids ≠ [] → Forall plain_id ids →
  insert_thread_id thread_ids
    (add_value (fst (thread_ids_loop 0 ids doc "")) NOTMUCH_VALUE_THREAD
               (snd (thread_ids_loop 0 ids doc "")))
  = fold_left g_hash_table_insert ids thread_ids.
Proof.
  intros Hne Hplain.
  rewrite insert_thread_id_fragments. f_equal.
  unfold thread_ids_of, get_value. rewrite lookup_add_value_eq. simpl.
  rewrite thread_ids_loop_spec. simpl.
  destruct ids as [|id ids]; [done|].
  by apply (fragments_join_ids (id :: ids)).
Qed.

Lemma thread_ids_round_trip_witness :
  @insert_thread_id GLib.table GLib.new
    (add_value (fst (thread_ids_loop 0 ["2d3da59e41e9d87f01c2104c47604895"; "x"]
                       empty_document ""))
               NOTMUCH_VALUE_THREAD
               (snd (thread_ids_loop 0 ["2d3da59e41e9d87f01c2104c47604895"; "x"]
                       empty_document "")))
  = fold_left GLib.insert ["2d3da59e41e9d87f01c2104c47604895"; "x"] GLib.new.
Proof.
  apply (@thread_ids_round_trip GLib.table
           ["2d3da59e41e9d87f01c2104c47604895"; "x"] empty_document GLib.new).
  - discriminate.
  - repeat constructor; try discriminate; vm_compute; intros Hin;
      repeat (apply elem_of_cons in Hin as [Hin|Hin]; [discriminate|]);
      by apply elem_of_nil in Hin.
Defined.

(** X4 ([insert_thread_id]).  An empty piece of a slot-1 value is inserted
    like any other: for a value that begins with a comma the code inserts
    the empty string and then the pieces of the rest.  Only after the last
    comma is an empty piece left out: for an id followed by one comma the
    code inserts the id alone. *)
Theorem insert_thread_id_empty_pieces `{GHashTable} (thread_ids : ghash_t)
    (doc1 doc2 : Document) (rest id : string) :
  get_value doc1 NOTMUCH_VALUE_THREAD = "," +:+ rest →
  get_value doc2 NOTMUCH_VALUE_THREAD = id +:+ "," →
  plain_id id →
  insert_thread_id thread_ids doc1
  = fold_left g_hash_table_insert (fragments rest)
              (g_hash_table_insert thread_ids "")
  ∧ insert_thread_id thread_ids doc2 = g_hash_table_insert thread_ids id.
Proof.
  intros Hv1 Hv2 [Hne Hno]. rewrite !insert_thread_id_fragments.
  unfold thread_ids_of. rewrite Hv1, Hv2. split.
  - done.
  - unfold fragments. rewrite fragments_from_no_comma by done.
    rewrite append_nil_l. simpl. by destruct id.
Qed.

Lemma insert_thread_id_empty_pieces_witness :
  @insert_thread_id GLib.table GLib.new
    (add_value empty_document NOTMUCH_VALUE_THREAD ",a,,b")
  = fold_left GLib.insert ["a"; ""; "b"] (GLib.insert GLib.new "")
  ∧ @insert_thread_id GLib.table GLib.new
      (add_value empty_document NOTMUCH_VALUE_THREAD "a,")
    = GLib.insert GLib.new "a".
Proof.
  apply (@insert_thread_id_empty_pieces GLib.table GLib.new
           (add_value empty_document NOTMUCH_VALUE_THREAD ",a,,b")
           (add_value empty_document NOTMUCH_VALUE_THREAD "a,") "a,,b" "a").
  - reflexivity.
  - reflexivity.
  - split; [discriminate|]. vm_compute. intros Hin.
    repeat (apply elem_of_cons in Hin as [Hin|Hin]; [discriminate|]).
    by apply elem_of_nil in Hin.
Defined.

(** ** Parents that are not in the index *)

Lemma first_carrier_none (db : list Document) (term : string) :
  Forall (λ d, ¬ has_term d term) db → first_carrier db term = None.
Proof.
  unfold first_carrier. induction db as [|d db IH]; [done|].
  intros [Hd Hdb]%Forall_cons. simpl.
  destruct (carries term d) eqn:Hc; [|by apply IH].
  by apply carries_has_term in Hc.
Qed.

Lemma no_children (db : list Document) (term : string) :
  Forall (λ d, ¬ has_term d term) db →
  filter (λ d, carries term d = true) db = [].
Proof.
  induction db as [|d db IH]; [done|].
  intros [Hd Hdb]%Forall_cons. rewrite filter_cons_False; [by apply IH|].
  by rewrite carries_has_term.
Qed.

(** X5 ([find_message_by_message_id], [find_thread_ids]).  A parent that no
    document of the index claims is looked up as the empty document; and a
    message of which the index holds neither a child nor a parent resolves
    to no thread id at all.  The index throws nothing here. *)
Theorem unknown_parents_resolve_nothing {HT : GHashTable} {HL : GHashTableLaws HT}
    (s : State) (parents : list string) (message_id : option string) :
  xapian_faults s = [] →
  Forall (λ d, ¬ has_term d (find_prefix "ref" +:+ printf_s message_id))
         (xapian_db s) →
  Forall (λ parent,
            Forall (λ d, ¬ has_term d (find_prefix "msgid" +:+ parent)) (xapian_db s))
         parents →
  Forall (λ parent,
            find_message_by_message_id (Some parent) s = (Ok empty_document, s))
         parents
  ∧ find_thread_ids parents message_id s = (Ok [], s).
Proof.
  intros Hfl Hchildren Hparents. split.
  - rewrite Forall_forall in Hparents. apply Forall_forall. intros parent Hin.
    destruct (find_message_by_message_id_quiet parent s Hfl) as [d Hrun].
    rewrite Hrun. do 2 f_equal.
    destruct (post_elim_ok _ _ _ _ _ _
                (post_find_message_by_message_id parent s) Hrun) as [_ ->].
    by rewrite first_carrier_none by auto.
  - rewrite find_thread_ids_quiet by done. do 2 f_equal.
    assert (discovery (xapian_db s) parents message_id = []) as ->.
    { unfold discovery. rewrite no_children by done. simpl.
      induction Hparents as [|parent parents Hparent _ IH]; [done|].
      simpl. by rewrite first_carrier_none, IH. }
    destruct (g_hash_table_get_keys (table_of [])) as [|k ks] eqn:Hkeys; [done|].
    assert (k ∈ g_hash_table_get_keys (table_of [])) as Hk
      by (rewrite Hkeys; left).
    apply (get_keys_elem [] k) in Hk. by apply elem_of_nil in Hk.
Qed.

Lemma unknown_parents_resolve_nothing_witness :
  let s := Scenario.add_all GLib.table ["b"] initial_state in
  Forall (λ parent,
            find_message_by_message_id (Some parent) s = (Ok empty_document, s))
         ["a@x"]
  ∧ @find_thread_ids GLib.table ["a@x"] (Some "r@x") s = (Ok [], s).
Proof.
  intros s.
  refine (@unknown_parents_resolve_nothing GLib.table glib_table_laws s
            ["a@x"] (Some "r@x") eq_refl _ _).
  - repeat constructor. vm_compute. intros [n Hn]. discriminate.
  - repeat constructor. vm_compute. intros [n Hn]. discriminate.
Defined.

(** ** What a successful call persists *)

Lemma data_fold_add_term (field : string) (l : list string) (doc : Document) :
  doc_data (fold_left (λ doc v, add_term doc field (Some v)) l doc) = doc_data doc.
Proof.
  revert doc. induction l as [|v l IH]; intros doc; [done|].
  cbn [fold_left]. by rewrite IH, add_term_data.
Qed.

Lemma document_for_data `{GHashTable, LibC, Parsers} (env : Env)
    (filename : string) (message : GMimeMessage) (s : State) :
  doc_data (document_for env filename message s) = filename.
Proof.
  unfold document_for.
  change (doc_data (add_value ?d _ _)) with (doc_data d).
  set (d1 := match message_id_of message with Some _ => _ | None => _ end).
  assert (doc_data d1 = filename) as Hd1.
  { subst d1. destruct (message_id_of message).
    - change (doc_data (add_value ?d' _ _)) with (doc_data d').
      by rewrite add_term_data, data_fold_add_term.
    - by rewrite data_fold_add_term. }
  destruct (thread_set env s (parents_of message) (message_id_of message)); [done|].
  change (doc_data (add_value ?d' _ _)) with (doc_data d').
  by rewrite data_fold_add_term.
Qed.

(** X6 ([parse_references], [notmuch_database_add_message]).  The document
    of a successful call has its references complete: for every parent of
    the message, from References or from In-Reply-To, it carries the term
    ref:parent exactly when the parent is at most 244 bytes long, and it
    carries no other term with the ref prefix. *)
Theorem persisted_reference_terms `{GHashTable, LibC, Parsers} (env : Env)
    (filename file : string) (s s' : State) :
  let message := g_mime_parser_construct_message file in
  fopen env filename = inr file →
  notmuch_database_add_message env filename s
  = (Returned NOTMUCH_STATUS_SUCCESS, s') →
  ∃ d, xapian_db s' = xapian_db s ++ [d]
       ∧ (∀ parent, parent ∈ parents_of message →
            (has_term d (find_prefix "ref" +:+ parent) ↔ String.length parent ≤ 244))
       ∧ (∀ t, String.prefix (find_prefix "ref") t = true → has_term d t →
            ∃ parent, parent ∈ parents_of message ∧ t = find_prefix "ref" +:+ parent).
Proof.
  intros message Hopen Hrun.
  apply (add_message_success _ _ _ _ _ Hopen) in Hrun.
  exists (document_for env filename message s). split_and!; [done| |].
  - intros parent Hin. rewrite document_for_terms. split.
    + intros [(p & _ & Hp & Hlen)|[(id & _ & Hq & _)|(id & _ & Hh & _)]].
      * rewrite ref_term in Hlen. simpl in Hlen. unfold NOTMUCH_MAX_TERM in Hlen. lia.
      * by rewrite ref_term, msgid_term in Hq.
      * by rewrite ref_term, thread_term in Hh.
    + intros Hlen. left. exists parent. split_and!; [done..|].
      rewrite ref_term. simpl. unfold NOTMUCH_MAX_TERM. lia.
  - intros t Ht [(p & Hp & -> & _)|[(id & _ & -> & _)|(id & _ & -> & _)]]%document_for_terms.
    + by exists p.
    + done.
    + done.
Qed.

Lemma persisted_reference_terms_witness :
  let s := Scenario.add_all GLib.table ["long"] initial_state in
  let r := @notmuch_database_add_message GLib.table Scenario.libc
             Scenario.parsers Scenario.env "re_long" s in
  let message := @g_mime_parser_construct_message Scenario.parsers "re_long" in
  ∃ d, xapian_db (snd r) = xapian_db s ++ [d]
       ∧ (∀ parent, parent ∈ @parents_of Scenario.parsers message →
            (has_term d (find_prefix "ref" +:+ parent) ↔ String.length parent ≤ 244))
       ∧ (∀ t, String.prefix (find_prefix "ref") t = true → has_term d t →
            ∃ parent, parent ∈ @parents_of Scenario.parsers message
                      ∧ t = find_prefix "ref" +:+ parent).
Proof.
  intros s r message.
  refine (@persisted_reference_terms GLib.table Scenario.libc Scenario.parsers
            Scenario.env "re_long" "re_long" s (snd r) eq_refl _).
  vm_compute. reflexivity.
Defined.

(** X7 ([notmuch_database_add_message]).  The document of a successful
    call has the file name as its data, the Message-ID of the message in
    slot 0 (no value there when the message has none) and the serialised
    date in slot 2. *)
Theorem persisted_payload `{GHashTable, LibC, Parsers} (env : Env)
    (filename file : string) (s s' : State) :
  let message := g_mime_parser_construct_message file in
  fopen env filename = inr file →
  notmuch_database_add_message env filename s
  = (Returned NOTMUCH_STATUS_SUCCESS, s') →
  ∃ d, xapian_db s' = xapian_db s ++ [d]
       ∧ doc_data d = filename
       ∧ doc_values d !! NOTMUCH_VALUE_MESSAGE_ID = message_id_of message
       ∧ get_value d NOTMUCH_VALUE_DATE = sortable_serialise (date_of message).
Proof.
  intros message Hopen Hrun.
  apply (add_message_success _ _ _ _ _ Hopen) in Hrun.
  exists (document_for env filename message s). split_and!; [done| | |].
  - apply document_for_data.
  - apply document_for_slot_message_id.
  - unfold get_value, document_for. by rewrite lookup_add_value_eq.
Qed.

Lemma persisted_payload_witness :
  let r := @notmuch_database_add_message GLib.table Scenario.libc
             Scenario.parsers Scenario.env "a" initial_state in
  ∃ d, xapian_db (snd r) = [d]
       ∧ doc_data d = "a"
       ∧ doc_values d !! NOTMUCH_VALUE_MESSAGE_ID = Some "a@x"
       ∧ get_value d NOTMUCH_VALUE_DATE = "t".
Proof.
  intros r.
  refine (@persisted_payload GLib.table Scenario.libc Scenario.parsers
            Scenario.env "a" "a" initial_state (snd r) eq_refl _).
  vm_compute. reflexivity.
Defined.

Lemma first_carrier_app (db extra : list Document) (term : string) :
  first_carrier (db ++ extra) term
  = match first_carrier db term with
    | Some d => Some d
    | None => first_carrier extra term
    end.
Proof.
  unfold first_carrier. induction db as [|d db IH]; [done|].
  simpl. by destruct (carries term d).
Qed.

(** X8 ([notmuch_database_add_message], [add_term]).  The document of a
    successful call carries the term msgid:x exactly when x is the
    Message-ID of the message and is at most 244 bytes long.  A longer
    Message-ID is kept in slot 0 only, so that no lookup by message id finds
    the document. *)
Theorem persisted_msgid_term `{GHashTable, LibC, Parsers} (env : Env)
    (filename file : string) (s s' : State) :
  let message := g_mime_parser_construct_message file in
  fopen env filename = inr file →
  notmuch_database_add_message env filename s
  = (Returned NOTMUCH_STATUS_SUCCESS, s') →
  ∃ d, xapian_db s' = xapian_db s ++ [d]
       ∧ (∀ x, has_term d (find_prefix "msgid" +:+ x)
               ↔ message_id_of message = Some x ∧ String.length x ≤ 244)
       ∧ (∀ x, message_id_of message = Some x → 244 < String.length x →
               get_value d NOTMUCH_VALUE_MESSAGE_ID = x
               ∧ first_carrier (xapian_db s') (find_prefix "msgid" +:+ x)
                 = first_carrier (xapian_db s) (find_prefix "msgid" +:+ x)).
Proof.
  intros message Hopen Hrun.
  apply (add_message_success _ _ _ _ _ Hopen) in Hrun.
  assert (∀ x, has_term (document_for env filename message s)
                        (find_prefix "msgid" +:+ x)
               ↔ message_id_of message = Some x ∧ String.length x ≤ 244) as Hterm.
  { intros x. rewrite document_for_terms. split.
    - intros [(p & _ & Hp & _)|[(id & Hid & Hq & Hlen)|(id & _ & Hh & _)]].
      + by rewrite msgid_term, ref_term in Hp.
      + rewrite !msgid_term in Hq. simplify_eq. split; [done|].
        rewrite msgid_term in Hlen. simpl in Hlen. unfold NOTMUCH_MAX_TERM in Hlen. lia.
      + by rewrite msgid_term, thread_term in Hh.
    - intros [Hid Hlen]. right; left. exists x. split_and!; [done..|].
      rewrite msgid_term. simpl. unfold NOTMUCH_MAX_TERM. lia. }
  exists (document_for env filename message s). split_and!; [done..|].
  intros x Hid Hlong. split.
  - unfold get_value. by rewrite document_for_slot_message_id, Hid.
  - rewrite Hrun, first_carrier_app.
    destruct (first_carrier (xapian_db s) _); [done|].
    unfold first_carrier. simpl.
    destruct (carries _ _) eqn:Hc; [|done].
    apply carries_has_term, Hterm in Hc. lia.
Qed.

Lemma persisted_msgid_term_witness :
  let r := @notmuch_database_add_message GLib.table Scenario.libc
             Scenario.parsers Scenario.env "long" initial_state in
  let message := @g_mime_parser_construct_message Scenario.parsers "long" in
  ∃ d, xapian_db (snd r) = [] ++ [d]
       ∧ (∀ x, has_term d (find_prefix "msgid" +:+ x)
               ↔ message_id_of message = Some x ∧ String.length x ≤ 244)
       ∧ (∀ x, message_id_of message = Some x → 244 < String.length x →
               get_value d NOTMUCH_VALUE_MESSAGE_ID = x
               ∧ first_carrier (xapian_db (snd r)) (find_prefix "msgid" +:+ x)
                 = first_carrier [] (find_prefix "msgid" +:+ x)).
Proof.
  intros r message.
  refine (@persisted_msgid_term GLib.table Scenario.libc Scenario.parsers
            Scenario.env "long" "long" initial_state (snd r) eq_refl _).
  vm_compute. reflexivity.
Defined.

(** ** The generator of thread ids *)

Lemma generate_digits_rand `{LibC} (n : nat) (str : string) (s : State) :
  seeded (snd (generate_digits n str s)) = seeded s
  ∧ rand_seed (snd (generate_digits n str s)) = rand_seed s
  ∧ rand_count (snd (generate_digits n str s)) = rand_count s + n.
Proof.
  revert str s. induction n as [|n IH]; intros str s.
  - simpl. split_and!; [done..|lia].
  - cbn [generate_digits].
    change ((rand ≫= λ value, generate_digits n (str +:+ sprintf_08x (to_uint32 value))) s)
      with (generate_digits n
              (str +:+ sprintf_08x (to_uint32 (rand_stream (rand_seed s) (rand_count s))))
              (with_rand s (seeded s) (rand_seed s) (S (rand_count s)))).
    destruct (IH (str +:+ sprintf_08x (to_uint32 (rand_stream (rand_seed s) (rand_count s))))
                 (with_rand s (seeded s) (rand_seed s) (S (rand_count s))))
      as (-> & -> & ->).
    simpl. split_and!; [done..|lia].
Qed.

Lemma generate_digits_same `{LibC} (n : nat) (str : string) (s1 s2 : State) :
  rand_seed s1 = rand_seed s2 → rand_count s1 = rand_count s2 →
  fst (generate_digits n str s1) = fst (generate_digits n str s2).
Proof.
  revert str s1 s2. induction n as [|n IH]; intros str s1 s2 Hseed Hcount; [done|].
  cbn [generate_digits].
  change ((rand ≫= λ value, generate_digits n (str +:+ sprintf_08x (to_uint32 value))) s1)
    with (generate_digits n
            (str +:+ sprintf_08x (to_uint32 (rand_stream (rand_seed s1) (rand_count s1))))
            (with_rand s1 (seeded s1) (rand_seed s1) (S (rand_count s1)))).
  change ((rand ≫= λ value, generate_digits n (str +:+ sprintf_08x (to_uint32 value))) s2)
    with (generate_digits n
            (str +:+ sprintf_08x (to_uint32 (rand_stream (rand_seed s2) (rand_count s2))))
            (with_rand s2 (seeded s2) (rand_seed s2) (S (rand_count s2)))).
  rewrite Hseed, Hcount. apply IH; simpl; congruence.
Qed.

Lemma thread_id_generate_seeded `{LibC} (env : Env) (s : State) :
  seeded s = true →
  thread_id_generate env s = generate_digits (NOTMUCH_THREAD_ID_DIGITS / 8) "" s.
Proof. unfold thread_id_generate. by intros ->. Qed.

Lemma thread_id_generate_unseeded `{LibC} (env : Env) (s : State) :
  seeded s = false →
  thread_id_generate env s
  = generate_digits (NOTMUCH_THREAD_ID_DIGITS / 8) ""
      (with_rand s true (seed_source env) 0).
Proof.
  unfold thread_id_generate, seed_source. intros ->.
  by destruct (dev_random env).
Qed.

(** X9 ([thread_id_generate]).  The generator is seeded by the first call
    of a process and never again: after any call the flag is set; a call
    on a seeded generator keeps the seed and draws four numbers; the first
    call takes its seed from the environment and draws the first four.  On
    a seeded generator the environment is not looked at. *)
Theorem generator_seeded_once `{LibC} (env env1 env2 : Env) (s : State) :
  let s' := snd (thread_id_generate env s) in
  seeded s' = true
  ∧ rand_seed s' = (if seeded s then rand_seed s else seed_source env)
  ∧ rand_count s' = (if seeded s then rand_count s else 0) + 4
  ∧ thread_id_generate env1 s' = thread_id_generate env2 s'.
Proof.
  intros s'.
  assert (seeded s' = true
          ∧ rand_seed s' = (if seeded s then rand_seed s else seed_source env)
          ∧ rand_count s' = (if seeded s then rand_count s else 0) + 4)
    as (Hs & Hseed & Hcount).
  { subst s'. destruct (seeded s) eqn:Hseeded.
    - rewrite thread_id_generate_seeded by done.
      destruct (generate_digits_rand (NOTMUCH_THREAD_ID_DIGITS / 8) "" s)
        as (-> & -> & ->). done.
    - rewrite thread_id_generate_unseeded by done.
      destruct (generate_digits_rand (NOTMUCH_THREAD_ID_DIGITS / 8) ""
                  (with_rand s true (seed_source env) 0)) as (-> & -> & ->). done. }
  split_and!; [done..|].
  by rewrite !thread_id_generate_seeded.
Qed.

Lemma minted_same_seed `{LibC} (env1 env2 : Env) (s1 s2 : State) :
  seeded s1 = false → seeded s2 = false → seed_source env1 = seed_source env2 →
  minted env1 s1 = minted env2 s2.
Proof.
  intros Hs1 Hs2 Hseed. unfold minted.
  rewrite !thread_id_generate_unseeded by done.
  pose proof (generate_digits_same (NOTMUCH_THREAD_ID_DIGITS / 8) ""
                (with_rand s1 true (seed_source env1) 0)
                (with_rand s2 true (seed_source env2) 0) Hseed eq_refl) as Hfst.
  destruct (generate_digits _ _ (with_rand s1 _ _ _)) as [r1 t1].
  destruct (generate_digits _ _ (with_rand s2 _ _ _)) as [r2 t2].
  simpl in Hfst. by subst.
Qed.

(** X10 ([thread_id_generate], [notmuch_database_add_message]).  Thread ids
    are a function of the seed: two processes that have not generated an id
    yet and that get the same seed, from /dev/random or from the clock,
    persist the same thread id for the first message each of them starts a
    thread with, whatever the two messages and the two indexes are. *)
Theorem same_seed_same_thread_id {HT : GHashTable} {LC : LibC} {PS : Parsers}
    (env1 env2 : Env) (filename1 file1 filename2 file2 : string)
    (s1 s2 : State) :
  let message1 := g_mime_parser_construct_message file1 in
  let message2 := g_mime_parser_construct_message file2 in
  fopen env1 filename1 = inr file1 →
  fopen env2 filename2 = inr file2 →
  xapian_faults s1 = [] → xapian_faults s2 = [] →
  seeded s1 = false → seeded s2 = false →
  seed_source env1 = seed_source env2 →
  is_Some (message_id_of message1) → is_Some (message_id_of message2) →
  find_thread_ids (parents_of message1) (message_id_of message1) s1 = (Ok [], s1) →
  find_thread_ids (parents_of message2) (message_id_of message2) s2 = (Ok [], s2) →
  ∃ d1 d2 s1' s2',
    notmuch_database_add_message env1 filename1 s1
    = (Returned NOTMUCH_STATUS_SUCCESS, s1')
    ∧ notmuch_database_add_message env2 filename2 s2
      = (Returned NOTMUCH_STATUS_SUCCESS, s2')
    ∧ xapian_db s1' = xapian_db s1 ++ [d1]
    ∧ xapian_db s2' = xapian_db s2 ++ [d2]
    ∧ get_value d1 NOTMUCH_VALUE_THREAD = get_value d2 NOTMUCH_VALUE_THREAD
    ∧ is_thread_id (get_value d1 NOTMUCH_VALUE_THREAD) = true.
Proof.
  intros message1 message2 Hopen1 Hopen2 Hfl1 Hfl2 Hs1 Hs2 Hseed [id1 Hid1] [id2 Hid2]
    Hfind1 Hfind2.
  rewrite (find_thread_ids_quiet _ _ s1 Hfl1) in Hfind1.
  rewrite (find_thread_ids_quiet _ _ s2 Hfl2) in Hfind2.
  assert (thread_set env1 s1 (parents_of message1) (message_id_of message1)
          = [minted env1 s1]) as Hset1.
  { unfold thread_set. rewrite Hid1.
    by replace (g_hash_table_get_keys _) with (@nil string) by congruence. }
  assert (thread_set env2 s2 (parents_of message2) (message_id_of message2)
          = [minted env2 s2]) as Hset2.
  { unfold thread_set. rewrite Hid2.
    by replace (g_hash_table_get_keys _) with (@nil string) by congruence. }
  destruct (add_message_try_quiet env1 filename1 message1 s1 Hfl1) as (s1' & Hrun1 & Hdb1).
  destruct (add_message_try_quiet env2 filename2 message2 s2 Hfl2) as (s2' & Hrun2 & Hdb2).
  exists (document_for env1 filename1 message1 s1),
         (document_for env2 filename2 message2 s2), s1', s2'.
  split_and!.
  - unfold notmuch_database_add_message. rewrite Hopen1. fold message1.
    by rewrite Hrun1.
  - unfold notmuch_database_add_message. rewrite Hopen2. fold message2.
    by rewrite Hrun2.
  - done.
  - done.
  - rewrite !document_for_get_value_thread, Hset1, Hset2. simpl.
    by apply minted_same_seed.
  - rewrite document_for_get_value_thread, Hset1. simpl.
    apply minted_is_thread_id.
Qed.

Lemma same_seed_same_thread_id_witness :
  ∃ d1 d2 s1' s2',
    @notmuch_database_add_message GLib.table Scenario.libc Scenario.parsers
      Scenario.env "a" initial_state
    = (Returned NOTMUCH_STATUS_SUCCESS, s1')
    ∧ @notmuch_database_add_message GLib.table Scenario.libc Scenario.parsers
        Scenario.env "b" initial_state
      = (Returned NOTMUCH_STATUS_SUCCESS, s2')
    ∧ xapian_db s1' = [] ++ [d1]
    ∧ xapian_db s2' = [] ++ [d2]
    ∧ get_value d1 NOTMUCH_VALUE_THREAD = get_value d2 NOTMUCH_VALUE_THREAD
    ∧ is_thread_id (get_value d1 NOTMUCH_VALUE_THREAD) = true.
Proof.
  refine (@same_seed_same_thread_id GLib.table Scenario.libc Scenario.parsers
            Scenario.env Scenario.env "a" "a" "b" "b" initial_state initial_state
            eq_refl eq_refl eq_refl eq_refl eq_refl eq_refl eq_refl _ _ _ _).
  - by eexists.
  - by eexists.
  - vm_compute. reflexivity.
  - vm_compute. reflexivity.
Defined.

(** ** What a call writes to stderr *)

Lemma read_only_stderr (s s' : State) : read_only s s' → stderr s' = stderr s.
Proof. by intros ->. Qed.

Lemma post_add_document_stderr (doc : Document) (s : State) :
  post (add_document doc) s (λ _ s', stderr s' = stderr s) (λ s', stderr s' = stderr s).
Proof.
  unfold post, add_document, xapian_call.
  by destruct (xapian_faults s) as [|[msg|] fl].
Qed.

(** The [try] block writes nothing to stderr, whether it throws or not. *)
Lemma add_message_try_stderr `{GHashTable, LibC, Parsers} (env : Env)
    (filename : string) (message : GMimeMessage) (s : State) :
  post (add_message_try env filename message) s
       (λ _ s', stderr s' = stderr s) (λ s', stderr s' = stderr s).
Proof.
  unfold add_message_try. cbv zeta. apply post_bind.
  eapply post_mono; [apply find_thread_ids_post| |apply read_only_stderr].
  intros ks s1 [Hs1%read_only_stderr _].
  assert (∀ (doc : Document) (s2 : State), stderr s2 = stderr s →
    post (add_document doc;; mret ()) s2
      (λ _ s', stderr s' = stderr s) (λ s', stderr s' = stderr s)) as Hcommit.
  { intros doc s2 Hs2. apply post_bind.
    eapply post_mono; [apply post_add_document_stderr| |].
    - intros u s3 Hs3. apply post_ret. congruence.
    - intros s3 Hs3. congruence. }
  apply post_bind.
  destruct (negb (length ks =? 0)).
  - destruct (thread_ids_loop 0 ks _ "") as [doc thread_id].
    apply post_ret. by apply Hcommit.
  - destruct (message_id_of message) as [id|].
    + apply post_bind. unfold post at 1.
      destruct (thread_id_generate_spec env s1) as (tid & s2 & -> & _ & _ & _ & Hs2).
      apply post_ret. apply Hcommit. congruence.
    + apply post_ret. by apply Hcommit.
Qed.

(** X11 ([notmuch_database_add_message]).  A call ends in one of three
    ways, each with its own trace on stderr: success writes nothing; an
    exception of the index writes the one line that reports it; a file that
    cannot be opened ends the process with code 1 after the one line that
    names the file, the index untouched. *)
Theorem add_message_diagnostics `{GHashTable, LibC, Parsers} (env : Env)
    (filename : string) (s : State) :
  match notmuch_database_add_message env filename s with
  | (Returned NOTMUCH_STATUS_SUCCESS, s') =>
      (∃ file, fopen env filename = inr file) ∧ stderr s' = stderr s
  | (Returned NOTMUCH_STATUS_XAPIAN_EXCEPTION, s') =>
      (∃ file, fopen env filename = inr file)
      ∧ xapian_faults s ≠ []
      ∧ ∃ msg, stderr s'
               = stderr s ++ ["A Xapian exception occurred: " +:+ msg +:+ "." +:+ nl]
  | (Exited code, s') =>
      code = 1%Z
      ∧ xapian_db s' = xapian_db s
      ∧ ∃ errno, fopen env filename = inl errno
                 ∧ stderr s' = stderr s ++ ["Error opening " +:+ filename +:+ ": "
                                            +:+ strerror errno +:+ nl]
  end.
Proof.
  unfold notmuch_database_add_message.
  destruct (fopen env filename) as [errno|file] eqn:Hopen.
  - split_and!; [done..|]. by exists errno.
  - pose proof (add_message_try_stderr env filename
                  (g_mime_parser_construct_message file) s) as Hpost.
    unfold post in Hpost.
    destruct (add_message_try env filename _ s) as [[u|msg] s'] eqn:Hrun.
    + split; [by exists file|done].
    + split_and!; [by exists file| |].
      * intros Hfl.
        destruct (add_message_try_quiet env filename
                    (g_mime_parser_construct_message file) s Hfl) as (s2 & Hok & _).
        congruence.
      * exists msg. simpl. by rewrite Hpost.
Qed.

(** ** Opening and creating, case by case *)

(** X12 ([notmuch_database_create]).  Creating a database returns NULL in
    exactly three cases: the path cannot be examined, it is not a directory,
    or the directory .notmuch cannot be made in it.  Each of them writes one
    line to stderr.  In every other case the result is what opening the
    database returns once .notmuch exists, a handle that remembers the
    path. *)
Theorem create_null_cases `{LibC} (path_ : string) (sys : System) :
  let result := notmuch_database_create path_ sys in
  (fst result = None ↔
     (∃ errno, stat sys path_ = inl errno)
     ∨ stat sys path_ = inr false
     ∨ (stat sys path_ = inr true
        ∧ ∃ errno, mkdir sys (path_ +:+ "/" +:+ ".notmuch") = Some errno))
  ∧ (fst result = None →
       ∃ line, sys_stderr (snd result) = sys_stderr sys ++ [line])
  ∧ (∀ notmuch, fst result = Some notmuch →
       notmuch_database_get_path notmuch = path_
       ∧ result = notmuch_database_open path_
                    (sys_made_dir (path_ +:+ "/" +:+ ".notmuch") sys)).
Proof.
  intros result. subst result. unfold notmuch_database_create.
  destruct (stat sys path_) as [errno|[|]] eqn:Hstat.
  - split_and!; [|by eexists|done]. split; [|done]. intros _. left. by exists errno.
  - destruct (mkdir sys _) as [errno|] eqn:Hmk.
    + split_and!; [|by eexists|done].
      split; [|done]. intros _. right; right. split; [done|]. by exists errno.
    + assert (∃ notmuch sys',
                notmuch_database_open path_
                  (sys_made_dir (path_ +:+ "/" +:+ ".notmuch") sys)
                = (Some notmuch, sys')) as (notmuch & sys' & Hopen).
      { unfold notmuch_database_open. cbn [stat sys_made_dir].
        rewrite String.eqb_refl. cbv zeta.
        destruct (xapian_open _ _); eauto. }
      rewrite Hopen. cbn [fst snd]. split_and!.
      * split; [done|]. intros [[errno ?]|[?|[_ [errno ?]]]]; done.
      * done.
      * intros notmuch' ?. simplify_eq. split; [|done].
        by eapply open_stores_path.
  - split_and!; [|by eexists|done]. split; [|done]. intros _. by right; left.
Qed.

(** X13 ([notmuch_database_open], [notmuch_database_get_path]).  Opening a
    database returns NULL exactly when .notmuch cannot be examined; whether
    it is a directory is not looked at.  The line written then renders the
    return value of [stat], so that it says the same for every errno.
    Every handle returned gives back the path it was opened with, and it has
    an index behind it exactly when the index could be opened; stderr gets a
    line exactly when no index is behind the handle. *)
Theorem open_cases `{LibC} (path_ : string) (sys : System) :
  let result := notmuch_database_open path_ sys in
  let notmuch_path := path_ +:+ "/" +:+ ".notmuch" in
  (fst result = None ↔ ∃ errno, stat sys notmuch_path = inl errno)
  ∧ (fst result = None →
       sys_stderr (snd result)
       = sys_stderr sys ++ ["Error: Cannot stat " +:+ notmuch_path +:+ ": "
                            +:+ strerror (-1) +:+ nl])
  ∧ (∀ notmuch, fst result = Some notmuch →
       notmuch_database_get_path notmuch = path_
       ∧ (is_Some (handle_db notmuch) ↔
            ∃ db, xapian_open sys (notmuch_path +:+ "/" +:+ "xapian") = inr db)
       ∧ (is_Some (handle_db notmuch) ↔ sys_stderr (snd result) = sys_stderr sys)).
Proof.
  intros result notmuch_path. subst result notmuch_path.
  unfold notmuch_database_open.
  destruct (stat sys _) as [errno|is_dir] eqn:Hstat.
  - split_and!; [|done|done]. split; [|done]. intros _. by exists errno.
  - cbv zeta. destruct (xapian_open sys _) as [msg|db] eqn:Hx; cbn [fst snd].
    + split_and!.
      * split; [done|]. by intros [errno ?].
      * done.
      * intros notmuch ?. simplify_eq. cbn. split_and!; [done| |].
        -- split; [by intros [? ?]|by intros [? ?]].
        -- split; [by intros [? ?]|].
           intros Herr. apply (f_equal length) in Herr.
           rewrite length_app in Herr. simpl in Herr. lia.
    + split_and!.
      * split; [done|]. by intros [errno ?].
      * done.
      * intros notmuch ?. simplify_eq. cbn. split_and!; [done| |].
        -- split; [by exists db|by eexists].
        -- split; [done|by eexists].
Qed.

(** ** What every stored document looks like *)

Section Stored.
Context {HT : GHashTable} {HL : GHashTableLaws HT} {LC : LibC} {PS : Parsers}.

Lemma thread_set_NoDup (env : Env) (s : State) (parents : list string)
    (message_id : option string) :
  NoDup (thread_set env s parents message_id).
Proof.
  unfold thread_set.
  pose proof (get_keys_NoDup (discovery (xapian_db s) parents message_id)) as Hnd.
  destruct (g_hash_table_get_keys _) as [|k ks].
  - destruct message_id; [apply NoDup_singleton|apply NoDup_nil_2].
  - by destruct message_id.
Qed.

Lemma document_for_no_slot (env : Env) (filename : string) (message : GMimeMessage)
    (s : State) (slot : nat) :
  NOTMUCH_VALUE_DATE < slot →
  doc_values (document_for env filename message s) !! slot = None.
Proof.
  unfold NOTMUCH_VALUE_DATE. intros Hslot. unfold document_for.
  rewrite lookup_add_value_ne by (unfold NOTMUCH_VALUE_DATE; lia).
  set (d1 := match message_id_of message with Some _ => _ | None => _ end).
  assert (doc_values d1 !! slot = None) as Hd1.
  { subst d1. destruct (message_id_of message).
    - rewrite lookup_add_value_ne by (unfold NOTMUCH_VALUE_MESSAGE_ID; lia).
      by rewrite add_term_values, values_fold_add_term.
    - by rewrite values_fold_add_term. }
  destruct (thread_set env s (parents_of message) (message_id_of message)); [done|].
  rewrite lookup_add_value_ne by (unfold NOTMUCH_VALUE_THREAD; lia).
  by rewrite values_fold_add_term.
Qed.

Lemma document_for_stored_ok (env : Env) (filename : string)
    (message : GMimeMessage) (s : State) :
  Forall doc_ok (xapian_db s) → stored_ok (document_for env filename message s).
Proof.
  intros Hdb. unfold stored_ok. rewrite document_for_ids by done. split_and!.
  - intros t [(p & _ & -> & Hlen)|[(id & _ & -> & Hlen)|(id & _ & -> & Hlen)]]%document_for_terms.
    + split; [done|]. exists "ref", p. split; [|done]. set_solver.
    + split; [done|]. exists "msgid", id. split; [|done]. set_solver.
    + split; [done|]. exists "thread", id. split; [|done]. set_solver.
  - intros x [(p & _ & Hp & _)|[(id & Hid & Hq & _)|(id & _ & Hh & _)]]%document_for_terms.
    + by rewrite msgid_term, ref_term in Hp.
    + rewrite !msgid_term in Hq. simplify_eq.
      by rewrite document_for_slot_message_id.
    + by rewrite msgid_term, thread_term in Hh.
  - intros id. rewrite document_for_terms. split.
    + intros [(p & _ & Hp & _)|[(x & _ & Hq & _)|(id' & Hin & Hh & _)]].
      * by rewrite thread_term, ref_term in Hp.
      * by rewrite thread_term, msgid_term in Hq.
      * rewrite !thread_term in Hh. by simplify_eq.
    + intros Hin. right; right. exists id. split_and!; [done..|].
      apply thread_term_fits.
      pose proof (thread_set_ok env s (parents_of message) (message_id_of message) Hdb)
        as Hok.
      rewrite Forall_forall in Hok. by apply Hok.
  - apply thread_set_NoDup.
  - unfold document_for. rewrite lookup_add_value_eq. by eexists.
  - intros slot Hslot. destruct (decide (slot ≤ NOTMUCH_VALUE_DATE)) as [|Hn]; [done|].
    rewrite document_for_no_slot in Hslot by lia. by destruct Hslot.
Qed.

Lemma reachable_stored_ok (s : State) : reachable s → Forall stored_ok (xapian_db s).
Proof.
  induction 1 as [|s fl Hs IH|s env filename Hs IH].
  - constructor.
  - exact IH.
  - destruct (add_message_db env filename s) as [->|(file & _ & _ & ->)]; [done|].
    apply Forall_app. split; [done|]. apply Forall_singleton.
    apply document_for_stored_ok. by destruct (reachable_index_ok s Hs).
Qed.

End Stored.

(** X14 ([add_term], [notmuch_database_add_message]).  In an index built
    by the code every term of every document is at most 245 bytes long and
    is the prefix of ref, msgid or thread followed by a value: the code
    indexes no other field, and no term that Xapian would refuse is ever
    stored. *)
Theorem stored_terms_short_and_prefixed {HT : GHashTable} {HL : GHashTableLaws HT}
    {LC : LibC} {PS : Parsers} (s : State) (d : Document) (t : string) :
  reachable s → d ∈ xapian_db s → has_term d t →
  String.length t ≤ NOTMUCH_MAX_TERM
  ∧ ∃ field v, field ∈ indexed_fields ∧ t = find_prefix field +:+ v.
Proof.
  intros Hs Hd Ht. pose proof (reachable_stored_ok s Hs) as Hok.
  rewrite Forall_forall in Hok. destruct (Hok d Hd) as (Hterms & _). auto.
Qed.

Lemma stored_terms_short_and_prefixed_witness :
  let s := Scenario.add_all GLib.table ["a"; "long"; "re_long"] initial_state in
  let d := default empty_document (xapian_db s !! 0) in
  let t := "Qa@x" in
  String.length t ≤ NOTMUCH_MAX_TERM
  ∧ ∃ field v, field ∈ indexed_fields ∧ t = find_prefix field +:+ v.
Proof.
  intros s d t.
  refine (@stored_terms_short_and_prefixed GLib.table glib_table_laws
            Scenario.libc Scenario.parsers s d t _ _ _).
  - apply add_all_reachable, reach_init.
  - apply (list_elem_of_lookup_2 _ 0). vm_compute. reflexivity.
  - vm_compute. eexists. reflexivity.
Defined.

(** X15 ([notmuch_database_add_message]).  In an index built by the code a
    document that carries the term msgid:x has x in slot 0, so that a
    document has at most one msgid term. *)
Theorem stored_msgid_term_is_slot_0 {HT : GHashTable} {HL : GHashTableLaws HT}
    {LC : LibC} {PS : Parsers} (s : State) (d : Document) (x y : string) :
  reachable s → d ∈ xapian_db s →
  has_term d (find_prefix "msgid" +:+ x) →
  get_value d NOTMUCH_VALUE_MESSAGE_ID = x
  ∧ (has_term d (find_prefix "msgid" +:+ y) → y = x).
Proof.
  intros Hs Hd Hx. pose proof (reachable_stored_ok s Hs) as Hok.
  rewrite Forall_forall in Hok. destruct (Hok d Hd) as (_ & Hslot & _).
  split.
  - unfold get_value. by rewrite (Hslot x Hx).
  - intros Hy. pose proof (Hslot x Hx). pose proof (Hslot y Hy). congruence.
Qed.

Lemma stored_msgid_term_is_slot_0_witness :
  let s := Scenario.add_all GLib.table ["a"; "b_re_a"] initial_state in
  let d := default empty_document (xapian_db s !! 1) in
  get_value d NOTMUCH_VALUE_MESSAGE_ID = "b@x"
  ∧ (has_term d (find_prefix "msgid" +:+ "a@x") → "a@x" = "b@x").
Proof.
  intros s d.
  refine (@stored_msgid_term_is_slot_0 GLib.table glib_table_laws
            Scenario.libc Scenario.parsers s d "b@x" "a@x" _ _ _).
  - apply add_all_reachable, reach_init.
  - apply (list_elem_of_lookup_2 _ 1). vm_compute. reflexivity.
  - vm_compute. eexists. reflexivity.
Defined.

(** X16 ([notmuch_database_add_message], [insert_thread_id]).  In an index
    built by the code the thread terms of a document and the value of its
    slot 1 say the same: the document carries the term thread:id exactly
    for the ids that splitting slot 1 at its commas gives, and no id is
    listed twice. *)
Theorem stored_thread_terms_are_slot_1 {HT : GHashTable} {HL : GHashTableLaws HT}
    {LC : LibC} {PS : Parsers} (s : State) (d : Document) :
  reachable s → d ∈ xapian_db s →
  (∀ id, has_term d (find_prefix "thread" +:+ id)
         ↔ id ∈ fragments (get_value d NOTMUCH_VALUE_THREAD))
  ∧ NoDup (fragments (get_value d NOTMUCH_VALUE_THREAD)).
Proof.
  intros Hs Hd. pose proof (reachable_stored_ok s Hs) as Hok.
  rewrite Forall_forall in Hok. by destruct (Hok d Hd) as (_ & _ & Hthread & Hnd & _).
Qed.

Lemma stored_thread_terms_are_slot_1_witness :
  let s := Scenario.add_all GLib.table ["a"; "b"; "c_refs_a_b"] initial_state in
  let d := default empty_document (xapian_db s !! 2) in
  (∀ id, has_term d (find_prefix "thread" +:+ id)
         ↔ id ∈ fragments (get_value d NOTMUCH_VALUE_THREAD))
  ∧ NoDup (fragments (get_value d NOTMUCH_VALUE_THREAD)).
Proof.
  intros s d.
  refine (@stored_thread_terms_are_slot_1 GLib.table glib_table_laws
            Scenario.libc Scenario.parsers s d _ _).
  - apply add_all_reachable, reach_init.
  - apply (list_elem_of_lookup_2 _ 2). vm_compute. reflexivity.
Defined.

(** X17 ([notmuch_database_add_message]).  In an index built by the code
    every document has a date in slot 2, and no slot other than 0, 1 and 2
    holds a value. *)
Theorem stored_slots {HT : GHashTable} {HL : GHashTableLaws HT}
    {LC : LibC} {PS : Parsers} (s : State) (d : Document) :
  reachable s → d ∈ xapian_db s →
  is_Some (doc_values d !! NOTMUCH_VALUE_DATE)
  ∧ ∀ slot, is_Some (doc_values d !! slot) → slot ≤ NOTMUCH_VALUE_DATE.
Proof.
  intros Hs Hd. pose proof (reachable_stored_ok s Hs) as Hok.
  rewrite Forall_forall in Hok. by destruct (Hok d Hd) as (_ & _ & _ & _ & Hdate).
Qed.

Lemma stored_slots_witness :
  let s := Scenario.add_all GLib.table ["anon"] initial_state in
  let d := default empty_document (xapian_db s !! 0) in
  is_Some (doc_values d !! NOTMUCH_VALUE_DATE)
  ∧ ∀ slot, is_Some (doc_values d !! slot) → slot ≤ NOTMUCH_VALUE_DATE.
Proof.
  intros s d.
  refine (@stored_slots GLib.table glib_table_laws
            Scenario.libc Scenario.parsers s d _ _).
  - apply add_all_reachable, reach_init.
  - apply (list_elem_of_lookup_2 _ 0). vm_compute. reflexivity.
Defined.

(** ** The lookups *)

(** X19 ([find_messages_by_term], [find_message_by_docid],
    [find_message_by_message_id], [find_thread_ids]).  The lookups only
    read: whether they return or throw, the index, the generator and stderr
    are what they were before the call. *)
Theorem lookups_only_read `{GHashTable} (s : State) (field : string)
    (value : option string) (docid : nat) (parent : string)
    (parents : list string) (message_id : option string) :
  read_only s (snd (find_messages_by_term field value s))
  ∧ read_only s (snd (find_message_by_docid docid s))
  ∧ read_only s (snd (find_message_by_message_id (Some parent) s))
  ∧ read_only s (snd (find_thread_ids parents message_id s)).
Proof.
  split_and!.
  - pose proof (post_xapian_read
                  (λ db, Ok (postlist db (find_prefix field +:+ printf_s value))) s)
      as Hpost.
    unfold find_messages_by_term, postlist_begin, post in *.
    destruct (xapian_read _ s) as [[a|msg] s']; [by destruct Hpost|done].
  - pose proof (post_get_document docid s) as Hpost.
    unfold find_message_by_docid, post in *.
    destruct (get_document docid s) as [[a|msg] s']; [by destruct Hpost|done].
  - pose proof (post_find_message_by_message_id parent s) as Hpost.
    unfold post in Hpost.
    destruct (find_message_by_message_id _ s) as [[a|msg] s']; [by destruct Hpost|done].
  - pose proof (find_thread_ids_post parents message_id s) as Hpost.
    unfold post in Hpost.
    destruct (find_thread_ids _ _ s) as [[a|msg] s']; [by destruct Hpost|done].
Qed.

Lemma discovery_mono (db extra : list Document) (parents : list string)
    (message_id : option string) (x : string) :
  x ∈ discovery db parents message_id →
  x ∈ discovery (db ++ extra) parents message_id.
Proof.
  rewrite !elem_of_discovery.
  intros [(d & Hd & Ht & Hx)|(parent & d & Hp & Hf & Hx)]; [left|right].
  - exists d. split_and!; [|done..]. apply elem_of_app. by left.
  - exists parent, d. split_and!; [done| |done].
    by rewrite first_carrier_app, Hf.
Qed.

(** X20 ([find_thread_ids]).  What the resolver finds is not lost when the
    index grows: with no exception pending, every thread id that it returns
    for a message on an index is among those that it returns for the same
    message once more documents have been added. *)
Theorem resolver_monotone {HT : GHashTable} {HL : GHashTableLaws HT}
    (s s' : State) (extra : list Document) (parents : list string)
    (message_id : option string) :
  xapian_faults s = [] → xapian_faults s' = [] →
  xapian_db s' = xapian_db s ++ extra →
  ∃ r r', find_thread_ids parents message_id s = (Ok r, s)
          ∧ find_thread_ids parents message_id s' = (Ok r', s')
          ∧ r ⊆ r'.
Proof.
  intros Hfl Hfl' Hdb.
  rewrite (find_thread_ids_quiet _ _ s Hfl), (find_thread_ids_quiet _ _ s' Hfl').
  do 2 eexists. split_and!; [done..|].
  intros x Hx.
  apply (proj1 (get_keys_elem (discovery (xapian_db s) parents message_id) x)) in Hx.
  apply (proj2 (get_keys_elem (discovery (xapian_db s') parents message_id) x)).
  rewrite Hdb. by apply discovery_mono.
Qed.

Lemma resolver_monotone_witness :
  let s := Scenario.add_all GLib.table ["a"] initial_state in
  let s' := Scenario.add_all GLib.table ["a"; "b"; "c_refs_a_b"] initial_state in
  ∃ r r', @find_thread_ids GLib.table ["a@x"; "b@x"] (Some "d@x") s = (Ok r, s)
          ∧ @find_thread_ids GLib.table ["a@x"; "b@x"] (Some "d@x") s' = (Ok r', s')
          ∧ r ⊆ r'.
Proof.
  intros s s'.
  refine (@resolver_monotone GLib.table glib_table_laws s s'
            (drop 1 (xapian_db s')) ["a@x"; "b@x"] (Some "d@x") eq_refl eq_refl _).
  vm_compute. reflexivity.
Defined.

(** X21 ([find_thread_ids]).  The thread ids that the resolver returns do
    not depend on the order of the parents nor on how often a parent is
    named: for two lists with the same parents, the two results list the
    same ids, each once. *)
Theorem resolver_ignores_parent_order {HT : GHashTable} {HL : GHashTableLaws HT}
    (s : State) (parents parents' : list string) (message_id : option string) :
  xapian_faults s = [] →
  (∀ parent, parent ∈ parents ↔ parent ∈ parents') →
  ∃ r r', find_thread_ids parents message_id s = (Ok r, s)
          ∧ find_thread_ids parents' message_id s = (Ok r', s)
          ∧ r ≡ₚ r'.
Proof.
  intros Hfl Hsame.
  rewrite !(find_thread_ids_quiet _ _ s Hfl).
  do 2 eexists. split_and!; [done..|].
  apply NoDup_Permutation; [apply get_keys_NoDup..|].
  intros x. rewrite !get_keys_elem, !elem_of_discovery.
  split; (intros [?|(parent & d & Hp & Hrest)]; [by left|right]);
    exists parent, d; (split; [by apply Hsame|done]).
Qed.

Lemma resolver_ignores_parent_order_witness :
  let s := Scenario.add_all GLib.table ["a"; "b"] initial_state in
  ∃ r r', @find_thread_ids GLib.table ["a@x"; "b@x"] (Some "c@x") s = (Ok r, s)
          ∧ @find_thread_ids GLib.table ["b@x"; "a@x"; "a@x"] (Some "c@x") s = (Ok r', s)
          ∧ r ≡ₚ r'.
Proof.
  intros s.
  refine (@resolver_ignores_parent_order GLib.table glib_table_laws s
            ["a@x"; "b@x"] ["b@x"; "a@x"; "a@x"] (Some "c@x") eq_refl _).
  intros parent. rewrite !elem_of_cons, !elem_of_nil. tauto.
Defined.

(** ** When nothing fails *)

Lemma add_message_try_no_faults `{GHashTable, LibC, Parsers} (env : Env)
    (filename : string) (message : GMimeMessage) (s : State) :
  xapian_faults s = [] →
  ∃ s', add_message_try env filename message s = (Ok (), s')
        ∧ xapian_faults s' = [].
Proof.
  intros Hfl. unfold add_message_try. cbv zeta.
  rewrite (bind_ok _ _ _ _ _ (find_thread_ids_quiet _ _ s Hfl)).
  destruct (g_hash_table_get_keys _) as [|k ks].
  - cbn [length Nat.eqb negb]. destruct (message_id_of message) as [id|].
    + destruct (thread_id_generate_spec env s) as (tid & s2 & Hgen & _ & _ & Hfl2 & _).
      rewrite (bind_ok _ _ _ _ _ (bind_ok _ _ _ _ _ Hgen)).
      rewrite Hfl in Hfl2.
      eexists. rewrite (bind_ok _ _ _ _ _ (add_document_quiet _ s2 Hfl2)).
      split; [reflexivity|done].
    + eexists.
      rewrite (bind_ok (mret _) _ s s _ eq_refl).
      rewrite (bind_ok _ _ _ _ _ (add_document_quiet _ s Hfl)).
      split; [reflexivity|done].
  - cbn [length Nat.eqb negb]. rewrite thread_ids_loop_spec.
    eexists.
    rewrite (bind_ok (mret _) _ s s _ eq_refl).
    rewrite (bind_ok _ _ _ _ _ (add_document_quiet _ s Hfl)).
    split; [reflexivity|done].
Qed.

(** X22 ([notmuch_database_add_message]).  A call cannot fail on its own:
    when the file can be opened and the index throws nothing, the call
    returns success, whatever the message and the index are.  It stores one
    document whose data is the file name, writes nothing to stderr, and
    leaves a state in which the next call succeeds as well. *)
Theorem add_message_succeeds `{GHashTable, LibC, Parsers} (env : Env)
    (filename file : string) (s : State) :
  fopen env filename = inr file →
  xapian_faults s = [] →
  ∃ d s', notmuch_database_add_message env filename s
          = (Returned NOTMUCH_STATUS_SUCCESS, s')
          ∧ xapian_db s' = xapian_db s ++ [d]
          ∧ doc_data d = filename
          ∧ stderr s' = stderr s
          ∧ xapian_faults s' = [].
Proof.
  intros Hopen Hfl.
  set (message := g_mime_parser_construct_message file).
  destruct (add_message_try_no_faults env filename message s Hfl) as (s' & Hrun & Hfl').
  exists (document_for env filename message s), s'. split_and!.
  - unfold notmuch_database_add_message. rewrite Hopen. fold message.
    by rewrite Hrun.
  - exact (post_elim_ok _ _ _ _ _ _ (add_message_try_post env filename message s) Hrun).
  - apply document_for_data.
  - exact (post_elim_ok _ _ _ _ _ _ (add_message_try_stderr env filename message s) Hrun).
  - done.
Qed.

Lemma add_message_succeeds_witness :
  let s := Scenario.add_all GLib.table ["a"; "anon"] initial_state in
  ∃ d s', @notmuch_database_add_message GLib.table Scenario.libc Scenario.parsers
            Scenario.env "anon_re_a" s
          = (Returned NOTMUCH_STATUS_SUCCESS, s')
          ∧ xapian_db s' = xapian_db s ++ [d]
          ∧ doc_data d = "anon_re_a"
          ∧ stderr s' = stderr s
          ∧ xapian_faults s' = [].
Proof.
  intros s.
  exact (@add_message_succeeds GLib.table Scenario.libc Scenario.parsers
           Scenario.env "anon_re_a" "anon_re_a" s eq_refl eq_refl).
Defined.

(** ** How often a term is added *)

Lemma wdf_add_value (d : Document) (slot : nat) (value t : string) :
  wdf (add_value d slot value) t = wdf d t.
Proof. done. Qed.

Lemma wdf_new_document (data t : string) :
  wdf (set_data empty_document data) t = 0.
Proof. unfold wdf. cbn [doc_terms set_data empty_document]. by rewrite lookup_empty. Qed.

Lemma wdf_add_term (d : Document) (field v t : string) :
  wdf (add_term d field (Some v)) t
  = wdf d t + (if bool_decide (t = find_prefix field +:+ v
                                ∧ String.length t ≤ NOTMUCH_MAX_TERM)
               then 1 else 0).
Proof.
  unfold add_term. cbv zeta.
  destruct (String.length (find_prefix field +:+ v) <=? NOTMUCH_MAX_TERM) eqn:Hlen.
  - apply Nat.leb_le in Hlen. unfold wdf, doc_add_term. simpl.
    destruct (decide (t = find_prefix field +:+ v)) as [->|Hne].
    + rewrite lookup_insert_eq, bool_decide_eq_true_2 by done. simpl. lia.
    + rewrite lookup_insert_ne by done.
      rewrite bool_decide_eq_false_2 by (by intros [? _]). lia.
  - apply Nat.leb_gt in Hlen.
    rewrite bool_decide_eq_false_2; [lia|]. intros [-> ?]. lia.
Qed.

Lemma wdf_fold_add_term (field : string) (l : list string) (d : Document)
    (t : string) :
  wdf (fold_left (λ doc v, add_term doc field (Some v)) l d) t
  = wdf d t
    + length (filter (λ v, t = find_prefix field +:+ v
                           ∧ String.length t ≤ NOTMUCH_MAX_TERM) l).
Proof.
  revert d. induction l as [|v l IH]; intros d; [simpl; lia|].
  cbn [fold_left]. rewrite IH, wdf_add_term.
  destruct (decide (t = find_prefix field +:+ v
                    ∧ String.length t ≤ NOTMUCH_MAX_TERM)) as [Hv|Hv].
  - rewrite filter_cons_True, bool_decide_eq_true_2 by done. simpl. lia.
  - rewrite filter_cons_False, bool_decide_eq_false_2 by done. lia.
Qed.

Lemma has_term_wdf (d : Document) (t : string) :
  (∀ n, doc_terms d !! t = Some n → 0 < n) → has_term d t ↔ 0 < wdf d t.
Proof.
  intros Hpos. unfold has_term, wdf. split.
  - intros [n Hn]. rewrite Hn. simpl. by apply Hpos.
  - destruct (doc_terms d !! t); [by eexists|simpl; lia].
Qed.

(** The frequency of every term of the committed document. *)
Lemma document_for_wdf `{GHashTable, LibC, Parsers} (env : Env)
    (filename : string) (message : GMimeMessage) (s : State) (t : string) :
  wdf (document_for env filename message s) t
  = length (filter (λ v, t = find_prefix "ref" +:+ v
                         ∧ String.length t ≤ NOTMUCH_MAX_TERM) (parents_of message))
    + match message_id_of message with
      | Some id => if bool_decide (t = find_prefix "msgid" +:+ id
                                   ∧ String.length t ≤ NOTMUCH_MAX_TERM)
                   then 1 else 0
      | None => 0
      end
    + length (filter (λ v, t = find_prefix "thread" +:+ v
                           ∧ String.length t ≤ NOTMUCH_MAX_TERM)
                (thread_set env s (parents_of message) (message_id_of message))).
Proof.
  unfold document_for. rewrite wdf_add_value.
  set (d1 := match message_id_of message with Some _ => _ | None => _ end).
  assert (wdf d1 t
          = length (filter (λ v, t = find_prefix "ref" +:+ v
                                 ∧ String.length t ≤ NOTMUCH_MAX_TERM)
                      (parents_of message))
            + match message_id_of message with
              | Some id => if bool_decide (t = find_prefix "msgid" +:+ id
                                           ∧ String.length t ≤ NOTMUCH_MAX_TERM)
                           then 1 else 0
              | None => 0
              end) as Hd1.
  { subst d1. destruct (message_id_of message) as [id|].
    - by rewrite wdf_add_value, wdf_add_term, wdf_fold_add_term, wdf_new_document.
    - rewrite wdf_fold_add_term, wdf_new_document. lia. }
  destruct (thread_set env s (parents_of message) (message_id_of message))
    as [|id0 rest] eqn:Hset.
  - rewrite Hd1. simpl. lia.
  - by rewrite wdf_add_value, wdf_fold_add_term, Hd1.
Qed.

Lemma append_inv_head (p a b : string) : p +:+ a = p +:+ b → a = b.
Proof.
  induction p as [|c p IH]; [done|].
  rewrite !append_cons. intros Heq. apply IH. by simplify_eq.
Qed.

Lemma occurrences_not_elem (x : string) (l : list string) :
  x ∉ l → occurrences x l = 0.
Proof.
  unfold occurrences. induction l as [|y l IH]; [done|].
  intros [Hne Hl]%not_elem_of_cons.
  rewrite filter_cons_False by congruence. by apply IH.
Qed.

Lemma occurrences_NoDup (x : string) (l : list string) :
  NoDup l → x ∈ l → occurrences x l = 1.
Proof.
  induction l as [|y l IH]; [by intros _ ?%elem_of_nil|].
  intros [Hy Hnd]%NoDup_cons Hin. unfold occurrences.
  destruct (decide (y = x)) as [->|Hne].
  - rewrite filter_cons_True by done. simpl. f_equal.
    by apply occurrences_not_elem.
  - rewrite filter_cons_False by done. apply IH; [done|].
    apply elem_of_cons in Hin as [?|?]; [congruence|done].
Qed.

Lemma filter_eq_occurrences (field parent : string) (l : list string) :
  String.length (find_prefix field +:+ parent) ≤ NOTMUCH_MAX_TERM →
  length (filter (λ v, find_prefix field +:+ parent = find_prefix field +:+ v
                       ∧ String.length (find_prefix field +:+ parent) ≤ NOTMUCH_MAX_TERM) l)
  = occurrences parent l.
Proof.
  intros Hlen. unfold occurrences. induction l as [|v l IH]; [done|].
  destruct (decide (v = parent)) as [->|Hne].
  - by rewrite !filter_cons_True, !length_cons, IH.
  - rewrite !filter_cons_False; [done|done|].
    intros [Heq%append_inv_head _]. by apply Hne.
Qed.

Lemma filter_other_field (t : string) (field : string) (l : list string) :
  (∀ v, t ≠ find_prefix field +:+ v) →
  filter (λ v, t = find_prefix field +:+ v
               ∧ String.length t ≤ NOTMUCH_MAX_TERM) l = [].
Proof.
  intros Hne. induction l as [|v l IH]; [done|].
  rewrite filter_cons_False; [done|]. intros [? _]. by eapply Hne.
Qed.

(** X23 ([parse_references], [add_term], [notmuch_database_add_message]).
    The document of a successful call counts its references: the
    within-document frequency of the term ref:parent is the number of times
    that the parent is named in References and In-Reply-To together, for
    every parent of at most 244 bytes.  The msgid term and the thread terms
    are added once each. *)
Theorem persisted_term_frequencies {HT : GHashTable} {HL : GHashTableLaws HT}
    {LC : LibC} {PS : Parsers} (env : Env) (filename file : string)
    (s s' : State) :
  let message := g_mime_parser_construct_message file in
  fopen env filename = inr file →
  notmuch_database_add_message env filename s
  = (Returned NOTMUCH_STATUS_SUCCESS, s') →
  ∃ d, xapian_db s' = xapian_db s ++ [d]
       ∧ (∀ parent, String.length parent ≤ 244 →
            wdf d (find_prefix "ref" +:+ parent)
            = occurrences parent (parents_of message))
       ∧ (∀ x, has_term d (find_prefix "msgid" +:+ x) →
            wdf d (find_prefix "msgid" +:+ x) = 1)
       ∧ (∀ id, has_term d (find_prefix "thread" +:+ id) →
            wdf d (find_prefix "thread" +:+ id) = 1).
Proof.
  intros message Hopen Hrun.
  apply (add_message_success _ _ _ _ _ Hopen) in Hrun.
  exists (document_for env filename message s). split_and!; [done| | |].
  - intros parent Hlen. rewrite document_for_wdf.
    rewrite filter_eq_occurrences
      by (rewrite ref_term; simpl; unfold NOTMUCH_MAX_TERM; lia).
    rewrite (filter_other_field _ "thread")
      by (intros v; by rewrite ref_term, thread_term).
    destruct (message_id_of message) as [id|]; [|simpl; lia].
    rewrite bool_decide_eq_false_2; [simpl; lia|].
    intros [Heq _]. by rewrite ref_term, msgid_term in Heq.
  - intros x [(p & _ & Hp & _)|[(id & Hid & Hq & Hlen)|(id & _ & Hh & _)]]%document_for_terms.
    + by rewrite msgid_term, ref_term in Hp.
    + rewrite document_for_wdf, Hid.
      rewrite (filter_other_field _ "ref")
        by (intros v; by rewrite msgid_term, ref_term).
      rewrite (filter_other_field _ "thread")
        by (intros v; by rewrite msgid_term, thread_term).
      by rewrite bool_decide_eq_true_2.
    + by rewrite msgid_term, thread_term in Hh.
  - intros id [(p & _ & Hp & _)|[(x & _ & Hq & _)|(id' & Hin & Hh & Hlen)]]%document_for_terms.
    + by rewrite thread_term, ref_term in Hp.
    + by rewrite thread_term, msgid_term in Hq.
    + rewrite !thread_term in Hh. simplify_eq.
      rewrite document_for_wdf.
      rewrite (filter_other_field _ "ref")
        by (intros v; by rewrite thread_term, ref_term).
      rewrite filter_eq_occurrences by done.
      rewrite (occurrences_NoDup id' _ (thread_set_NoDup env s _ _) Hin).
      destruct (message_id_of message) as [x|]; [|done].
      rewrite bool_decide_eq_false_2; [done|].
      intros [Heq _]. by rewrite thread_term, msgid_term in Heq.
Qed.

Lemma persisted_term_frequencies_witness :
  let r := @notmuch_database_add_message GLib.table Scenario.libc
             twice_parsers Scenario.env "a" initial_state in
  ∃ d, xapian_db (snd r) = [] ++ [d]
       ∧ (∀ parent, String.length parent ≤ 244 →
            wdf d (find_prefix "ref" +:+ parent)
            = occurrences parent ["a@x"; "b@x"; "a@x"])
       ∧ (∀ x, has_term d (find_prefix "msgid" +:+ x) →
            wdf d (find_prefix "msgid" +:+ x) = 1)
       ∧ (∀ id, has_term d (find_prefix "thread" +:+ id) →
            wdf d (find_prefix "thread" +:+ id) = 1).
Proof.
  intros r.
  refine (@persisted_term_frequencies GLib.table glib_table_laws Scenario.libc
            twice_parsers Scenario.env "a" "a" initial_state (snd r) eq_refl _).
  vm_compute. reflexivity.
Defined.

(** ** Threads are handed down *)

Section Inherited.
Context {HT : GHashTable} {HL : GHashTableLaws HT} {LC : LibC} {PS : Parsers}.

Lemma inherited_add (env : Env) (filename : string) (message : GMimeMessage)
    (s : State) :
  Forall doc_ok (xapian_db s) →
  (∀ i j A B x, refers_to (xapian_db s) i j A B x →
     (i < j → thread_ids_of A ⊆ thread_ids_of B)
     ∧ (j < i → thread_ids_of B ⊆ thread_ids_of A)) →
  ∀ i j A B x,
    refers_to (xapian_db s ++ [document_for env filename message s]) i j A B x →
    (i < j → thread_ids_of A ⊆ thread_ids_of B)
    ∧ (j < i → thread_ids_of B ⊆ thread_ids_of A).
Proof.
  intros Hdb IH i j A B x (Hi & Hj & Hij & HA & HB & Hfirst).
  assert (∀ k d, k < j → xapian_db s !! k = Some d
                 → ¬ has_term d (find_prefix "msgid" +:+ x)) as Hfirst'.
  { intros k d Hk Hd. apply (Hfirst k d Hk). by apply lookup_app_l_Some. }
  apply lookup_app_Some in Hi as [Hi|[Hin Hi]];
    apply lookup_app_Some in Hj as [Hj|[Hjn Hj]].
  - by apply (IH i j A B x).
  - (* B is the new document: its children are looked up *)
    apply list_lookup_singleton_Some in Hj as [Hjlen <-].
    split; [|apply lookup_lt_Some in Hi; lia].
    intros _ tid Htid.
    apply document_for_terms in HB
      as [(p & _ & Hp & _)|[(id & Hid & Hq & _)|(id & _ & Hh & _)]].
    + by rewrite msgid_term, ref_term in Hp.
    + rewrite !msgid_term in Hq. simplify_eq.
      rewrite document_for_ids by done. apply thread_set_contains.
      apply elem_of_discovery. left. exists A. rewrite Hid.
      split_and!; [|done..]. by eapply list_elem_of_lookup_2.
    + by rewrite msgid_term, thread_term in Hh.
  - (* A is the new document: its parents are looked up *)
    apply list_lookup_singleton_Some in Hi as [Hilen <-].
    split; [apply lookup_lt_Some in Hj; lia|].
    intros _ tid Htid.
    apply document_for_terms in HA
      as [(p & Hp & Hr & _)|[(id & _ & Hq & _)|(id & _ & Hh & _)]].
    + rewrite !ref_term in Hr. simplify_eq.
      rewrite document_for_ids by done. apply thread_set_contains.
      apply elem_of_discovery. right. exists p, B. split_and!; [done| |done].
      by apply (first_carrier_at _ _ j).
    + by rewrite ref_term, msgid_term in Hq.
    + by rewrite ref_term, thread_term in Hh.
  - apply list_lookup_singleton_Some in Hi as [Hi _].
    apply list_lookup_singleton_Some in Hj as [Hj _]. lia.
Qed.

End Inherited.

(** X24 ([find_thread_ids], [notmuch_database_add_message]).  Thread ids
    are handed down in the order of arrival.  In an index built by the
    code, let a document refer to a message id and let another document be
    the first to claim that id: whichever of the two was added later has
    every thread id of the earlier one, the reply through its parents, the
    parent through its children. *)
Theorem later_document_inherits_threads {HT : GHashTable} {HL : GHashTableLaws HT}
    {LC : LibC} {PS : Parsers} (s : State) (i j : nat) (A B : Document)
    (x : string) :
  reachable s →
  refers_to (xapian_db s) i j A B x →
  (i < j → thread_ids_of A ⊆ thread_ids_of B)
  ∧ (j < i → thread_ids_of B ⊆ thread_ids_of A).
Proof.
  intros Hs. revert i j A B x.
  induction Hs as [|s fl Hs IH|s env filename Hs IH].
  - by intros i j A B x (Hi & _).
  - exact IH.
  - destruct (add_message_db env filename s) as [->|(file & _ & _ & ->)]; [done|].
    apply inherited_add; [|done]. by destruct (reachable_index_ok s Hs).
Qed.

Lemma later_document_inherits_threads_witness :
  let s := Scenario.add_all GLib.table ["b_re_a"; "c_refs_a_b"; "a"] initial_state in
  let A := default empty_document (xapian_db s !! 1) in
  let B := default empty_document (xapian_db s !! 2) in
  (1 < 2 → thread_ids_of A ⊆ thread_ids_of B)
  ∧ (2 < 1 → thread_ids_of B ⊆ thread_ids_of A).
Proof.
  intros s A B.
  refine (@later_document_inherits_threads GLib.table glib_table_laws
            Scenario.libc Scenario.parsers s 1 2 A B "a@x" _ _).
  - apply add_all_reachable, reach_init.
  - split_and!.
    + vm_compute. reflexivity.
    + vm_compute. reflexivity.
    + lia.
    + vm_compute. eexists. reflexivity.
    + vm_compute. eexists. reflexivity.
    + intros k d Hk Hd [n Hn].
      destruct k as [|[|k]]; [| |lia];
        vm_compute in Hd; simplify_eq; try (vm_compute in Hn; discriminate).
Defined.

(** ** One document for one success *)

(** X25 ([notmuch_database_add_message]).  Whatever a call does, the
    documents of the index stay where they are and as they are; the index
    grows by one document exactly when the call returns success, and not at
    all otherwise. *)
Theorem index_grows_on_success_only `{GHashTable, LibC, Parsers} (env : Env)
    (filename : string) (s : State) :
  let result := notmuch_database_add_message env filename s in
  ∃ extra, xapian_db (snd result) = xapian_db s ++ extra
           ∧ (fst result = Returned NOTMUCH_STATUS_SUCCESS → length extra = 1)
           ∧ (fst result ≠ Returned NOTMUCH_STATUS_SUCCESS → extra = []).
Proof.
  intros result. subst result. unfold notmuch_database_add_message.
  destruct (fopen env filename) as [errno|file].
  - exists []. by rewrite app_nil_r.
  - pose proof (add_message_try_post env filename
                  (g_mime_parser_construct_message file) s) as Hpost.
    unfold post in Hpost.
    destruct (add_message_try env filename _ s) as [[u|msg] s'].
    + eexists. split; [exact Hpost|]. by split.
    + exists []. cbn [fst snd]. rewrite app_nil_r. by split_and!.
Qed.

(** ** What the resolver hands back *)

(** X26 ([find_thread_ids], [insert_thread_id]).  On an index built by the
    code, and whatever exceptions are pending, a resolver that returns
    returns thread ids: each of its results has 32 lowercase hexadecimal
    digits, none is listed twice, and each of them is a thread id of a
    document of the index. *)
Theorem resolver_returns_thread_ids {HT : GHashTable} {HL : GHashTableLaws HT}
    {LC : LibC} {PS : Parsers} (s s' : State) (parents : list string)
    (message_id : option string) (r : list string) :
  reachable s →
  find_thread_ids parents message_id s = (Ok r, s') →
  NoDup r
  ∧ Forall (λ id, is_thread_id id = true
                  ∧ ∃ d, d ∈ xapian_db s ∧ id ∈ thread_ids_of d) r.
Proof.
  intros Hs Hrun.
  destruct (post_elim_ok _ _ _ _ _ _ (find_thread_ids_post parents message_id s) Hrun)
    as [_ ->].
  split; [apply get_keys_NoDup|].
  apply Forall_forall. intros id Hid.
  apply (proj1 (get_keys_elem _ id)) in Hid.
  destruct (reachable_index_ok s Hs) as [Hdb _]. rewrite Forall_forall in Hdb.
  assert (∃ d, d ∈ xapian_db s ∧ id ∈ thread_ids_of d) as (d & Hd & Hin).
  { apply elem_of_discovery in Hid as [(d & Hd & _ & Hx)|(p & d & _ & Hf & Hx)].
    - by exists d.
    - exists d. split; [by eapply first_carrier_elem|done]. }
  split; [|by exists d].
  destruct (Hdb d Hd) as [Hids _]. rewrite Forall_forall in Hids. auto.
Qed.

Lemma resolver_returns_thread_ids_witness :
  let s := with_faults (Scenario.add_all GLib.table ["a"; "b"] initial_state)
                       [None; None; None; None; None; Some "late"] in
  let r := ["325a7daa5e4d7d9b4425e5381149d911"; "2d3da59e41e9d87f01c2104c47604895"] in
  NoDup r
  ∧ Forall (λ id, is_thread_id id = true
                  ∧ ∃ d, d ∈ xapian_db s ∧ id ∈ thread_ids_of d) r.
Proof.
  intros s r.
  refine (@resolver_returns_thread_ids GLib.table glib_table_laws
            Scenario.libc Scenario.parsers s (with_faults s [Some "late"])
            ["a@x"; "b@x"] (Some "c@x") r _ _).
  - apply reach_faults, add_all_reachable, reach_init.
  - vm_compute. reflexivity.
Defined.

(** ** When the generator runs *)

(** X27 ([notmuch_database_add_message], [thread_id_generate]).  With no
    exception pending, a call that can open its file runs the generator
    exactly when the message has a Message-ID and the resolver finds no
    thread: then the generator is left as one call of [thread_id_generate]
    leaves it; in every other case the call does not touch it, so that no
    thread id is used up by a message that joins a thread. *)
Theorem generator_runs_for_new_threads_only `{GHashTable, LibC, Parsers}
    (env : Env) (filename file : string) (s s' : State) (r : list string) :
  let message := g_mime_parser_construct_message file in
  let generator (st : State) := (seeded st, rand_seed st, rand_count st) in
  fopen env filename = inr file →
  xapian_faults s = [] →
  find_thread_ids (parents_of message) (message_id_of message) s = (Ok r, s) →
  notmuch_database_add_message env filename s
  = (Returned NOTMUCH_STATUS_SUCCESS, s') →
  generator s'
  = if bool_decide (r = [] ∧ is_Some (message_id_of message))
    then generator (snd (thread_id_generate env s))
    else generator s.
Proof.
  intros message generator Hopen Hfl Hfind.
  unfold notmuch_database_add_message. rewrite Hopen. fold message.
  unfold add_message_try. cbv zeta.
  change (parse_references (parse_references [] (header_references message))
            (header_in_reply_to message)) with (parents_of message).
  rewrite (bind_ok _ _ _ _ _ Hfind).
  destruct r as [|k ks].
  - cbn [length Nat.eqb negb]. destruct (message_id_of message) as [id|].
    + rewrite bool_decide_eq_true_2 by (split; [done|by eexists]).
      destruct (thread_id_generate_spec env s) as (tid & s2 & Hgen & _ & _ & Hfl2 & _).
      rewrite (bind_ok _ _ _ _ _ (bind_ok _ _ _ _ _ Hgen)).
      rewrite Hfl in Hfl2.
      rewrite (bind_ok _ _ _ _ _ (add_document_quiet _ s2 Hfl2)).
      unfold mret, M_ret. intros Hrun. simplify_eq. by rewrite Hgen.
    + rewrite bool_decide_eq_false_2 by (by intros [_ [? ?]]).
      rewrite (bind_ok (mret _) _ s s _ eq_refl).
      rewrite (bind_ok _ _ _ _ _ (add_document_quiet _ s Hfl)).
      unfold mret, M_ret. intros Hrun. by simplify_eq.
  - cbn [length Nat.eqb negb]. rewrite thread_ids_loop_spec.
    rewrite bool_decide_eq_false_2 by (by intros [? _]).
    rewrite (bind_ok (mret _) _ s s _ eq_refl).
    rewrite (bind_ok _ _ _ _ _ (add_document_quiet _ s Hfl)).
    unfold mret, M_ret. intros Hrun. by simplify_eq.
Qed.

Lemma generator_runs_for_new_threads_only_witness :
  let s := Scenario.add_all GLib.table ["a"] initial_state in
  let r := @notmuch_database_add_message GLib.table Scenario.libc
             Scenario.parsers Scenario.env "b_re_a" s in
  (seeded (snd r), rand_seed (snd r), rand_count (snd r))
  = (seeded s, rand_seed s, rand_count s).
Proof.
  intros s r.
  refine (@generator_runs_for_new_threads_only GLib.table Scenario.libc
            Scenario.parsers Scenario.env "b_re_a" "b_re_a" s (snd r)
            ["2d3da59e41e9d87f01c2104c47604895"] eq_refl eq_refl _ _).
  - vm_compute. reflexivity.
  - vm_compute. reflexivity.
Defined.

(** ** notmuch-show.c *)

Lemma get_tags_loop_concat (tags : notmuch_tags_t) (tag result : string) :
  get_tags_loop tags false (result +:+ tag)
  = result +:+ String.concat " " (tag :: tags).
Proof.
  revert tag result. induction tags as [|tag' tags IH]; intros tag result.
  - done.
  - cbn [get_tags_loop String.concat].
    rewrite <- (append_assoc (result +:+ tag) " " tag'), IH.
    rewrite !append_assoc. simpl. done.
Qed.

(** X28 ([_get_tags_as_string]).  The string that is returned is the tags
    of the cursor in their order with one space between neighbours: no
    space before the first or after the last, and the empty string when
    there is no tag. *)
Theorem get_tags_as_string_concat (tags : notmuch_tags_t) :
  _get_tags_as_string tags = String.concat " " tags.
Proof.
  destruct tags as [|tag tags]; [done|].
  change (_get_tags_as_string (tag :: tags))
    with (get_tags_loop tags false ("" +:+ tag)).
  by rewrite (get_tags_loop_concat tags tag "").
Qed.
